(** * The bit-vector theory plugin (smt/theory_bv.cpp)

    A shallow embedding of the stateful part of [theory_bv]: the per-variable
    bit arrays, the atom table with its occurrence lists, the union-find over
    theory variables, the zero-one-bit summaries, the propagation engine, the
    fixed-value table and the scoped undo trail, together with the small part
    of the logical context ([smt::context]) that the plugin talks to.

    Conventions.
    - A C++ vector is a [list]; the element at index 0 is the head.  Reads
      use the total lookup [!!!]; a read out of range is undefined in the
      source and yields the default element here, so the theorems carry the
      in-range hypotheses they need.
    - Logs kept by the context (asserted theory clauses, proposed
      equalities) and the undo trail are lists with the most recent entry at
      the head.
    - A function that contains a loop whose termination depends on the state
      (following parent pointers, walking a class ring, draining the
      propagation queue, the reconciliation loop of [merge_eh]) takes a
      [fuel] argument and returns [None] when it runs out; [None] is also the
      result of dereferencing a missing or wrongly tagged atom.
    - Statistics counters and tracing are left out. *)

From stdpp Require Import base list gmap.
From Stdlib Require Import ZArith Lia.

#[local] Set Warnings "-clear-no-such-hyp,-register-all".

Local Open Scope Z_scope.
Local Open Scope nat_scope.

(** ** Literals and truth values (smt_literal.h, lbool.h) *)

Definition bool_var := nat.
Definition theory_var := nat.
Definition theory_id := nat.

Definition true_bool_var : bool_var := 0.

Record literal := Literal { lit_var : bool_var; lit_sign : bool }.

Global Instance literal_eq_dec : EqDecision literal.
Proof. solve_decision. Defined.

Definition true_literal : literal := Literal true_bool_var false.
Definition false_literal : literal := Literal true_bool_var true.

Global Instance literal_inhabited : Inhabited literal := populate true_literal.

(** [operator~] on literals, and [literal::neg]. *)
Definition neg (l : literal) : literal := Literal (lit_var l) (negb (lit_sign l)).

Inductive lbool := l_false | l_undef | l_true.

Global Instance lbool_eq_dec : EqDecision lbool.
Proof. solve_decision. Defined.

Definition lbool_of_bool (b : bool) : lbool := if b then l_true else l_false.

(** ** What the plugin hands to the core *)

(** The two justification classes of the file.  A justification keeps the
    theory variables it was built from; its antecedents are computed from the
    plugin state at the time conflict resolution asks for them. *)
Inductive justification :=
  | fixed_eq_justification (v1 v2 : theory_var)
  | bit_eq_justification (v1 v2 : theory_var) (consequent antecedent : literal).

(** Literals of the clauses passed to [mk_th_axiom].  [mk_eq] and the
    internalization of a bit-blasted xor create their boolean variable inside
    the core; the embedding keeps them symbolic. *)
Inductive clause_lit :=
  | lit_core (l : literal)
  | lit_eq (negated : bool) (v1 v2 : theory_var)
  | lit_xor (l1 l2 : literal).

Global Instance clause_lit_eq_dec : EqDecision clause_lit.
Proof. solve_decision. Defined.

(** What [conflict_resolution] is asked to mark. *)
Inductive antecedent_mark :=
  | mark_literal (l : literal)
  | mark_eq (v1 v2 : theory_var).

(** Entries of the context trail.  The plugin pushes only
    [value_trail<context, bool>(m_approximates_large_bvs)], which remembers
    the value the flag had when the entry was created; [core_trail] stands
    for the undo records the core pushes for its own data. *)
Inductive ctx_trail :=
  | value_trail_approximates (old_value : bool)
  | core_trail.

(** ** The logical context, as far as the plugin uses it *)

Record context := Context {
  m_assignment : gmap bool_var bool;
  m_conflict : option justification;
  m_var_theory : gmap bool_var theory_id;
  m_relevancy : bool;
  m_th_axioms : list (list clause_lit);
  m_relevancy_ehs : list (theory_var * theory_var);
  m_th_eqs : list (theory_var * theory_var * justification);
  m_ctx_trail : list ctx_trail;
  m_ctx_scopes : list nat
}.

Definition set_assignment (f : gmap bool_var bool → gmap bool_var bool) (c : context) : context :=
  Context (f (m_assignment c)) (m_conflict c) (m_var_theory c) (m_relevancy c)
          (m_th_axioms c) (m_relevancy_ehs c) (m_th_eqs c) (m_ctx_trail c) (m_ctx_scopes c).

Definition set_conflict_field (j : option justification) (c : context) : context :=
  Context (m_assignment c) j (m_var_theory c) (m_relevancy c)
          (m_th_axioms c) (m_relevancy_ehs c) (m_th_eqs c) (m_ctx_trail c) (m_ctx_scopes c).

Definition set_var_theory (v : bool_var) (th : theory_id) (c : context) : context :=
  Context (m_assignment c) (m_conflict c) (<[v := th]> (m_var_theory c)) (m_relevancy c)
          (m_th_axioms c) (m_relevancy_ehs c) (m_th_eqs c) (m_ctx_trail c) (m_ctx_scopes c).

Definition set_th_axioms (f : list (list clause_lit) → list (list clause_lit)) (c : context) : context :=
  Context (m_assignment c) (m_conflict c) (m_var_theory c) (m_relevancy c)
          (f (m_th_axioms c)) (m_relevancy_ehs c) (m_th_eqs c) (m_ctx_trail c) (m_ctx_scopes c).

Definition set_relevancy_ehs (f : list (theory_var * theory_var) → list (theory_var * theory_var))
    (c : context) : context :=
  Context (m_assignment c) (m_conflict c) (m_var_theory c) (m_relevancy c)
          (m_th_axioms c) (f (m_relevancy_ehs c)) (m_th_eqs c) (m_ctx_trail c) (m_ctx_scopes c).

Definition set_th_eqs (f : list (theory_var * theory_var * justification) →
                           list (theory_var * theory_var * justification))
    (c : context) : context :=
  Context (m_assignment c) (m_conflict c) (m_var_theory c) (m_relevancy c)
          (m_th_axioms c) (m_relevancy_ehs c) (f (m_th_eqs c)) (m_ctx_trail c) (m_ctx_scopes c).

Definition set_ctx_trail (t : list ctx_trail) (sc : list nat) (c : context) : context :=
  Context (m_assignment c) (m_conflict c) (m_var_theory c) (m_relevancy c)
          (m_th_axioms c) (m_relevancy_ehs c) (m_th_eqs c) t sc.

(** [context::get_assignment(literal)]. *)
Definition get_assignment (c : context) (l : literal) : lbool :=
  match m_assignment c !! lit_var l with
  | None => l_undef
  | Some b => lbool_of_bool (xorb b (lit_sign l))
  end.

(** [context::inconsistent()]. *)
Definition inconsistent (c : context) : bool :=
  match m_conflict c with Some _ => true | None => false end.

(** [context::set_conflict]: the first conflict is kept. *)
Definition set_conflict (js : justification) (c : context) : context :=
  if inconsistent c then c else set_conflict_field (Some js) c.

(** [context::assign(literal, justification)]. *)
Definition assign (l : literal) (js : justification) (c : context) : context :=
  match get_assignment c l with
  | l_false => set_conflict js c
  | l_undef => set_assignment (<[lit_var l := negb (lit_sign l)]>) c
  | l_true => c
  end.

(** [context::mk_th_axiom]: the clause is handed over to the core. *)
Definition mk_th_axiom (lits : list clause_lit) (c : context) : context :=
  set_th_axioms (cons lits) c.

(** [context::assign_eq(n1, n2, eq_justification(js))]. *)
Definition assign_eq (v1 v2 : theory_var) (js : justification) (c : context) : context :=
  set_th_eqs (cons (v1, v2, js)) c.

(** ** Plugin data (theory_bv.h, smt_theory.h, union_find.h) *)

(** An enode as the plugin sees it: the bit-width of its sort ([None] for a
    sort that is not a bit-vector sort, as for [bv2int] terms) and its
    current root in the core's congruence closure. *)
Record enode := Enode { e_bv_size : option nat; e_root : nat }.

Global Instance enode_inhabited : Inhabited enode := populate (Enode None 0).

Record zero_one_bit := ZeroOneBit { m_owner : theory_var; m_idx : nat; m_is_true : bool }.

Global Instance zero_one_bit_inhabited : Inhabited zero_one_bit := populate (ZeroOneBit 0 0 false).

(** [var_pos_occ] chains are lists of (variable, index) pairs, most recently
    added occurrence first. *)
Definition var_pos : Type := theory_var * nat.

Inductive atom :=
  | bit_atom (m_occs : list var_pos)
  | le_atom (m_var m_def : literal).

(** The undo records pushed on [m_trail_stack].  An atom is named by its
    boolean variable: the table holds one atom per variable. *)
Inductive trail :=
  | mk_atom_trail (m_var : bool_var)
  | add_var_pos_trail (m_atom : bool_var)
  | mk_var_trail
  | merge_trail (m_r1 : nat).

Record union_find := UnionFind {
  uf_find : list nat;
  uf_size : list nat;
  uf_next : list nat
}.

Record theory_bv_params := Params { m_bv_blast_max_size : Z; m_bv_enable_int2bv2int : bool }.

Definition INT_MAX : Z := 2147483647.

Record theory_bv := TheoryBv {
  ctx : context;
  m_params : theory_bv_params;
  m_var2enode : list enode;
  m_var2enode_lim : list nat;
  m_find : union_find;
  m_bits : list (list literal);
  m_wpos : list nat;
  m_zero_one_bits : list (list zero_one_bit);
  m_bool_var2atom : gmap bool_var atom;
  m_trail_stack : list trail;
  m_scopes : list nat;
  m_fixed_var_table : gmap (Z * nat) theory_var;
  m_prop_queue : list var_pos;
  m_approximates_large_bvs : bool
}.

Definition upd_ctx (f : context → context) (s : theory_bv) : theory_bv :=
  TheoryBv (f (ctx s)) (m_params s) (m_var2enode s) (m_var2enode_lim s) (m_find s) (m_bits s)
    (m_wpos s) (m_zero_one_bits s) (m_bool_var2atom s) (m_trail_stack s) (m_scopes s)
    (m_fixed_var_table s) (m_prop_queue s) (m_approximates_large_bvs s).

Definition upd_var2enode (f : list enode → list enode) (g : list nat → list nat)
    (s : theory_bv) : theory_bv :=
  TheoryBv (ctx s) (m_params s) (f (m_var2enode s)) (g (m_var2enode_lim s)) (m_find s) (m_bits s)
    (m_wpos s) (m_zero_one_bits s) (m_bool_var2atom s) (m_trail_stack s) (m_scopes s)
    (m_fixed_var_table s) (m_prop_queue s) (m_approximates_large_bvs s).

Definition upd_find (f : union_find → union_find) (s : theory_bv) : theory_bv :=
  TheoryBv (ctx s) (m_params s) (m_var2enode s) (m_var2enode_lim s) (f (m_find s)) (m_bits s)
    (m_wpos s) (m_zero_one_bits s) (m_bool_var2atom s) (m_trail_stack s) (m_scopes s)
    (m_fixed_var_table s) (m_prop_queue s) (m_approximates_large_bvs s).

Definition upd_bits (f : list (list literal) → list (list literal)) (s : theory_bv) : theory_bv :=
  TheoryBv (ctx s) (m_params s) (m_var2enode s) (m_var2enode_lim s) (m_find s) (f (m_bits s))
    (m_wpos s) (m_zero_one_bits s) (m_bool_var2atom s) (m_trail_stack s) (m_scopes s)
    (m_fixed_var_table s) (m_prop_queue s) (m_approximates_large_bvs s).

Definition upd_wpos (f : list nat → list nat) (s : theory_bv) : theory_bv :=
  TheoryBv (ctx s) (m_params s) (m_var2enode s) (m_var2enode_lim s) (m_find s) (m_bits s)
    (f (m_wpos s)) (m_zero_one_bits s) (m_bool_var2atom s) (m_trail_stack s) (m_scopes s)
    (m_fixed_var_table s) (m_prop_queue s) (m_approximates_large_bvs s).

Definition upd_zero_one_bits (f : list (list zero_one_bit) → list (list zero_one_bit))
    (s : theory_bv) : theory_bv :=
  TheoryBv (ctx s) (m_params s) (m_var2enode s) (m_var2enode_lim s) (m_find s) (m_bits s)
    (m_wpos s) (f (m_zero_one_bits s)) (m_bool_var2atom s) (m_trail_stack s) (m_scopes s)
    (m_fixed_var_table s) (m_prop_queue s) (m_approximates_large_bvs s).

Definition upd_bool_var2atom (f : gmap bool_var atom → gmap bool_var atom)
    (s : theory_bv) : theory_bv :=
  TheoryBv (ctx s) (m_params s) (m_var2enode s) (m_var2enode_lim s) (m_find s) (m_bits s)
    (m_wpos s) (m_zero_one_bits s) (f (m_bool_var2atom s)) (m_trail_stack s) (m_scopes s)
    (m_fixed_var_table s) (m_prop_queue s) (m_approximates_large_bvs s).

Definition upd_trail_stack (f : list trail → list trail) (g : list nat → list nat)
    (s : theory_bv) : theory_bv :=
  TheoryBv (ctx s) (m_params s) (m_var2enode s) (m_var2enode_lim s) (m_find s) (m_bits s)
    (m_wpos s) (m_zero_one_bits s) (m_bool_var2atom s) (f (m_trail_stack s)) (g (m_scopes s))
    (m_fixed_var_table s) (m_prop_queue s) (m_approximates_large_bvs s).

Definition upd_fixed_var_table (f : gmap (Z * nat) theory_var → gmap (Z * nat) theory_var)
    (s : theory_bv) : theory_bv :=
  TheoryBv (ctx s) (m_params s) (m_var2enode s) (m_var2enode_lim s) (m_find s) (m_bits s)
    (m_wpos s) (m_zero_one_bits s) (m_bool_var2atom s) (m_trail_stack s) (m_scopes s)
    (f (m_fixed_var_table s)) (m_prop_queue s) (m_approximates_large_bvs s).

Definition upd_prop_queue (f : list var_pos → list var_pos) (s : theory_bv) : theory_bv :=
  TheoryBv (ctx s) (m_params s) (m_var2enode s) (m_var2enode_lim s) (m_find s) (m_bits s)
    (m_wpos s) (m_zero_one_bits s) (m_bool_var2atom s) (m_trail_stack s) (m_scopes s)
    (m_fixed_var_table s) (f (m_prop_queue s)) (m_approximates_large_bvs s).

Definition upd_approximates (b : bool) (s : theory_bv) : theory_bv :=
  TheoryBv (ctx s) (m_params s) (m_var2enode s) (m_var2enode_lim s) (m_find s) (m_bits s)
    (m_wpos s) (m_zero_one_bits s) (m_bool_var2atom s) (m_trail_stack s) (m_scopes s)
    (m_fixed_var_table s) (m_prop_queue s) b.

(** The family id of the plugin, [get_id()]. *)
Definition bv_family_id : theory_id := 5.

(** [theory::get_num_vars], [theory_bv::is_bv] and [theory_bv::get_bv_size]. *)
Definition get_num_vars (s : theory_bv) : nat := length (m_var2enode s).

Definition is_bv (s : theory_bv) (v : theory_var) : bool :=
  match e_bv_size (m_var2enode s !!! v) with Some _ => true | None => false end.

Definition get_bv_size (s : theory_bv) (v : theory_var) : nat :=
  default 0 (e_bv_size (m_var2enode s !!! v)).

(** [m_bits[v][idx]]. *)
Definition bit_at (s : theory_bv) (v : theory_var) (idx : nat) : literal :=
  (m_bits s !!! v) !!! idx.

(** ** Fixed values *)

(** Modelled from the spec: [bit_blaster::power] is not part of the excerpt;
    bit [i] of a numeral weighs [2^i], index 0 being the least significant
    bit. *)
Definition power (i : nat) : Z := (2 ^ Z.of_nat i)%Z.

(** The loop of [get_fixed_value]: [i] is the index of the head of [bits]. *)
Fixpoint get_fixed_value_loop (c : context) (bits : list literal) (i : nat) (result : Z)
    : bool * Z :=
  match bits with
  | [] => (true, result)
  | l :: bits' =>
      match get_assignment c l with
      | l_false => get_fixed_value_loop c bits' (S i) result
      | l_undef => (false, result)
      | l_true => get_fixed_value_loop c bits' (S i) (result + power i)%Z
      end
  end.

(** [theory_bv::get_fixed_value(theory_var, numeral &)]: the returned flag and
    the contents of [result] when the function returns. *)
Definition get_fixed_value (s : theory_bv) (v : theory_var) : bool * Z :=
  get_fixed_value_loop (ctx s) (m_bits s !!! v) 0 0%Z.

(** [fixed_eq_justification::mark_bits] and [get_antecedents];
    [bit_eq_justification::get_antecedents]. *)
Definition mark_bits (c : context) (bits : list literal) : list antecedent_mark :=
  omap (λ l, if decide (lit_var l = true_bool_var) then None
             else if decide (get_assignment c l = l_true) then Some (mark_literal l)
             else Some (mark_literal (neg l))) bits.

Definition get_antecedents (s : theory_bv) (js : justification) : list antecedent_mark :=
  match js with
  | fixed_eq_justification v1 v2 =>
      mark_bits (ctx s) (m_bits s !!! v1) ++ mark_bits (ctx s) (m_bits s !!! v2)
  | bit_eq_justification v1 v2 _ antecedent =>
      mark_eq v1 v2 ::
      (if decide (lit_var antecedent = true_bool_var) then [] else [mark_literal antecedent])
  end.

(** [theory_bv::fixed_var_eh]. *)
Definition fixed_var_eh (v : theory_var) (s : theory_bv) : theory_bv :=
  let val := (get_fixed_value s v).2 in
  let sz := get_bv_size s v in
  let key := (val, sz) in
  match m_fixed_var_table s !! key with
  | Some v2 =>
      if bool_decide (v2 < get_num_vars s) && is_bv s v2 &&
         bool_decide (get_bv_size s v2 = sz) && (get_fixed_value s v2).1 &&
         bool_decide (val = (get_fixed_value s v2).2)
      then
        if decide (e_root (m_var2enode s !!! v) ≠ e_root (m_var2enode s !!! v2))
        then upd_ctx (assign_eq v v2 (fixed_eq_justification v v2)) s
        else s
      else
        (* the original fixed variable v2 was deleted or it is not fixed anymore *)
        upd_fixed_var_table (λ t, <[key := v]> (delete key t)) s
  | None => upd_fixed_var_table (<[key := v]>) s
  end.

(** First index in [[from, from + count)] whose bit is unassigned. *)
Fixpoint find_unassigned (c : context) (bits : list literal) (from count : nat) : option nat :=
  match count with
  | 0 => None
  | S count' =>
      if decide (get_assignment c (bits !!! from) = l_undef) then Some from
      else find_unassigned c bits (S from) count'
  end.

(** [theory_bv::find_wpos]: [m_wpos[v]] is advanced cyclically; when both
    scans fail the cursor is back at its initial value and [fixed_var_eh]
    runs. *)
Definition find_wpos (v : theory_var) (s : theory_bv) : theory_bv :=
  let bits := m_bits s !!! v in
  let sz := length bits in
  let init := m_wpos s !!! v in
  match find_unassigned (ctx s) bits init (sz - init) with
  | Some w => upd_wpos (<[v := w]>) s
  | None =>
      match find_unassigned (ctx s) bits 0 init with
      | Some w => upd_wpos (<[v := w]>) s
      | None => fixed_var_eh v (upd_wpos (<[v := init]>) s)
      end
  end.

(** ** Static disequalities and [add_bit] *)

(** [theory_bv::mk_new_diseq_axiom]: the unit clause [~(v1 = v2)], and the
    relevancy handler when relevancy propagation is on. *)
Definition mk_new_diseq_axiom (v1 v2 : theory_var) (idx : nat) (s : theory_bv) : theory_bv :=
  upd_ctx (λ c,
    let c1 := mk_th_axiom [lit_eq true v1 v2] c in
    if m_relevancy c1 then set_relevancy_ehs (cons (v1, v2)) c1 else c1) s.

(** [theory_bv::register_true_false_bit]. *)
Definition register_true_false_bit (v : theory_var) (idx : nat) (s : theory_bv) : theory_bv :=
  let is_true := bool_decide (bit_at s v idx = true_literal) in
  upd_zero_one_bits (λ z, <[v := (z !!! v) ++ [ZeroOneBit v idx is_true]]> z) s.

(** The loop of [theory_bv::find_new_diseq_axioms]; [l] is the negation of
    [m_bits[v][idx]], computed once before the loop. *)
Fixpoint find_new_diseq_axioms_loop (occs : list var_pos) (v : theory_var) (idx : nat)
    (l : literal) (s : theory_bv) : theory_bv :=
  match occs with
  | [] => s
  | (v2, idx2) :: occs' =>
      let s' :=
        if bool_decide (idx = idx2) && bool_decide (bit_at s v2 idx2 = l) &&
           bool_decide (get_bv_size s v2 = get_bv_size s v)
        then mk_new_diseq_axiom v v2 idx s else s in
      find_new_diseq_axioms_loop occs' v idx l s'
  end.

Definition find_new_diseq_axioms (occs : list var_pos) (v : theory_var) (idx : nat)
    (s : theory_bv) : theory_bv :=
  find_new_diseq_axioms_loop occs v idx (neg (bit_at s v idx)) s.

(** [theory_bv::add_bit].  In the first branch the atom found for the
    variable is used as a bit atom; there is no result when the table has no
    atom or an atom of the other kind. *)
Definition add_bit (v : theory_var) (l : literal) (s : theory_bv) : option theory_bv :=
  let idx := length (m_bits s !!! v) in
  let s1 := upd_bits (λ bs, <[v := (bs !!! v) ++ [l]]> bs) s in
  if decide (lit_var l = true_bool_var) then Some (register_true_false_bit v idx s1)
  else if decide (m_var_theory (ctx s1) !! lit_var l = Some bv_family_id) then
    match m_bool_var2atom s1 !! lit_var l with
    | Some (bit_atom occs) =>
        let s2 := find_new_diseq_axioms occs v idx s1 in
        let s3 := upd_trail_stack (cons (add_var_pos_trail (lit_var l))) id s2 in
        Some (upd_bool_var2atom (<[lit_var l := bit_atom ((v, idx) :: occs)]>) s3)
    | _ => None
    end
  else
    let s2 := upd_ctx (set_var_theory (lit_var l) bv_family_id) s1 in
    let s3 := upd_bool_var2atom (<[lit_var l := bit_atom []]>) s2 in
    let s4 := upd_trail_stack (cons (mk_atom_trail (lit_var l))) id s3 in
    Some (upd_bool_var2atom (<[lit_var l := bit_atom [(v, idx)]]>) s4).

(** [theory_bv::mk_bit2bool] on an application, in the branch where the argument has a
    theory variable [v_arg]; [bv] is the boolean variable the core makes for
    the atom. *)
Definition mk_bit2bool (bv : bool_var) (v_arg : theory_var) (idx : nat) (s : theory_bv)
    : theory_bv :=
  let s1 := upd_ctx (set_var_theory bv bv_family_id) s in
  let s2 := upd_bool_var2atom (<[bv := bit_atom []]>) s1 in
  let s3 := upd_trail_stack (cons (mk_atom_trail bv)) id s2 in
  upd_bool_var2atom (<[bv := bit_atom [(v_arg, idx)]]>) s3.

(** [theory_bv::mk_bits].  The loop runs over the indices below the width of
    the sort of the owner, read once before the loop.  For the atom
    [bit2bool(owner, i)] the function [bs] gives the boolean variable the core
    answers and whether the core had to internalize the atom, in which case
    it calls [mk_bit2bool] back. *)
Fixpoint mk_bits_loop (bs : nat → bool_var * bool) (idxs : list nat) (v : theory_var)
    (s : theory_bv) : theory_bv :=
  match idxs with
  | [] => s
  | i :: idxs' =>
      let s1 := if (bs i).2 then mk_bit2bool (bs i).1 v i s else s in
      mk_bits_loop bs idxs' v
        (upd_bits (λ bits, <[v := (bits !!! v) ++ [Literal (bs i).1 false]]> bits) s1)
  end.

Definition mk_bits (bs : nat → bool_var * bool) (v : theory_var) (s : theory_bv) : theory_bv :=
  mk_bits_loop bs (seq 0 (get_bv_size s v)) v s.

(** ** Union-find over theory variables *)

(** Modelled from the spec: union_find.h is not part of the excerpt.  The
    spec describes a standard union-find forest ("a variable is a root when
    it points to itself") whose merges are reversed one at a time, in LIFO
    order, from the plugin's undo trail; each class is also a ring linked by
    [next] pointers, which is what [propagate_bits] and [check_assignment]
    walk.  [merge_eh] is handed both roots and folds the summary of the
    second into the first, so it runs while the two classes are still
    separate rings; symmetrically [unmerge_eh] asks [find] which owners are
    left in the surviving class, so it runs after the classes have been
    separated again. *)
Fixpoint uf_find_root (fuel : nat) (uf : union_find) (r : nat) : option nat :=
  match fuel with
  | 0 => None
  | S fuel' =>
      let new_r := uf_find uf !!! r in
      if decide (new_r = r) then Some r else uf_find_root fuel' uf new_r
  end.

Definition uf_mk_var (uf : union_find) : union_find :=
  let r := length (uf_find uf) in
  UnionFind (uf_find uf ++ [r]) (uf_size uf ++ [1]) (uf_next uf ++ [r]).

Definition uf_pop_back (uf : union_find) : union_find :=
  UnionFind (removelast (uf_find uf)) (removelast (uf_size uf)) (removelast (uf_next uf)).

Definition swap_entries (r1 r2 : nat) (l : list nat) : list nat :=
  <[r2 := l !!! r1]> (<[r1 := l !!! r2]> l).

(** The pointer updates of [union_find::merge], [r1] becoming a child of
    [r2]. *)
Definition uf_splice (r1 r2 : nat) (uf : union_find) : union_find :=
  UnionFind (<[r1 := r2]> (uf_find uf))
            (<[r2 := uf_size uf !!! r2 + uf_size uf !!! r1]> (uf_size uf))
            (swap_entries r1 r2 (uf_next uf)).

(** The pointer updates of [union_find::unmerge]. *)
Definition uf_unsplice (r1 : nat) (uf : union_find) : union_find :=
  let r2 := uf_find uf !!! r1 in
  UnionFind (<[r1 := r1]> (uf_find uf))
            (<[r2 := uf_size uf !!! r2 - uf_size uf !!! r1]> (uf_size uf))
            (swap_entries r1 r2 (uf_next uf)).

(** [theory_bv::find] and [theory_bv::next]. *)
Definition find (fuel : nat) (s : theory_bv) (v : theory_var) : option theory_var :=
  uf_find_root fuel (m_find s) v.

Definition next (s : theory_bv) (v : theory_var) : theory_var :=
  uf_next (m_find s) !!! v.

(** [theory_bv::mk_var]: the new variable is the old number of variables. *)
Definition mk_var (n : enode) (s : theory_bv) : theory_bv :=
  let s1 := upd_var2enode (λ l, l ++ [n]) id s in
  let s2 := upd_trail_stack (cons mk_var_trail) id (upd_find uf_mk_var s1) in
  let s3 := upd_bits (λ l, l ++ [[]]) s2 in
  let s4 := upd_wpos (λ l, l ++ [0]) s3 in
  upd_zero_one_bits (λ l, l ++ [[]]) s4.

(** [theory_bv::get_var]: [th_var] is the theory variable attached to the
    enode, if there is one; otherwise a variable is made and its bits are
    created. *)
Definition get_var (bs : nat → bool_var * bool) (n : enode) (th_var : option theory_var)
    (s : theory_bv) : theory_var * theory_bv :=
  match th_var with
  | Some v => (v, s)
  | None => let v := get_num_vars s in (v, mk_bits bs v (mk_var n s))
  end.

(** ** Zero-one bits *)

(** The contents of [m_merge_aux[is_true][idx]] after the "save info about
    bits1" loop: the owner of the last entry of [bits1] with that polarity and
    index, [None] standing for [null_theory_var]. *)
Definition merge_aux (bits1 : list zero_one_bit) (is_true : bool) (idx : nat) : option theory_var :=
  m_owner <$> last (filter (λ b, m_is_true b = is_true ∧ m_idx b = idx) bits1).

(** The second loop of [merge_zero_one_bits]: [acc] is the current content of
    [bits1]; the lookups go through the table saved before the loop. *)
Fixpoint merge_zero_one_bits_loop (aux : bool → nat → option theory_var)
    (bits2 : list zero_one_bit) (acc : list zero_one_bit)
    : list zero_one_bit * option (theory_var * theory_var * nat) :=
  match bits2 with
  | [] => (acc, None)
  | it :: bits2' =>
      match aux (negb (m_is_true it)) (m_idx it) with
      | Some v1 => (acc, Some (v1, m_owner it, m_idx it))
      | None =>
          merge_zero_one_bits_loop aux bits2'
            (if aux (m_is_true it) (m_idx it) is None then acc ++ [it] else acc)
      end
  end.

(** [theory_bv::merge_zero_one_bits]; the scratch table is clean again on
    every exit. *)
Definition merge_zero_one_bits (r1 r2 : theory_var) (s : theory_bv) : bool * theory_bv :=
  let bits2 := m_zero_one_bits s !!! r2 in
  if bool_decide (bits2 = []) then (true, s)
  else
    let bits1 := m_zero_one_bits s !!! r1 in
    match merge_zero_one_bits_loop (merge_aux bits1) bits2 bits1 with
    | (bits1', Some (v1, v2, idx)) =>
        (false, mk_new_diseq_axiom v1 v2 idx (upd_zero_one_bits (<[r1 := bits1']>) s))
    | (bits1', None) => (true, upd_zero_one_bits (<[r1 := bits1']>) s)
    end.

(** The backwards scan of [theory_bv::unmerge_eh]: the new size of the
    summary. *)
Fixpoint unmerge_scan (fuel : nat) (s : theory_bv) (v1 : theory_var)
    (bits : list zero_one_bit) (j : nat) : option nat :=
  match j with
  | 0 => Some 0
  | S j' =>
      r ← find fuel s (m_owner (bits !!! j'));
      if decide (r = v1) then Some (S j') else unmerge_scan fuel s v1 bits j'
  end.

(** [theory_bv::unmerge_eh]. *)
Definition unmerge_eh (fuel : nat) (v1 v2 : theory_var) (s : theory_bv) : option theory_bv :=
  let bits := m_zero_one_bits s !!! v1 in
  if bool_decide (bits = []) then Some s
  else
    n ← unmerge_scan fuel s v1 bits (length bits);
    Some (upd_zero_one_bits (<[v1 := take n bits]>) s).

(** ** Propagation *)

(** The loop at the end of [assign_bit] over the occurrences of the
    consequent's atom.  The two [find] calls are evaluated only when
    [propagate_eqc] is false. *)
Fixpoint push_occs (fuel : nat) (propagate_eqc : bool) (v2 : theory_var) (idx : nat)
    (occs : list var_pos) (s : theory_bv) : option theory_bv :=
  match occs with
  | [] => Some s
  | (cv, cidx) :: occs' =>
      b ← (if propagate_eqc then Some true
           else
             r1 ← find fuel s cv;
             r2 ← find fuel s v2;
             Some (bool_decide (r1 ≠ r2) || bool_decide (cidx ≠ idx)));
      push_occs fuel propagate_eqc v2 idx occs'
        (if b : bool then upd_prop_queue (λ q, q ++ [(cv, cidx)]) s else s)
  end.

(** [theory_bv::assign_bit]. *)
Definition assign_bit (fuel : nat) (consequent : literal) (v1 v2 : theory_var) (idx : nat)
    (antecedent : literal) (propagate_eqc : bool) (s : theory_bv) : option theory_bv :=
  let js := bit_eq_justification v1 v2 consequent antecedent in
  if decide (consequent = false_literal) then Some (upd_ctx (set_conflict js) s)
  else
    let s1 := upd_ctx (assign consequent js) s in
    let s2 := if decide (m_wpos s1 !!! v2 = idx) then find_wpos v2 s1 else s1 in
    match m_bool_var2atom s2 !! lit_var consequent with
    | Some (bit_atom occs) => push_occs fuel propagate_eqc v2 idx occs s2
    | _ => None
    end.

(** Antecedent and consequent as the callers of [assign_bit] build them:
    both literals are negated when the propagated value is false. *)
Definition polarize (val : lbool) (l : literal) : literal :=
  if decide (val = l_false) then neg l else l.

(** The inner [while (v2 != v)] loop of [propagate_bits]; the flag of the
    result tells whether the function returned from inside the loop. *)
Fixpoint propagate_ring (fuel : nat) (v : theory_var) (idx : nat) (bit : literal) (val : lbool)
    (v2 : theory_var) (s : theory_bv) : option (bool * theory_bv) :=
  match fuel with
  | 0 => None
  | S fuel' =>
      if decide (v2 = v) then Some (false, s)
      else
        let bit2 := bit_at s v2 idx in
        let val2 := get_assignment (ctx s) bit2 in
        if decide (val ≠ val2) then
          s1 ← assign_bit fuel' (polarize val bit2) v v2 idx (polarize val bit) false s;
          if inconsistent (ctx s1) then Some (true, s1)
          else propagate_ring fuel' v idx bit val (next s1 v2) s1
        else propagate_ring fuel' v idx bit val (next s v2) s
  end.

(** The [for] loop of [propagate_bits] from queue position [i] on; the queue
    is reset only when the loop runs to its end. *)
Fixpoint propagate_loop (fuel : nat) (i : nat) (s : theory_bv) : option theory_bv :=
  match fuel with
  | 0 => None
  | S fuel' =>
      match m_prop_queue s !! i with
      | None => Some (upd_prop_queue (λ _, []) s)
      | Some (v, idx) =>
          let s1 := if decide (m_wpos s !!! v = idx) then find_wpos v s else s in
          let bit := bit_at s1 v idx in
          let val := get_assignment (ctx s1) bit in
          '(returned, s2) ← propagate_ring fuel' v idx bit val (next s1 v) s1;
          if returned : bool then Some s2 else propagate_loop fuel' (S i) s2
      end
  end.

(** [theory_bv::propagate_bits]. *)
Definition propagate_bits (fuel : nat) (s : theory_bv) : option theory_bv :=
  propagate_loop fuel 0 s.

(** [theory_bv::assign_eh]. *)
Definition assign_eh (fuel : nat) (v : bool_var) (is_true : bool) (s : theory_bv)
    : option theory_bv :=
  match m_bool_var2atom s !! v with
  | Some (bit_atom occs) => propagate_bits fuel (upd_prop_queue (λ _, occs) s)
  | Some (le_atom _ _) => Some s
  | None => None
  end.

(** ** Merging *)

(** Outcome of one pass of the [for] loop inside the [do ... while] of
    [merge_eh]. *)
Inductive pass_result :=
  | pass_done (changed : bool) (s : theory_bv)
  | pass_returned (s : theory_bv).

(** One pass over the bit indices [idxs].  The last test of the loop body is
    the [UNREACHABLE()] assertion. *)
Fixpoint merge_pass (fuel : nat) (v1 v2 : theory_var) (idxs : list nat) (changed : bool)
    (s : theory_bv) : option pass_result :=
  match idxs with
  | [] => Some (pass_done changed s)
  | idx :: idxs' =>
      let bit1 := bit_at s v1 idx in
      let bit2 := bit_at s v2 idx in
      let val1 := get_assignment (ctx s) bit1 in
      let val2 := get_assignment (ctx s) bit2 in
      if decide (val1 = val2) then merge_pass fuel v1 v2 idxs' changed s
      else
        s1 ← (if decide (val1 ≠ l_undef)
              then assign_bit fuel (polarize val1 bit2) v1 v2 idx (polarize val1 bit1) true s
              else if decide (val2 ≠ l_undef)
              then assign_bit fuel (polarize val2 bit1) v2 v1 idx (polarize val2 bit2) true s
              else Some s);
        if inconsistent (ctx s1) then Some (pass_returned s1)
        else if decide (val1 ≠ l_undef ∧ val2 ≠ l_undef ∧ val1 ≠ val2) then None
        else merge_pass fuel v1 v2 idxs' true s1
  end.

(** The [do ... while (changed)] loop; the flag of the result tells whether
    [merge_eh] returned from inside the loop. *)
Fixpoint merge_loop (fuel : nat) (v1 v2 : theory_var) (sz : nat) (s : theory_bv)
    : option (bool * theory_bv) :=
  match fuel with
  | 0 => None
  | S fuel' =>
      r ← merge_pass fuel' v1 v2 (seq 0 sz) false s;
      match r with
      | pass_returned s' => Some (true, s')
      | pass_done changed s' =>
          if changed then merge_loop fuel' v1 v2 sz s' else Some (false, s')
      end
  end.

(** [theory_bv::merge_eh]. *)
Definition merge_eh (fuel : nat) (r1 r2 v1 v2 : theory_var) (s : theory_bv) : option theory_bv :=
  let '(ok, s1) := merge_zero_one_bits r1 r2 s in
  if negb ok then Some s1
  else
    let s2 := upd_prop_queue (λ _, []) s1 in
    let sz := length (m_bits s2 !!! v1) in
    '(returned, s3) ← merge_loop fuel v1 v2 sz s2;
    if returned : bool then Some s3 else propagate_bits fuel s3.

(** Modelled from the spec: [union_find::merge], which [new_eq_eh] calls.
    The smaller class is attached below the root of the larger one, the merge
    is recorded on the undo trail, and the plugin's [merge_eh] is called with
    the surviving root first.  The spec does not say whether [merge_eh] runs
    before or after the pointers of the two classes are linked, so the order
    is an argument, and what is proved about a merge is proved for both. *)
Inductive merge_order := merge_eh_then_link | link_then_merge_eh.

Global Instance merge_order_eq_dec : EqDecision merge_order.
Proof. solve_decision. Defined.

Definition uf_link (r1 r2 : nat) (s : theory_bv) : theory_bv :=
  upd_trail_stack (cons (merge_trail r1)) id (upd_find (uf_splice r1 r2) s).

Definition uf_merge (o : merge_order) (fuel : nat) (v1 v2 : theory_var) (s : theory_bv)
    : option theory_bv :=
  r1 ← find fuel s v1;
  r2 ← find fuel s v2;
  if decide (r1 = r2) then Some s
  else
    let '(r1, r2) :=
      if decide (uf_size (m_find s) !!! r2 < uf_size (m_find s) !!! r1)
      then (r2, r1) else (r1, r2) in
    match o with
    | merge_eh_then_link => s1 ← merge_eh fuel r2 r1 v2 v1 s; Some (uf_link r1 r2 s1)
    | link_then_merge_eh => merge_eh fuel r2 r1 v2 v1 (uf_link r1 r2 s)
    end.

(** [theory_bv::new_eq_eh]. *)
Definition new_eq_eh (o : merge_order) (fuel : nat) (v1 v2 : theory_var) (s : theory_bv)
    : option theory_bv :=
  uf_merge o fuel v1 v2 s.

(** ** Scopes and the undo trail *)

(** The [undo] methods: [mk_atom_trail] and [add_var_pos_trail] are the
    classes of this file; the other two are the records of the union-find
    (modelled from the spec, as above), the second ending in the plugin's
    [unmerge_eh]. *)
Definition undo (fuel : nat) (t : trail) (s : theory_bv) : option theory_bv :=
  match t with
  | mk_atom_trail bv => Some (upd_bool_var2atom (delete bv) s)
  | add_var_pos_trail bv =>
      match m_bool_var2atom s !! bv with
      | Some (bit_atom (_ :: occs)) => Some (upd_bool_var2atom (<[bv := bit_atom occs]>) s)
      | _ => None
      end
  | mk_var_trail => Some (upd_find uf_pop_back s)
  | merge_trail r1 =>
      let r2 := uf_find (m_find s) !!! r1 in
      unmerge_eh fuel r2 r1 (upd_find (uf_unsplice r1) s)
  end.

(** Modelled from the spec: [trail_stack::pop_scope] replays the undo records
    pushed since the scope mark, most recent first. *)
Fixpoint undo_trail_stack (fuel : nat) (count : nat) (s : theory_bv) : option theory_bv :=
  match count with
  | 0 => Some s
  | S count' =>
      match m_trail_stack s with
      | [] => Some s
      | t :: _ =>
          s1 ← undo fuel t s;
          undo_trail_stack fuel count' (upd_trail_stack (drop 1) id s1)
      end
  end.

Definition trail_stack_pop_scope (fuel : nat) (num_scopes : nat) (s : theory_bv)
    : option theory_bv :=
  let new_lvl := length (m_scopes s) - num_scopes in
  let old_size := m_scopes s !!! new_lvl in
  s1 ← undo_trail_stack fuel (length (m_trail_stack s) - old_size) s;
  Some (upd_trail_stack id (take new_lvl) s1).

(** [theory_bv::push_scope_eh]: [theory::push_scope_eh] records the number of
    variables, [m_trail_stack.push_scope()] the size of the trail. *)
Definition push_scope_eh (s : theory_bv) : theory_bv :=
  let s1 := upd_var2enode id (λ lim, lim ++ [length (m_var2enode s)]) s in
  upd_trail_stack id (λ sc, sc ++ [length (m_trail_stack s1)]) s1.

(** [theory::get_old_num_vars]. *)
Definition get_old_num_vars (s : theory_bv) (num_scopes : nat) : nat :=
  m_var2enode_lim s !!! (length (m_var2enode_lim s) - num_scopes).

(** [theory_bv::pop_scope_eh]. *)
Definition pop_scope_eh (fuel : nat) (num_scopes : nat) (s : theory_bv) : option theory_bv :=
  s1 ← trail_stack_pop_scope fuel num_scopes s;
  let num_old_vars := get_old_num_vars s1 num_scopes in
  let s2 := upd_bits (take num_old_vars) s1 in
  let s3 := upd_wpos (take num_old_vars) s2 in
  let s4 := upd_zero_one_bits (take num_old_vars) s3 in
  let new_lvl := length (m_var2enode_lim s4) - num_scopes in
  Some (upd_var2enode (take (m_var2enode_lim s4 !!! new_lvl)) (take new_lvl) s4).

(** ** Dynamic disequalities *)

(** [theory_bv::expand_diseq]. *)
Definition expand_diseq (v1 v2 : theory_var) (s : theory_bv) : theory_bv :=
  let bits1 := m_bits s !!! v1 in
  let bits2 := m_bits s !!! v2 in
  if existsb (λ i, bool_decide (bits1 !!! i = neg (bits2 !!! i))) (seq 0 (length bits1))
  then s (* static diseq *)
  else
    upd_ctx (mk_th_axiom
      (lit_eq false v1 v2 :: imap (λ i l1, lit_xor l1 (bits2 !!! i)) bits1)) s.

(** [theory_bv::new_diseq_eh]. *)
Definition new_diseq_eh (v1 v2 : theory_var) (s : theory_bv) : theory_bv :=
  if is_bv s v1 then expand_diseq v1 v2 s else s.

(** ** Approximation of large bit-vectors *)

Inductive decl_kind :=
  | OP_BV_NUM | OP_BADD | OP_BMUL | OP_BSDIV_I | OP_BUDIV_I | OP_BSREM_I | OP_BUREM_I
  | OP_BSMOD_I | OP_BAND | OP_BOR | OP_BNOT | OP_BXOR | OP_BNAND | OP_BNOR | OP_BXNOR
  | OP_CONCAT | OP_SIGN_EXT | OP_ZERO_EXT | OP_EXTRACT | OP_BREDOR | OP_BREDAND | OP_BCOMP
  | OP_BSHL | OP_BLSHR | OP_BASHR | OP_ROTATE_LEFT | OP_ROTATE_RIGHT
  | OP_EXT_ROTATE_LEFT | OP_EXT_ROTATE_RIGHT
  | OP_BSDIV0 | OP_BUDIV0 | OP_BSREM0 | OP_BUREM0 | OP_BSMOD0
  | OP_MKBV | OP_INT2BV | OP_BV2INT
  | OP_BIT2BOOL | OP_ULEQ | OP_SLEQ | OP_XOR3 | OP_CARRY
  | OP_BUMUL_NO_OVFL | OP_BSMUL_NO_OVFL | OP_BSMUL_NO_UDFL
  | OP_OTHER.

(** An application as [approximate_term] and the dispatchers look at it: its
    operator, the bit-width of its own sort and of the sort of each argument
    ([None] for a sort that is not a bit-vector sort). *)
Record app := App {
  get_decl_kind : decl_kind;
  app_bv_size : option nat;
  arg_bv_sizes : list (option nat)
}.

(** [m_util.is_bv_sort(s) && m_util.get_bv_size(arg) > m_bv_blast_max_size]. *)
Definition is_large (max_size : Z) (sort : option nat) : bool :=
  match sort with
  | Some w => bool_decide (max_size < Z.of_nat w)%Z
  | None => false
  end.

(** Modelled from the spec: [context::push_trail] and [context::push_scope]
    are not part of the excerpt; the context keeps an undo trail with scope
    marks of its own. *)
Definition push_trail (t : ctx_trail) (c : context) : context :=
  set_ctx_trail (t :: m_ctx_trail c) (m_ctx_scopes c) c.

Definition context_push_scope (c : context) : context :=
  set_ctx_trail (m_ctx_trail c) (m_ctx_scopes c ++ [length (m_ctx_trail c)]) c.

(** The loop of [approximate_term] over the arguments and then the term
    itself: does some sort exceed the limit? *)
Fixpoint approximate_term_loop (max_size : Z) (sorts : list (option nat)) : bool :=
  match sorts with
  | [] => false
  | sort :: sorts' => if is_large max_size sort then true else approximate_term_loop max_size sorts'
  end.

(** [theory_bv::approximate_term]. *)
Definition approximate_term (n : app) (s : theory_bv) : bool * theory_bv :=
  if bool_decide (m_bv_blast_max_size (m_params s) = INT_MAX) then (false, s)
  else if approximate_term_loop (m_bv_blast_max_size (m_params s))
            (arg_bv_sizes n ++ [app_bv_size n])
  then
    (true,
     if m_approximates_large_bvs s then s
     else upd_approximates true
            (upd_ctx (push_trail (value_trail_approximates (m_approximates_large_bvs s))) s))
  else (false, s).

Inductive final_check_status := FC_DONE | FC_CONTINUE | FC_GIVEUP.

(** [theory_bv::final_check_eh]. *)
Definition final_check_eh (s : theory_bv) : final_check_status :=
  if m_approximates_large_bvs s then FC_GIVEUP else FC_DONE.

(** Modelled from the spec: the undo of a [value_trail] puts the remembered
    value back, and [context::pop_scope] replays the context trail down to
    the mark of the scope, most recent entry first.  Only this part of
    [context::pop_scope] is modelled. *)
Definition undo_ctx_trail (t : ctx_trail) (s : theory_bv) : theory_bv :=
  match t with
  | value_trail_approximates old_value => upd_approximates old_value s
  | core_trail => s
  end.

Fixpoint undo_ctx_trail_stack (count : nat) (s : theory_bv) : theory_bv :=
  match count with
  | 0 => s
  | S count' =>
      match m_ctx_trail (ctx s) with
      | [] => s
      | t :: rest =>
          undo_ctx_trail_stack count'
            (upd_ctx (λ c, set_ctx_trail rest (m_ctx_scopes c) c) (undo_ctx_trail t s))
      end
  end.

Definition context_pop_scope (num_scopes : nat) (s : theory_bv) : theory_bv :=
  let new_lvl := length (m_ctx_scopes (ctx s)) - num_scopes in
  let old_size := m_ctx_scopes (ctx s) !!! new_lvl in
  let s1 := undo_ctx_trail_stack (length (m_ctx_trail (ctx s)) - old_size) s in
  upd_ctx (λ c, set_ctx_trail (m_ctx_trail c) (take new_lvl (m_ctx_scopes c)) c) s1.

Section internalize.

(** The per-operator internalization routines ([internalize_num],
    [internalize_add], ..., [mk_bit2bool], [internalize_le], ...) go
    through the bit-blaster; the dispatchers below only need them as state
    transformers. *)
Variable internalize_op : decl_kind → app → theory_bv → theory_bv.

(** [theory_bv::internalize_term]. *)
Definition internalize_term (term : app) (s : theory_bv) : bool * theory_bv :=
  let '(approximated, s1) := approximate_term term s in
  if approximated : bool then (false, s1)
  else
    match get_decl_kind term with
    | OP_BV_NUM | OP_BADD | OP_BMUL | OP_BSDIV_I | OP_BUDIV_I | OP_BSREM_I | OP_BUREM_I
    | OP_BSMOD_I | OP_BAND | OP_BOR | OP_BNOT | OP_BXOR | OP_BNAND | OP_BNOR | OP_BXNOR
    | OP_CONCAT | OP_SIGN_EXT | OP_ZERO_EXT | OP_EXTRACT | OP_BREDOR | OP_BREDAND
    | OP_BCOMP | OP_BSHL | OP_BLSHR | OP_BASHR | OP_ROTATE_LEFT | OP_ROTATE_RIGHT
    | OP_EXT_ROTATE_LEFT | OP_EXT_ROTATE_RIGHT | OP_MKBV =>
        (true, internalize_op (get_decl_kind term) term s1)
    | OP_BSDIV0 | OP_BUDIV0 | OP_BSREM0 | OP_BUREM0 | OP_BSMOD0 => (false, s1)
    | OP_INT2BV | OP_BV2INT =>
        if m_bv_enable_int2bv2int (m_params s1)
        then (true, internalize_op (get_decl_kind term) term s1)
        else (false, s1)
    | _ => (false, s1)
    end.

(** [theory_bv::internalize_atom]. *)
Definition internalize_atom (atom : app) (gate_ctx : bool) (s : theory_bv) : bool * theory_bv :=
  let '(approximated, s1) := approximate_term atom s in
  if approximated : bool then (false, s1)
  else
    match get_decl_kind atom with
    | OP_BIT2BOOL | OP_ULEQ | OP_SLEQ | OP_XOR3 | OP_CARRY
    | OP_BUMUL_NO_OVFL | OP_BSMUL_NO_OVFL | OP_BSMUL_NO_UDFL =>
        (true, internalize_op (get_decl_kind atom) atom s1)
    | _ => (false, s1)
    end.

End internalize.


(** ** Numerals, [extract] and [concat] *)

(** The three routines below start with [mk_enode] on a term that has no
    enode yet, which is how [internalize_term] is reached: the core makes the
    enode and [mk_var] attaches a new theory variable, whose index is the old
    number of variables.  The theory variables of the arguments exist already
    ([get_arg_var] finds them attached). *)

(** The loop of [internalize_num]; [bits] tells, for each index, whether
    [num2bits] produced the formula [true]. *)
Fixpoint internalize_num_loop (bits : list bool) (v : theory_var) (i : nat) (s : theory_bv)
    : theory_bv :=
  match bits with
  | [] => s
  | b :: bits' =>
      let l := if b : bool then true_literal else false_literal in
      let s1 := upd_bits (λ bs, <[v := (bs !!! v) ++ [l]]> bs) s in
      internalize_num_loop bits' v (S i) (register_true_false_bit v i s1)
  end.

(** Modelled from the spec: [bit_blaster::num2bits] is not part of the
    excerpt; for each of the [sz] indices it tells whether that bit of the
    numeral is set, index 0 being the least significant bit. *)
Definition num2bits (val : Z) (sz : nat) : list bool :=
  (λ i, Z.testbit val (Z.of_nat i)) <$> seq 0 sz.

(** [theory_bv::internalize_num], [val] and [sz] being the value and the
    width that [is_numeral] reads off the term. *)
Definition internalize_num (val : Z) (sz : nat) (n : enode) (s : theory_bv) : theory_bv :=
  let v := get_num_vars s in
  fixed_var_eh v (internalize_num_loop (num2bits val sz) v 0 (mk_var n s)).

(** [theory_bv::apply_sort_cnstr]: [attached] tells whether the enode has a
    theory variable already, [owner] is the term of the enode. *)
Definition apply_sort_cnstr (bs : nat → bool_var * bool) (n : enode) (owner : app)
    (attached : bool) (s : theory_bv) : theory_bv :=
  if attached then s
  else
    let '(approximated, s1) := approximate_term owner s in
    if approximated : bool then s1 else mk_bits bs (get_num_vars s1) (mk_var n s1).

(** A run of [add_bit] calls on one variable. *)
Fixpoint add_bits (v : theory_var) (ls : list literal) (s : theory_bv) : option theory_bv :=
  match ls with
  | [] => Some s
  | l :: ls' => s1 ← add_bit v l s; add_bits v ls' s1
  end.

(** The loop of [internalize_extract] over the indices [start..end]. *)
Fixpoint internalize_extract_loop (v arg : theory_var) (idxs : list nat) (s : theory_bv)
    : option theory_bv :=
  match idxs with
  | [] => Some s
  | i :: idxs' => s1 ← add_bit v (bit_at s arg i) s; internalize_extract_loop v arg idxs' s1
  end.

(** [theory_bv::internalize_extract], [start] and [end_] being the two
    parameters of the operator and [arg] the variable of the argument. *)
Definition internalize_extract (start end_ : nat) (n : enode) (arg : theory_var)
    (s : theory_bv) : option theory_bv :=
  let v := get_num_vars s in
  s1 ← internalize_extract_loop v arg (seq start (S end_ - start)) (mk_var n s);
  Some (find_wpos v s1).

(** The loops of [internalize_concat]: the arguments are visited from the
    last one to the first, and the bits of each in order. *)
Fixpoint internalize_concat_loop (v : theory_var) (args : list theory_var) (s : theory_bv)
    : option theory_bv :=
  match args with
  | [] => Some s
  | arg :: args' => s1 ← add_bits v (m_bits s !!! arg) s; internalize_concat_loop v args' s1
  end.

(** [theory_bv::internalize_concat], [args] being the variables of the
    arguments, first argument first. *)
Definition internalize_concat (n : enode) (args : list theory_var) (s : theory_bv)
    : option theory_bv :=
  let v := get_num_vars s in
  s1 ← internalize_concat_loop v (reverse args) (mk_var n s);
  Some (find_wpos v s1).

(** [theory_bv::mk_value]: the numeral and the width handed to the value
    factory. *)
Definition mk_value (s : theory_bv) (v : theory_var) : Z * nat :=
  ((get_fixed_value s v).2, get_bv_size s v).

(** * Specification-side definitions, invariants and example states *)

(** ** Fixed values *)

(** The numeral denoted by a bit array under the current assignment: the sum
    of [2^i] over the indices [i] whose literal is assigned true. *)
Definition assigned_true (c : context) (bits : list literal) (i : nat) : Prop :=
  get_assignment c (bits !!! i) = l_true.

Global Instance assigned_true_dec c bits i : Decision (assigned_true c bits i).
Proof. unfold assigned_true. apply _. Defined.

Definition sum_of_powers (idxs : list nat) : Z :=
  foldr (λ i acc, (2 ^ Z.of_nat i + acc)%Z) 0%Z idxs.

Definition numeral_of_bits (c : context) (bits : list literal) : Z :=
  sum_of_powers (filter (assigned_true c bits) (seq 0 (length bits))).

(** Contribution of the bits from index [i] on. *)
Fixpoint numeral_from (c : context) (i : nat) (bits : list literal) : Z :=
  match bits with
  | [] => 0%Z
  | l :: bits' =>
      ((if decide (get_assignment c l = l_true) then 2 ^ Z.of_nat i else 0)
       + numeral_from c (S i) bits')%Z
  end.

(** A two-bit variable whose bits are assigned true and false has the fixed
    value 1. *)
Definition empty_context : context :=
  Context ∅ None ∅ false [] [] [] [] [].

Definition empty_theory : theory_bv :=
  TheoryBv empty_context (Params INT_MAX false) [] [] (UnionFind [] [] []) [] [] [] ∅ [] [] ∅ []
    false.

Definition fixed_example : theory_bv :=
  upd_bits (λ _, [[Literal 1 false; Literal 2 false]])
    (upd_ctx (set_assignment (λ _, {[1 := true; 2 := false]})) empty_theory).


(** The test [fixed_var_eh] applies to the variable found in the fixed-value
    table: still a variable, of bit-vector sort, of width [sz], and fully
    assigned with value [val]. *)
Definition still_valid (s : theory_bv) (val : Z) (sz : nat) (v2 : theory_var) : Prop :=
  v2 < get_num_vars s ∧ is_bv s v2 = true ∧ get_bv_size s v2 = sz ∧
  get_fixed_value s v2 = (true, val).

Global Instance still_valid_dec s val sz v2 : Decision (still_valid s val sz v2).
Proof. unfold still_valid. apply _. Defined.

(** "Every bit literal of both variables is marked", read as generously as
    possible: the literal or its negation is among the antecedents. *)
Definition marks_every_bit (s : theory_bv) (js : justification) (v1 v2 : theory_var) : Prop :=
  ∀ l, l ∈ m_bits s !!! v1 ++ m_bits s !!! v2 →
       mark_literal l ∈ get_antecedents s js ∨ mark_literal (neg l) ∈ get_antecedents s js.

(** The literal that [mark_bits] marks for a bit. *)
Definition true_polarity (c : context) (l : literal) : literal :=
  if decide (get_assignment c l = l_true) then l else neg l.

(** Variable 0 is a one-bit term whose bit is the boolean variable 1, assigned
    true and recorded in the fixed-value table; variable 1 is the one-bit
    numeral 1, whose bit is the constant [true_literal]. *)
Definition numeral_example : theory_bv :=
  TheoryBv
    (Context {[0 := true; 1 := true]} None {[1 := bv_family_id]} false [] [] [] [] [])
    (Params INT_MAX false)
    [Enode (Some 1) 0; Enode (Some 1) 1] []
    (UnionFind [0; 1] [1; 1] [0; 1])
    [[Literal 1 false]; [true_literal]] [0; 0] [[]; [ZeroOneBit 1 0 true]]
    {[1 := bit_atom [(0, 0)]]} [] [] {[(1%Z, 1) := 0]} [] false.

(** ** Static and dynamic disequalities *)

(** The test of the scan in [find_new_diseq_axioms] for an occurrence, [l]
    being the negation of the new bit. *)
Definition static_diseq (s : theory_bv) (v : theory_var) (idx : nat) (l : literal)
    (occ : var_pos) : Prop :=
  idx = occ.2 ∧ bit_at s occ.1 occ.2 = l ∧ get_bv_size s occ.1 = get_bv_size s v.

Global Instance static_diseq_dec s v idx l occ : Decision (static_diseq s v idx l occ).
Proof. unfold static_diseq. apply _. Defined.

(** The unit clauses emitted by the scan, most recent first. *)
Definition static_diseq_axioms (s : theory_bv) (v : theory_var) (idx : nat) (l : literal)
    (occs : list var_pos) : list (list clause_lit) :=
  reverse ((λ occ : var_pos, [lit_eq true v occ.1]) <$> filter (static_diseq s v idx l) occs).

(** Variable 0 is a two-bit term with bits [p; q] (boolean variables 1 and
    2); variable 1 is a fresh one-bit term, as for [extract[0:0](bvnot x)],
    about to receive the bit [~p]. *)
Definition extract_example : theory_bv :=
  TheoryBv
    (Context ∅ None {[1 := bv_family_id; 2 := bv_family_id]} false [] [] [] [] [])
    (Params INT_MAX false)
    [Enode (Some 2) 0; Enode (Some 1) 1] []
    (UnionFind [0; 1] [1; 1] [0; 1])
    [[Literal 1 false; Literal 2 false]; []] [0; 0] [[]; []]
    {[1 := bit_atom [(0, 0)]; 2 := bit_atom [(0, 1)]]} [] [] ∅ [] false.

(** The same with a one-bit variable 0, so that the widths agree. *)
Definition bvnot_example : theory_bv :=
  TheoryBv
    (Context ∅ None {[1 := bv_family_id]} false [] [] [] [] [])
    (Params INT_MAX false)
    [Enode (Some 1) 0; Enode (Some 1) 1] []
    (UnionFind [0; 1] [1; 1] [0; 1])
    [[Literal 1 false]; []] [0; 0] [[]; []]
    {[1 := bit_atom [(0, 0)]]} [] [] ∅ [] false.

(** Two two-bit variables over four distinct boolean variables. *)
Definition diseq_example : theory_bv :=
  TheoryBv
    (Context ∅ None ∅ false [] [] [] [] [])
    (Params INT_MAX false)
    [Enode (Some 2) 0; Enode (Some 2) 1] []
    (UnionFind [0; 1] [1; 1] [0; 1])
    [[Literal 1 false; Literal 2 false]; [Literal 3 false; Literal 4 false]] [0; 0] [[]; []]
    ∅ [] [] ∅ [] false.

(** ** Approximation *)

(** Some argument, or the term itself, has a bit-vector sort wider than the
    limit. *)
Definition large_sort (max_size : Z) (sort : option nat) : Prop :=
  match sort with
  | Some w => (max_size < Z.of_nat w)%Z
  | None => False
  end.

Global Instance large_sort_dec max_size sort : Decision (large_sort max_size sort).
Proof. destruct sort; simpl; apply _. Defined.

Definition has_large_sort (max_size : Z) (n : app) : Prop :=
  Exists (large_sort max_size) (arg_bv_sizes n ++ [app_bv_size n]).

(** The state [approximate_term] leaves behind when it answers true. *)
Definition mark_approximated (s : theory_bv) : theory_bv :=
  if m_approximates_large_bvs s then s
  else upd_approximates true (upd_ctx (push_trail (value_trail_approximates false)) s).

(** What is done while the core internalizes, as far as the approximation
    flag and the context trail are concerned.  A term or an atom of the
    theory is handed to the plugin; its operator routine then internalizes
    the arguments of the term ([process_args]) and the formulas of the
    bit-blaster ([init_bits]) through the core, which hands terms and atoms
    of the theory back to the plugin and applies the sort constraint to the
    others: this is the list [routine].  The core pushes undo records of its
    own.  Everything else the routines do ([mk_enode], [add_bit],
    [find_wpos], the axioms) works on the other fields of the state:
    [approximate_term] is the only place of the file that writes the flag or
    pushes on the context trail. *)
Inductive activity :=
  | internalizes_term (term : app) (routine : list activity)
  | internalizes_atom (atom : app) (gate_ctx : bool) (routine : list activity)
  | applies_sort_cnstr (bs : nat → bool_var * bool) (n : enode) (owner : app) (attached : bool)
  | core_pushes_trail
  | other_work (rest : theory_bv).

(** The state [rest] with the flag, the parameters and the trail of the
    context taken from [s]. *)
Definition other_fields (rest s : theory_bv) : theory_bv :=
  TheoryBv (set_ctx_trail (m_ctx_trail (ctx s)) (m_ctx_scopes (ctx s)) (ctx rest)) (m_params s)
    (m_var2enode rest) (m_var2enode_lim rest) (m_find rest) (m_bits rest) (m_wpos rest)
    (m_zero_one_bits rest) (m_bool_var2atom rest) (m_trail_stack rest) (m_scopes rest)
    (m_fixed_var_table rest) (m_prop_queue rest) (m_approximates_large_bvs s).

Fixpoint run_activity (a : activity) (s : theory_bv) : theory_bv :=
  let run_all :=
    fix run_all (routine : list activity) (s1 : theory_bv) : theory_bv :=
      match routine with
      | [] => s1
      | a' :: routine' => run_all routine' (run_activity a' s1)
      end in
  match a with
  | internalizes_term term routine =>
      (internalize_term (λ _ _ s1, run_all routine s1) term s).2
  | internalizes_atom atom gate_ctx routine =>
      (internalize_atom (λ _ _ s1, run_all routine s1) atom gate_ctx s).2
  | applies_sort_cnstr bs n owner attached => apply_sort_cnstr bs n owner attached s
  | core_pushes_trail => upd_ctx (push_trail core_trail) s
  | other_work rest => other_fields rest s
  end.

Fixpoint run_routine (routine : list activity) (s : theory_bv) : theory_bv :=
  match routine with
  | [] => s
  | a :: routine' => run_routine routine' (run_activity a s)
  end.

(** What the core does with its scopes between two points of a run. *)
Inductive ctx_event :=
  | ev_activity (a : activity)
  | ev_push_scope
  | ev_pop_scope (num_scopes : nat).

Definition run_event (e : ctx_event) (s : theory_bv) : theory_bv :=
  match e with
  | ev_activity a => run_activity a s
  | ev_push_scope => upd_ctx context_push_scope s
  | ev_pop_scope num_scopes => context_pop_scope num_scopes s
  end.

Definition run_events (evs : list ctx_event) (s : theory_bv) : theory_bv :=
  foldl (λ s1 e, run_event e s1) s evs.

(** The number of scopes open after the events, [d] being the number open
    before them; there is none when the events pop more scopes than are
    open. *)
Fixpoint depth_after (evs : list ctx_event) (d : nat) : option nat :=
  match evs with
  | [] => Some d
  | ev_activity _ :: evs' => depth_after evs' d
  | ev_push_scope :: evs' => depth_after evs' (S d)
  | ev_pop_scope n :: evs' =>
      if decide (0 < n ∧ n ≤ d) then depth_after evs' (d - n) else None
  end.

(** The value the flag takes when the entries of a trail are undone, most
    recent first. *)
Fixpoint flag_after_undo (t : list ctx_trail) (flag : bool) : bool :=
  match t with
  | [] => flag
  | value_trail_approximates old_value :: t' => flag_after_undo t' old_value
  | core_trail :: t' => flag_after_undo t' flag
  end.

(** A plugin with a limit of 64 bits, and an addition of two 128-bit terms. *)
Definition limited_theory : theory_bv :=
  TheoryBv empty_context (Params 64 false) [] [] (UnionFind [] [] []) [] [] [] ∅ [] [] ∅ []
    false.

Definition wide_add : app := App OP_BADD (Some 128) [Some 128; Some 128].

Definition no_op : decl_kind → app → theory_bv → theory_bv := λ _ _ s, s.

(** The effect on the context of emitting the static disequalities [axs]
    (most recent first) for the pairs [ehs]. *)
Definition emit_axioms (axs : list (list clause_lit)) (ehs : list (theory_var * theory_var))
    (c : context) : context :=
  set_relevancy_ehs (λ l, if m_relevancy c then ehs ++ l else l) (set_th_axioms (λ l, axs ++ l) c).

Definition static_diseq_pairs (s : theory_bv) (v : theory_var) (idx : nat) (l : literal)
    (occs : list var_pos) : list (theory_var * theory_var) :=
  reverse ((λ occ : var_pos, (v, occ.1)) <$> filter (static_diseq s v idx l) occs).

(** The scope marks [marks] lie between [lo] and [hi] in increasing order. *)
Fixpoint marks_ok (lo hi : nat) (marks : list nat) : Prop :=
  match marks with
  | [] => lo ≤ hi
  | m :: marks' => lo ≤ m ∧ marks_ok m hi marks'
  end.

(** What the events keep true, [s0] being the state before them and [d] the
    number of scopes opened since: the records pushed since are on top of
    the trail of [s0], undoing them gives the flag of [s0], and no
    value-restoring record remembers the value true. *)
Definition scope_invariant (s0 : theory_bv) (d : nat) (s : theory_bv) : Prop :=
  ∃ above marks,
    m_ctx_trail (ctx s) = above ++ m_ctx_trail (ctx s0) ∧
    flag_after_undo above (m_approximates_large_bvs s) = m_approximates_large_bvs s0 ∧
    Forall (λ t, t ≠ value_trail_approximates true) above ∧
    m_ctx_scopes (ctx s) = m_ctx_scopes (ctx s0) ++ marks ∧
    length marks = d ∧
    marks_ok (length (m_ctx_trail (ctx s0))) (length (m_ctx_trail (ctx s))) marks ∧
    m_params s = m_params s0.

(** The fields [approximate_term] reads and writes. *)
Definition approximation_part (s : theory_bv) : bool * theory_bv_params * list ctx_trail * list nat :=
  (m_approximates_large_bvs s, m_params s, m_ctx_trail (ctx s), m_ctx_scopes (ctx s)).

(** [internalize_term] and [internalize_atom] pass the term on to its
    operator routine. *)
Definition dispatched_term (enable_int2bv2int : bool) (term : app) : bool :=
  match get_decl_kind term with
  | OP_BV_NUM | OP_BADD | OP_BMUL | OP_BSDIV_I | OP_BUDIV_I | OP_BSREM_I | OP_BUREM_I
  | OP_BSMOD_I | OP_BAND | OP_BOR | OP_BNOT | OP_BXOR | OP_BNAND | OP_BNOR | OP_BXNOR
  | OP_CONCAT | OP_SIGN_EXT | OP_ZERO_EXT | OP_EXTRACT | OP_BREDOR | OP_BREDAND
  | OP_BCOMP | OP_BSHL | OP_BLSHR | OP_BASHR | OP_ROTATE_LEFT | OP_ROTATE_RIGHT
  | OP_EXT_ROTATE_LEFT | OP_EXT_ROTATE_RIGHT | OP_MKBV => true
  | OP_INT2BV | OP_BV2INT => enable_int2bv2int
  | _ => false
  end.

Definition dispatched_atom (atom : app) : bool :=
  match get_decl_kind atom with
  | OP_BIT2BOOL | OP_ULEQ | OP_SLEQ | OP_XOR3 | OP_CARRY
  | OP_BUMUL_NO_OVFL | OP_BSMUL_NO_OVFL | OP_BSMUL_NO_UDFL => true
  | _ => false
  end.

(** An oversized term or atom is handed to the plugin in the course of the
    activity: directly, or from inside the routine of a term that is itself
    accepted. *)
Fixpoint attempts_oversized (max_size : Z) (enable_int2bv2int : bool) (a : activity) : Prop :=
  let some :=
    fix some (routine : list activity) : Prop :=
      match routine with
      | [] => False
      | a' :: routine' => attempts_oversized max_size enable_int2bv2int a' ∨ some routine'
      end in
  match a with
  | internalizes_term term routine =>
      has_large_sort max_size term ∨
      (dispatched_term enable_int2bv2int term = true ∧ some routine)
  | internalizes_atom atom _ routine =>
      has_large_sort max_size atom ∨ (dispatched_atom atom = true ∧ some routine)
  | applies_sort_cnstr _ _ owner attached => attached = false ∧ has_large_sort max_size owner
  | _ => False
  end.

(** The 128-bit term [wide_add] is internalized from inside the routine of
    a comparison of 1-bit terms, between two undo records of the core. *)
Definition narrow_le : app := App OP_ULEQ None [Some 1; Some 1].

Definition nested_attempt : activity :=
  internalizes_atom narrow_le false
    [core_pushes_trail; internalizes_term wide_add []; core_pushes_trail].

(** ** The part of the state that propagation leaves alone *)

Definition ctx_static (c : context)
    : gmap bool_var theory_id * bool * list ctx_trail * list nat :=
  (m_var_theory c, m_relevancy c, m_ctx_trail c, m_ctx_scopes c).

(** Everything except the assignment, the conflict, the logs of the context,
    the watch positions, the zero-one summaries, the fixed-value table and the
    propagation queue. *)
Definition static_part (s : theory_bv) :=
  (m_params s, m_var2enode s, m_var2enode_lim s, m_find s, m_bits s, m_bool_var2atom s,
   m_trail_stack s, m_scopes s, m_approximates_large_bvs s, ctx_static (ctx s)).

(** ** Scopes *)

(** The operations performed inside a scope: a variable is created, a bit is
    added, two variables are merged. *)
Inductive scope_op :=
  | op_mk_var (n : enode)
  | op_add_bit (v : theory_var) (l : literal)
  | op_new_eq (v1 v2 : theory_var).

Definition run_op (o : merge_order) (fuel : nat) (op : scope_op) (s : theory_bv)
    : option theory_bv :=
  match op with
  | op_mk_var n => Some (mk_var n s)
  | op_add_bit v l => add_bit v l s
  | op_new_eq v1 v2 => new_eq_eh o fuel v1 v2 s
  end.

Fixpoint run_ops (o : merge_order) (fuel : nat) (ops : list scope_op) (s : theory_bv)
    : option theory_bv :=
  match ops with
  | [] => Some s
  | op :: ops' => s1 ← run_op o fuel op s; run_ops o fuel ops' s1
  end.

(** [add_bit] is applied to a variable created after the scope was opened,
    [num_old] being the number of variables at that time. *)
Definition targets_new_var (num_old : nat) (op : scope_op) : Prop :=
  match op with
  | op_add_bit v _ => num_old ≤ v
  | _ => True
  end.

Global Instance targets_new_var_dec num_old op : Decision (targets_new_var num_old op).
Proof. destruct op; simpl; apply _. Defined.

(** A boolean variable that has an atom belongs to the plugin. *)
Definition atoms_owned (s : theory_bv) : Prop :=
  ∀ bv, is_Some (m_bool_var2atom s !! bv) → m_var_theory (ctx s) !! bv = Some bv_family_id.

(** The three vectors of the union-find have the same length. *)
Definition uf_lengths (uf : union_find) : Prop :=
  length (uf_size uf) = length (uf_find uf) ∧ length (uf_next uf) = length (uf_find uf).

(** [r] is the root of [v] in the forest of parent pointers [p]. *)
Inductive root_of (p : list nat) : nat → nat → Prop :=
  | root_of_self v : p !! v = Some v → root_of p v v
  | root_of_step v w r : p !! v = Some w → w ≠ v → root_of p w r → root_of p v r.

(** Every variable of the forest has a root. *)
Definition forest_ok (p : list nat) : Prop :=
  ∀ v, v < length p → ∃ r, root_of p v r.

(** The atom table and the union-find, on which the undo records act. *)
Definition shape : Type := gmap bool_var atom * union_find.

Definition shape_of (s : theory_bv) : shape := (m_bool_var2atom s, m_find s).

Definition with_shape (sh : shape) (s : theory_bv) : theory_bv :=
  upd_bool_var2atom (λ _, sh.1) (upd_find (λ _, sh.2) s).

Definition undo_shape (t : trail) (sh : shape) : option shape :=
  match t with
  | mk_atom_trail bv => Some (delete bv sh.1, sh.2)
  | add_var_pos_trail bv =>
      match sh.1 !! bv with
      | Some (bit_atom (_ :: occs)) => Some (<[bv := bit_atom occs]> sh.1, sh.2)
      | _ => None
      end
  | mk_var_trail => Some (sh.1, uf_pop_back sh.2)
  | merge_trail r1 => Some (sh.1, uf_unsplice r1 sh.2)
  end.

Fixpoint unwind (above : list trail) (sh : shape) : option shape :=
  match above with
  | [] => Some sh
  | t :: above' => sh' ← undo_shape t sh; unwind above' sh'
  end.

(** Undoing the records [above] one after the other goes through forests in
    which every variable has a root. *)
Fixpoint unwind_forests (above : list trail) (sh : shape) : Prop :=
  forest_ok (uf_find sh.2) ∧
  match above with
  | [] => True
  | t :: above' =>
      match undo_shape t sh with
      | Some sh' => unwind_forests above' sh'
      | None => False
      end
  end.

(** [s1] is a state inside the scope that was opened in state [s]. *)
Definition in_scope_of (s s1 : theory_bv) : Prop :=
  m_scopes s1 = m_scopes s ++ [length (m_trail_stack s)] ∧
  m_var2enode_lim s1 = m_var2enode_lim s ++ [length (m_var2enode s)] ∧
  (∃ above, m_trail_stack s1 = above ++ m_trail_stack s ∧
            unwind above (shape_of s1) = Some (shape_of s) ∧
            unwind_forests above (shape_of s1)) ∧
  take (length (m_bits s)) (m_bits s1) = m_bits s ∧
  take (length (m_var2enode s)) (m_var2enode s1) = m_var2enode s ∧
  atoms_owned s1 ∧ uf_lengths (m_find s1).

(** One variable without bits, before a scope is opened. *)
Definition one_var_example : theory_bv :=
  mk_var (Enode (Some 1) 0) (upd_ctx (set_assignment (λ _, {[0 := true]})) empty_theory).

(** Inside the scope: two new one-bit variables are created, filled and
    merged. *)
Definition scope_ops_example : list scope_op :=
  [op_mk_var (Enode (Some 1) 1); op_add_bit 1 (Literal 1 false);
   op_mk_var (Enode (Some 1) 2); op_add_bit 2 (Literal 2 false);
   op_new_eq 1 2].

(** ** Propagation on merge *)

(** The assignment and the conflict of the context. *)
Definition dyn (c : context) : gmap bool_var bool * option justification :=
  (m_assignment c, m_conflict c).

(** From [s] to [s'] literals were only added to the assignment, and a
    conflict, once set, stays. *)
Definition grows (s s' : theory_bv) : Prop :=
  m_assignment (ctx s) ⊆ m_assignment (ctx s') ∧
  (inconsistent (ctx s) = true → inconsistent (ctx s') = true).

(** Bit [i] of both variables is assigned [b]; bit [i] of one of them is. *)
Definition both_assigned (s : theory_bv) (v1 v2 : theory_var) (i : nat) (b : lbool) : Prop :=
  get_assignment (ctx s) (bit_at s v1 i) = b ∧ get_assignment (ctx s) (bit_at s v2 i) = b.

Definition one_assigned (s : theory_bv) (v1 v2 : theory_var) (i : nat) (b : lbool) : Prop :=
  get_assignment (ctx s) (bit_at s v1 i) = b ∨ get_assignment (ctx s) (bit_at s v2 i) = b.

(** A conflict was reported while merging the classes of [r1] and [r2]: the
    zero-one summaries are complementary and the disequality axiom was
    emitted, or the core is inconsistent in the final state. *)
Definition conflict_reported (r1 r2 : theory_var) (s s' : theory_bv) : Prop :=
  (merge_zero_one_bits r1 r2 s).1 = false ∨ inconsistent (ctx s') = true.

(** ** Termination of propagation *)

(** The occurrences that may still enter the propagation queue: those of the
    bit atoms whose boolean variable is unassigned. *)
Definition occ_weight (asg : gmap bool_var bool) (p : bool_var * atom) : nat :=
  match asg !! p.1, p.2 with
  | None, bit_atom occs => length occs
  | _, _ => 0
  end.

Definition pending (s : theory_bv) : nat :=
  sum_list_with (occ_weight (m_assignment (ctx s))) (map_to_list (m_bool_var2atom s)).

(** Every entry of the propagation queue is an occurrence of a bit atom whose
    boolean variable is assigned. *)
Definition queue_assigned (s : theory_bv) : Prop :=
  ∀ w j, (w, j) ∈ m_prop_queue s →
    ∃ bv occs, m_bool_var2atom s !! bv = Some (bit_atom occs) ∧ (w, j) ∈ occs ∧
               m_assignment (ctx s) !! bv ≠ None.

(** The constant boolean variable is assigned true. *)
Definition true_assigned (s : theory_bv) : Prop :=
  m_assignment (ctx s) !! true_bool_var = Some true.

(** The tables are consistent: every bit that is not a constant has a bit
    atom; every occurrence recorded in a bit atom is a bit over the atom's
    boolean variable and belongs to a class ring that closes within [K]
    steps; and [find] reaches a root within [F] steps. *)
Definition propagation_ready (K F : nat) (s : theory_bv) : Prop :=
  (∀ w j, lit_var (bit_at s w j) ≠ true_bool_var →
          ∃ occs, m_bool_var2atom s !! lit_var (bit_at s w j) = Some (bit_atom occs)) ∧
  (∀ bv occs w j, m_bool_var2atom s !! bv = Some (bit_atom occs) → (w, j) ∈ occs →
                  lit_var (bit_at s w j) = bv ∧
                  ∃ k, k < K ∧ Nat.iter (S k) (next s) w = w) ∧
  (∀ v, is_Some (find F s v)).

(** Bit [i] of [v] is unassigned. *)
Definition unassigned_at (s : theory_bv) (v : theory_var) (i : nat) : Prop :=
  get_assignment (ctx s) (bit_at s v i) = l_undef.

Global Instance unassigned_at_dec s v i : Decision (unassigned_at s v i).
Proof. unfold unassigned_at. apply _. Defined.

(** The number of unassigned bits among the first [sz] bits of [v1] and of
    [v2]. *)
Definition undef_count (s : theory_bv) (v1 v2 : theory_var) (sz : nat) : nat :=
  length (filter (unassigned_at s v1) (seq 0 sz)) +
  length (filter (unassigned_at s v2) (seq 0 sz)).

(** The bits of any two variables of one class have the same assignment. *)
Definition class_bits_agree (fuel : nat) (s : theory_bv) : Prop :=
  ∀ v1 v2 r i,
    v1 < get_num_vars s → v2 < get_num_vars s →
    find fuel s v1 = Some r → find fuel s v2 = Some r →
    i < length (m_bits s !!! v1) →
    get_assignment (ctx s) (bit_at s v1 i) = get_assignment (ctx s) (bit_at s v2 i).

Definition two_bits : enode := Enode (Some 2) 0.

(** Three variables [x = [p1; p2]], [y = [p3; p4]] and [a = [p1; p3]]; [x] and
    [a] are merged while nothing is assigned, then [p1] is assigned true and
    [assign_eh] is run for it. *)
Definition chain_example : theory_bv :=
  default empty_theory
    (s ← add_bit 0 (Literal 1 false)
           (mk_var two_bits (upd_ctx (set_assignment (λ _, {[0 := true]})) empty_theory));
     s ← add_bit 0 (Literal 2 false) s;
     s ← add_bit 1 (Literal 3 false) (mk_var two_bits s);
     s ← add_bit 1 (Literal 4 false) s;
     s ← add_bit 2 (Literal 1 false) (mk_var two_bits s);
     s ← add_bit 2 (Literal 3 false) s;
     s ← new_eq_eh merge_eh_then_link 10 0 2 s;
     assign_eh 10 1 true (upd_ctx (set_assignment (<[1 := true]>)) s)).

(** ** The width invariant *)

Definition same_width (p : list nat) (bits : list (list literal)) : Prop :=
  ∀ v1 v2 r, root_of p v1 r → root_of p v2 r → length (bits !!! v1) = length (bits !!! v2).

(** [v] has not been merged: it is a root and no other variable points to
    it. *)
Definition unmerged (s : theory_bv) (v : theory_var) : Prop :=
  uf_find (m_find s) !! v = Some v ∧ ∀ w, uf_find (m_find s) !! w = Some v → w = v.

(** The records of the undo trail fit the forest: undoing them one after the
    other goes through well-formed forests, the record of a merge finds the
    child [r1] below a root, and the record of a new variable finds that
    variable last and alone. *)
Fixpoint trail_ok (tr : list trail) (p : list nat) : Prop :=
  forest_ok p ∧
  match tr with
  | [] => p = []
  | mk_var_trail :: tr' => (∃ p', p = p' ++ [length p']) ∧ trail_ok tr' (removelast p)
  | merge_trail r1 :: tr' =>
      (∃ r2, p !! r1 = Some r2 ∧ r2 ≠ r1 ∧ p !! r2 = Some r2) ∧ trail_ok tr' (<[r1 := r1]> p)
  | _ :: tr' => trail_ok tr' p
  end.

(** The records of the atom table, which leave the forest alone. *)
Definition atom_record (t : trail) : Prop :=
  match t with
  | mk_atom_trail _ | add_var_pos_trail _ => True
  | _ => False
  end.

(** The number of variables created by the records of a trail. *)
Fixpoint count_vars (tr : list trail) : nat :=
  match tr with
  | [] => 0
  | mk_var_trail :: tr' => S (count_vars tr')
  | _ :: tr' => count_vars tr'
  end.

(** The scope marks are sorted and lie within the trail, and the number of
    variables recorded with a mark is the number of variables created below
    it. *)
Definition scopes_ok (tr : list trail) (scs lims : list nat) : Prop :=
  length scs = length lims ∧
  (∀ k m n, scs !! k = Some m → lims !! k = Some n →
            m ≤ length tr ∧ count_vars (drop (length tr - m) tr) = n) ∧
  (∀ k k' m m', k ≤ k' → scs !! k = Some m → scs !! k' = Some m' → m ≤ m').

(** What holds of the tables at every point of a run. *)
Definition width_state (s : theory_bv) : Prop :=
  length (uf_find (m_find s)) = get_num_vars s ∧
  length (m_bits s) = get_num_vars s ∧
  trail_ok (m_trail_stack s) (uf_find (m_find s)) ∧
  same_width (uf_find (m_find s)) (m_bits s) ∧
  scopes_ok (m_trail_stack s) (m_scopes s) (m_var2enode_lim s).

(** The runs of the plugin.  The first component lists the variables that
    are being internalized: [mk_enode] has made the variable and its routine
    is adding its bits, possibly while other terms are internalized.
    - [get_var], [apply_sort_cnstr] and [internalize_num] make a variable and
      all its bits at once; the width [sz] of a numeral is the width of its
      sort.
    - [add_bit] is called by the routine of a variable that is being
      internalized; the routine is done when it has added as many bits as
      the sort of the term is wide, which is what [init_bits] asserts of the
      formulas it receives from the bit-blaster.
    - The core asks for a merge of two terms of one sort, neither of which
      is being internalized, in either order of [union_find::merge].
    - The core pops scopes between internalizations, and may change its own
      state at any time. *)
Inductive run : list theory_var → theory_bv → Prop :=
  | run_init : run [] empty_theory
  | run_mk_enode P s n : run P s → run (get_num_vars s :: P) (mk_var n s)
  | run_get_var P s bs n : run P s → run P (get_var bs n None s).2
  | run_apply_sort_cnstr P s bs n owner attached :
      run P s → run P (apply_sort_cnstr bs n owner attached s)
  | run_mk_bit2bool P s bv v idx : run P s → run P (mk_bit2bool bv v idx s)
  | run_internalize_num P s val sz n :
      run P s → e_bv_size n = Some sz → run P (internalize_num val sz n s)
  | run_add_bit P s v l s' : run P s → v ∈ P → add_bit v l s = Some s' → run P s'
  | run_find_wpos P s v : run P s → run P (find_wpos v s)
  | run_done P s v :
      run P s → v ∈ P → length (m_bits s !!! v) = get_bv_size s v →
      run (filter (λ w, w ≠ v) P) s
  | run_new_eq P s o fuel v1 v2 s' :
      run P s → v1 < get_num_vars s → v2 < get_num_vars s → v1 ∉ P → v2 ∉ P →
      get_bv_size s v1 = get_bv_size s v2 →
      new_eq_eh o fuel v1 v2 s = Some s' → run P s'
  | run_assign P s fuel bv is_true s' : run P s → assign_eh fuel bv is_true s = Some s' → run P s'
  | run_new_diseq P s v1 v2 : run P s → run P (new_diseq_eh v1 v2 s)
  | run_push P s : run P s → run P (push_scope_eh s)
  | run_pop s fuel n s' :
      run [] s → 0 < n → n ≤ length (m_scopes s) → pop_scope_eh fuel n s = Some s' → run [] s'
  | run_core P s f : run P s → run P (upd_ctx f s).

(** The bit array of every variable that is not being internalized is as long
    as its sort is wide; a variable that is being internalized is not merged. *)
Definition sized (P : list theory_var) (s : theory_bv) : Prop :=
  (∀ v, v < get_num_vars s → v ∉ P → length (m_bits s !!! v) = get_bv_size s v) ∧
  (∀ v, v ∈ P → v < get_num_vars s ∧ unmerged s v).

(** Two variables with the same root have bit arrays of the same length. *)
Definition width_invariant (s : theory_bv) : Prop :=
  ∀ fuel v1 v2 r,
    v1 < get_num_vars s → v2 < get_num_vars s →
    find fuel s v1 = Some r → find fuel s v2 = Some r →
    length (m_bits s !!! v1) = length (m_bits s !!! v2).

(** Every variable has a root. *)
Definition classes_defined (s : theory_bv) : Prop :=
  ∀ v, v < get_num_vars s → ∃ fuel r, find fuel s v = Some r.

(** A run: a two-bit variable gets its bits from [mk_bits], a second one from
    [add_bit]; a scope is opened, and the two are merged. *)
Definition width_run_1 : theory_bv :=
  (get_var (λ i, (S i, true)) two_bits None empty_theory).2.

Definition width_run_2 : theory_bv :=
  default empty_theory
    (s ← add_bit 1 (Literal 3 false) (mk_var two_bits width_run_1);
     add_bit 1 (Literal 4 false) s).

Definition width_run_3 (o : merge_order) : theory_bv :=
  default empty_theory (new_eq_eh o 10 0 1 (push_scope_eh width_run_2)).

(** ** Agreement along the rings *)

(** [w] is on the ring of [v]. *)
Definition ring (s : theory_bv) (v w : theory_var) : Prop :=
  ∃ k, w = Nat.iter k (next s) v.

(** The assignment of bit [idx] of [v]. *)
Definition bit_value (s : theory_bv) (v : theory_var) (idx : nat) : lbool :=
  get_assignment (ctx s) (bit_at s v idx).

(** Bit [idx] has one assignment all along the ring of [v]. *)
Definition agree_at (s : theory_bv) (v : theory_var) (idx : nat) : Prop :=
  ∀ w, ring s v w →
    get_assignment (ctx s) (bit_at s w idx) = get_assignment (ctx s) (bit_at s v idx).

Definition rings_agree (s : theory_bv) : Prop :=
  ∀ v idx, v < get_num_vars s → agree_at s v idx.

(** The tables are consistent, the occurrence lists are complete, the
    constant has no atom, and the ring of a variable is a cycle of at most
    [K] variables, which are the variables of its class. *)
Definition tables_ok (K F : nat) (s : theory_bv) : Prop :=
  propagation_ready K F s ∧
  m_bool_var2atom s !! true_bool_var = None ∧
  (∀ w j, lit_var (bit_at s w j) ≠ true_bool_var →
     ∃ occs, m_bool_var2atom s !! lit_var (bit_at s w j) = Some (bit_atom occs) ∧
             (w, j) ∈ occs) ∧
  (∀ bv occs w j, m_bool_var2atom s !! bv = Some (bit_atom occs) → (w, j) ∈ occs →
     w < get_num_vars s) ∧
  (∀ u, u < get_num_vars s →
     next s u < get_num_vars s ∧ ∃ k, k < K ∧ Nat.iter (S k) (next s) u = u) ∧
  (∀ u w r, u < get_num_vars s → w < get_num_vars s →
     find F s u = Some r → find F s w = Some r → ring s u w) ∧
  (∀ u w r, u < get_num_vars s → ring s u w → find F s u = Some r → find F s w = Some r) ∧
  length (uf_find (m_find s)) = get_num_vars s ∧
  length (uf_next (m_find s)) = get_num_vars s.

(** [w] is reached from [x] by following [f]; the variables of the cycles of
    [ra] and [rb]. *)
Definition orbit (f : nat → nat) (x w : nat) : Prop := ∃ k, w = Nat.iter k f x.

Definition joint (f : nat → nat) (ra rb u : nat) : Prop := orbit f ra u ∨ orbit f rb u.

(** ** Notifications that are still to come *)

(** The core assigns literals in batches and calls [assign_eh] for one
    boolean variable at a time; [N] is the set of boolean variables whose
    assignment the plugin has not been told yet.  Some variable on the ring
    of [u] has, at index [idx], a bit over such a boolean variable. *)
Definition excused (N : gset bool_var) (s : theory_bv) (u : theory_var) (idx : nat) : Prop :=
  ∃ w, ring s u w ∧ lit_var (bit_at s w idx) ∈ N.

(** Every bit has one assignment along each ring, up to the notifications
    that are still to come. *)
Definition settled (N : gset bool_var) (s : theory_bv) : Prop :=
  ∀ u idx, u < get_num_vars s → agree_at s u idx ∨ excused N s u idx.

(** The same for any two variables of one class. *)
Definition classes_settled (F : nat) (N : gset bool_var) (s : theory_bv) : Prop :=
  ∀ v1 v2 r i,
    v1 < get_num_vars s → v2 < get_num_vars s →
    find F s v1 = Some r → find F s v2 = Some r →
    bit_value s v1 i = bit_value s v2 i ∨ excused N s v1 i.

(** Some entry of the queue at position [i] or later is for bit [idx] of a
    variable on the ring of [u]. *)
Definition pending_ring (s : theory_bv) (i : nat) (u : theory_var) (idx : nat) : Prop :=
  ∃ j w, i ≤ j ∧ m_prop_queue s !! j = Some (w, idx) ∧ ring s u w.

(** What the loop of [propagate_bits] keeps true before entry [i], and what
    the walk along the ring of entry [i], which is [(v, idx0)], keeps true. *)
Definition loop_inv (N : gset bool_var) (i : nat) (s : theory_bv) : Prop :=
  ∀ u idx, u < get_num_vars s →
    agree_at s u idx ∨ pending_ring s i u idx ∨ excused N s u idx.

Definition walk_inv (N : gset bool_var) (i : nat) (v : theory_var) (idx0 : nat)
    (s : theory_bv) : Prop :=
  ∀ u idx, u < get_num_vars s →
    agree_at s u idx ∨ pending_ring s (S i) u idx ∨ (idx = idx0 ∧ ring s v u) ∨
    excused N s u idx.

(** Along the ring of [u], which is the ring of [v1] and of [v2], bit [idx]
    of every variable has the assignment of bit [idx] of [v1] or of [v2]. *)
Definition two_valued (s : theory_bv) (v1 v2 u : theory_var) (idx : nat) : Prop :=
  ring s u v1 ∧ ring s u v2 ∧
  ∀ w, ring s u w → bit_value s w idx = bit_value s v1 idx ∨ bit_value s w idx = bit_value s v2 idx.

(** What the loop of [merge_eh] keeps true. *)
Definition merge_inv (N : gset bool_var) (v1 v2 : theory_var) (s : theory_bv) : Prop :=
  ∀ u idx, u < get_num_vars s →
    agree_at s u idx ∨ pending_ring s 0 u idx ∨ excused N s u idx ∨ two_valued s v1 v2 u idx.

Definition occurrences (s : theory_bv) (v : bool_var) : list var_pos :=
  match m_bool_var2atom s !! v with
  | Some (bit_atom occs) => occs
  | _ => []
  end.

(** The two callbacks that propagate: [assign_eh], and [new_eq_eh], which
    runs [merge_eh] through [union_find::merge]. *)
Inductive callback :=
  | on_assign (v : bool_var) (is_true : bool)
  | on_new_eq (o : merge_order) (v1 v2 : theory_var).

Definition run_callback (fuel : nat) (cb : callback) (s : theory_bv) : option theory_bv :=
  match cb with
  | on_assign v is_true => assign_eh fuel v is_true s
  | on_new_eq o v1 v2 => new_eq_eh o fuel v1 v2 s
  end.

(** [assign_eh] is called for a boolean variable with an atom that the core
    has assigned; [new_eq_eh] for two variables with bit arrays of one
    length, which is what [merge_eh] asserts. *)
Definition callback_ready (cb : callback) (s : theory_bv) : Prop :=
  match cb with
  | on_assign v is_true =>
      is_Some (m_bool_var2atom s !! v) ∧ m_assignment (ctx s) !! v = Some is_true
  | on_new_eq _ v1 v2 =>
      v1 < get_num_vars s ∧ v2 < get_num_vars s ∧
      length (m_bits s !!! v1) = length (m_bits s !!! v2)
  end.

(** A bound on the work of a callback, for the fuel. *)
Definition callback_work (cb : callback) (s : theory_bv) : nat :=
  match cb with
  | on_assign v _ => length (occurrences s v) + pending s
  | on_new_eq _ v1 v2 => 1 + pending s + undef_count s v2 v1 (length (m_bits s !!! v2))
  end.

(** A conflict was reported: the core is inconsistent, or an axiom was
    handed to it, which [merge_eh] does when the zero-one summaries of the
    two classes are complementary. *)
Definition callback_conflict (s s' : theory_bv) : Prop :=
  inconsistent (ctx s') = true ∨ m_th_axioms (ctx s') ≠ m_th_axioms (ctx s).

(** The notifications that are still to come after a callback.  [assign_eh]
    delivers one.  When [union_find::merge] calls [merge_eh] before it links
    the two classes, the boolean variables that [merge_eh] assigns are
    propagated along the rings as they are before the link, and count as
    still to come. *)
Definition pending_after (cb : callback) (N : gset bool_var) (s s' : theory_bv)
    : gset bool_var :=
  match cb with
  | on_assign v _ => N ∖ {[v]}
  | on_new_eq link_then_merge_eh _ _ => N
  | on_new_eq merge_eh_then_link _ _ =>
      N ∪ (dom (m_assignment (ctx s')) ∖ dom (m_assignment (ctx s)))
  end.

(** What a merge carries over: a bit index at which [v1] or [v2] is assigned
    [b] at the call, with no notification to come for that index along their
    two rings, is assigned [b] in every variable of the two rings. *)
Definition callback_carried (N : gset bool_var) (cb : callback) (s s' : theory_bv) : Prop :=
  match cb with
  | on_assign _ _ => True
  | on_new_eq _ v1 v2 =>
      ∀ i b w, b ≠ l_undef → i < length (m_bits s !!! v1) → one_assigned s v1 v2 i b →
        ¬ excused N s v1 i → ¬ excused N s v2 i →
        ring s v1 w ∨ ring s v2 w →
        bit_value s' w i = b
  end.

(** Two one-bit variables [x = [p1]] and [y = [p2]], not merged; the core
    has assigned [p1] true and the plugin knows. *)
Definition one_bit : enode := Enode (Some 1) 0.

Definition merge_example : theory_bv :=
  Eval vm_compute in
  default empty_theory
    (s ← add_bit 0 (Literal 1 false)
           (mk_var one_bit (upd_ctx (set_assignment (λ _, {[0 := true; 1 := true]}))
                              empty_theory));
     add_bit 1 (Literal 2 false) (mk_var one_bit s)).

(** Three one-bit variables [x = [p1]], [y = [p2]] and [z = [p3]]; [x] and [y]
    are merged while nothing is assigned; then the core assigns [p3] and
    [p1] and calls [assign_eh] for [p3]. *)
Definition pending_example (o : merge_order) : theory_bv :=
  default empty_theory
    (s ← add_bit 0 (Literal 1 false)
           (mk_var one_bit (upd_ctx (set_assignment (λ _, {[0 := true]})) empty_theory));
     s ← add_bit 1 (Literal 2 false) (mk_var one_bit s);
     s ← add_bit 2 (Literal 3 false) (mk_var one_bit s);
     s ← new_eq_eh o 10 0 1 s;
     Some (upd_ctx (set_assignment (λ asg, <[1 := true]> (<[3 := true]> asg))) s)).

(** * Properties *)

(** ** Fixed values *)

Lemma get_fixed_value_loop_flag c bits i acc :
  (get_fixed_value_loop c bits i acc).1 = true ↔
  Forall (λ l, get_assignment c l ≠ l_undef) bits.
Proof.
  revert i acc. induction bits as [|l bits IH]; intros i acc; simpl.
  - split; [constructor | done].
  - destruct (get_assignment c l) eqn:E.
    + rewrite IH, Forall_cons, E. intuition congruence.
    + simpl. rewrite Forall_cons, E. intuition congruence.
    + rewrite IH, Forall_cons, E. intuition congruence.
Qed.

Lemma get_fixed_value_loop_value c bits i acc :
  (get_fixed_value_loop c bits i acc).1 = true →
  (get_fixed_value_loop c bits i acc).2 = (acc + numeral_from c i bits)%Z.
Proof.
  revert i acc. induction bits as [|l bits IH]; intros i acc; simpl.
  - intros _. lia.
  - destruct (get_assignment c l) eqn:E; simpl.
    + intros H. rewrite (IH _ _ H). lia.
    + done.
    + intros H. rewrite (IH _ _ H). unfold power. lia.
Qed.

Lemma numeral_from_filter c (all bits : list literal) i :
  (∀ j, j < length bits → all !!! (i + j) = bits !!! j) →
  numeral_from c i bits =
  sum_of_powers (filter (assigned_true c all) (seq i (length bits))).
Proof.
  revert i. induction bits as [|l bits IH]; intros i Hall; simpl; [done|].
  rewrite filter_cons. rewrite (IH (S i)).
  - specialize (Hall 0 ltac:(simpl; lia)).
    rewrite Nat.add_0_r in Hall. simpl in Hall.
    destruct (decide (assigned_true c all i)) as [Ht|Ht];
      unfold assigned_true in Ht; rewrite Hall in Ht;
      destruct (decide (get_assignment c l = l_true)); try done; simpl; lia.
  - intros j Hj. specialize (Hall (S j) ltac:(simpl; lia)).
    simpl in Hall. rewrite <- Hall. f_equal. lia.
Qed.

Lemma numeral_from_S c i bits :
  numeral_from c (S i) bits = (2 * numeral_from c i bits)%Z.
Proof.
  revert i. induction bits as [|l bits IH]; intros i; simpl; [done|].
  rewrite IH. rewrite Nat2Z.inj_succ, Z.pow_succ_r by lia.
  destruct (decide (get_assignment c l = l_true)); lia.
Qed.

Lemma numeral_from_testbit c bits i :
  Z.testbit (numeral_from c 0 bits) (Z.of_nat i) =
  bool_decide (i < length bits ∧ get_assignment c (bits !!! i) = l_true).
Proof.
  revert i. induction bits as [|l bits IH]; intros i; cbn [numeral_from].
  - rewrite Z.testbit_0_l. symmetry. apply bool_decide_eq_false_2. simpl. lia.
  - rewrite numeral_from_S.
    set (b := bool_decide (get_assignment c l = l_true)).
    assert ((if decide (get_assignment c l = l_true) then 2 ^ Z.of_nat 0 else 0)%Z = Z.b2z b) as ->.
    { unfold b. destruct (decide _); [rewrite bool_decide_eq_true_2 | rewrite bool_decide_eq_false_2]; done. }
    rewrite Z.add_comm.
    destruct i as [|i].
    + rewrite Z.testbit_0_r. unfold b. apply bool_decide_ext. simpl. split; [intros; split; [lia|done] | tauto].
    + rewrite Nat2Z.inj_succ, Z.testbit_succ_r by lia. rewrite IH.
      apply bool_decide_ext. simpl. split; intros [? ?]; (split; [lia|done]).
Qed.

(** The flag of [get_fixed_value]: no literal of [m_bits[v]] is unassigned. *)
Lemma get_fixed_value_flag (s : theory_bv) (v : theory_var) :
  (get_fixed_value s v).1 = true ↔
  ∀ i, i < length (m_bits s !!! v) →
       get_assignment (ctx s) ((m_bits s !!! v) !!! i) ≠ l_undef.
Proof.
  unfold get_fixed_value. rewrite get_fixed_value_loop_flag, Forall_lookup. split.
  - intros H i Hi. destruct (lookup_lt_is_Some_2 (m_bits s !!! v) i Hi) as [l Hl].
    rewrite (list_lookup_total_correct _ _ _ Hl). eauto.
  - intros H i l Hl. rewrite <- (list_lookup_total_correct _ _ _ Hl).
    apply H. by eapply lookup_lt_Some.
Qed.

(** C6: [get_fixed_value] returns true exactly when no literal of
    [m_bits[v]] is unassigned, and then [result] is the sum of [2^i] over the
    indices [i] whose literal is assigned true: bit [i] of the result is set
    exactly for those indices, index 0 being the least significant bit. *)
Theorem get_fixed_value_correct (s : theory_bv) (v : theory_var) :
  let bits := m_bits s !!! v in
  ((get_fixed_value s v).1 = true ↔
     ∀ i, i < length bits → get_assignment (ctx s) (bits !!! i) ≠ l_undef) ∧
  ((get_fixed_value s v).1 = true →
     (get_fixed_value s v).2 = numeral_of_bits (ctx s) bits ∧
     ∀ i, Z.testbit (get_fixed_value s v).2 (Z.of_nat i) = true ↔
          i < length bits ∧ get_assignment (ctx s) (bits !!! i) = l_true).
Proof.
  intros bits. split; [apply get_fixed_value_flag|].
  unfold get_fixed_value. fold bits.
  - intros H. rewrite (get_fixed_value_loop_value _ _ _ _ H). rewrite Z.add_0_l. split.
    + unfold numeral_of_bits. apply numeral_from_filter. done.
    + intros i. rewrite numeral_from_testbit. apply bool_decide_eq_true.
Qed.

Lemma get_fixed_value_correct_witness :
  (get_fixed_value fixed_example 0).1 = true ∧
  (get_fixed_value fixed_example 0).2 =
    numeral_of_bits (ctx fixed_example) (m_bits fixed_example !!! 0) ∧
  (get_fixed_value fixed_example 0).2 = 1%Z.
Proof.
  assert ((get_fixed_value fixed_example 0).1 = true) as Hf by (vm_compute; reflexivity).
  split; [exact Hf|]. split.
  - exact (proj1 (proj2 (get_fixed_value_correct fixed_example 0) Hf)).
  - vm_compute. reflexivity.
Defined.

Lemma elem_of_mark_bits c bits m :
  m ∈ mark_bits c bits ↔
  ∃ l, l ∈ bits ∧ lit_var l ≠ true_bool_var ∧ m = mark_literal (true_polarity c l).
Proof.
  unfold mark_bits. rewrite list_elem_of_omap. unfold true_polarity.
  split; intros (l & Hl & H); exists l; (split; [done|]).
  - destruct (decide (lit_var l = true_bool_var)); [done|].
    destruct (decide (get_assignment c l = l_true)); simplify_eq; done.
  - destruct H as [Hv ->]. rewrite decide_False by done.
    destruct (decide (get_assignment c l = l_true)); done.
Qed.

Lemma true_polarity_assigned c l :
  get_assignment c l ≠ l_undef → get_assignment c (true_polarity c l) = l_true.
Proof.
  unfold true_polarity. destruct (decide _) as [|Hn]; [done|].
  unfold get_assignment in *. simpl.
  destruct (m_assignment c !! lit_var l) as [b|]; [|done].
  destruct b, (lit_sign l); simpl in *; done.
Qed.

(** C5, as amended: what [fixed_var_eh] does with the entry of the
    fixed-value table for the value and width of [v], and what the
    justification of a proposed equality marks: for every bit of both
    variables whose boolean variable is not the constant one, the literal in
    the polarity that is assigned true. *)
Theorem fixed_var_eh_correct (s : theory_bv) (v : theory_var) :
  (get_fixed_value s v).1 = true →
  let val := (get_fixed_value s v).2 in
  let sz := get_bv_size s v in
  match m_fixed_var_table s !! (val, sz) with
  | Some v2 =>
      (still_valid s val sz v2 →
       e_root (m_var2enode s !!! v) ≠ e_root (m_var2enode s !!! v2) →
       let js := fixed_eq_justification v v2 in
       fixed_var_eh v s = upd_ctx (assign_eq v v2 js) s ∧
       (∀ m, m ∈ get_antecedents (fixed_var_eh v s) js ↔
             ∃ l, l ∈ m_bits s !!! v ++ m_bits s !!! v2 ∧ lit_var l ≠ true_bool_var ∧
                  m = mark_literal (true_polarity (ctx s) l)) ∧
       (∀ l, mark_literal l ∈ get_antecedents (fixed_var_eh v s) js →
             get_assignment (ctx s) l = l_true)) ∧
      (still_valid s val sz v2 →
       e_root (m_var2enode s !!! v) = e_root (m_var2enode s !!! v2) →
       fixed_var_eh v s = s) ∧
      (¬ still_valid s val sz v2 →
       fixed_var_eh v s = upd_fixed_var_table (<[(val, sz) := v]>) s)
  | None => fixed_var_eh v s = upd_fixed_var_table (<[(val, sz) := v]>) s
  end.
Proof.
  intros Hfixed val sz. unfold fixed_var_eh. fold val sz.
  destruct (m_fixed_var_table s !! (val, sz)) as [v2|] eqn:Hlook; [|done].
  assert (bool_decide (v2 < get_num_vars s) && is_bv s v2 &&
          bool_decide (get_bv_size s v2 = sz) && (get_fixed_value s v2).1 &&
          bool_decide (val = (get_fixed_value s v2).2) = true ↔ still_valid s val sz v2) as Hvalid.
  { unfold still_valid. rewrite !andb_true_iff, !bool_decide_eq_true.
    destruct (get_fixed_value s v2) as [r2 val2]; simpl.
    split; [intros [[[[? ?] ?] ?] ?]; subst; done | intros (? & ? & ? & ?); simplify_eq; done]. }
  split; [|split].
  - intros Hv Hroot. set (js := fixed_eq_justification v v2).
    apply Hvalid in Hv. rewrite Hv. rewrite decide_True by done.
    split; [done|].
    assert (∀ m, m ∈ get_antecedents (upd_ctx (assign_eq v v2 js) s) js ↔
                 ∃ l, l ∈ m_bits s !!! v ++ m_bits s !!! v2 ∧ lit_var l ≠ true_bool_var ∧
                      m = mark_literal (true_polarity (ctx s) l)) as Hm.
    { intros m. simpl. rewrite elem_of_app, !elem_of_mark_bits.
      setoid_rewrite elem_of_app. unfold true_polarity, get_assignment. simpl. naive_solver. }
    split; [exact Hm|].
    intros l [l' (Hl' & _ & Heq)]%Hm. simplify_eq.
    apply true_polarity_assigned.
    apply Hvalid in Hv. destruct Hv as (_ & _ & _ & Hv2).
    pose proof (get_fixed_value_flag s v) as H1.
    pose proof (get_fixed_value_flag s v2) as H2. rewrite Hv2 in H2. simpl in H2.
    apply elem_of_app in Hl' as [Hl'|Hl']; apply list_elem_of_lookup in Hl' as [i Hi].
    + rewrite <- (list_lookup_total_correct _ _ _ Hi). apply H1; [done|].
      by eapply lookup_lt_Some.
    + rewrite <- (list_lookup_total_correct _ _ _ Hi). apply H2; [done|].
      by eapply lookup_lt_Some.
  - intros Hv Hroot. apply Hvalid in Hv. rewrite Hv. rewrite decide_False; [done|]. by intros [].
  - intros Hv. destruct (_ && _) eqn:E; [exfalso; by apply Hv, Hvalid|].
    unfold upd_fixed_var_table. by rewrite insert_delete_eq.
Qed.

Lemma fixed_var_eh_correct_witness :
  fixed_var_eh 1 numeral_example =
  upd_ctx (assign_eq 1 0 (fixed_eq_justification 1 0)) numeral_example.
Proof.
  assert ((get_fixed_value numeral_example 1).1 = true) as Hf by (vm_compute; reflexivity).
  pose proof (fixed_var_eh_correct numeral_example 1 Hf) as H.
  change (m_fixed_var_table numeral_example !! _) with (Some 0) in H.
  destruct H as [H _]. apply H.
  - vm_compute. repeat split; lia.
  - vm_compute. lia.
Defined.

(** C5, as stated, fails on a numeral: the bit of variable 1 is the constant
    [true_literal], the equality with variable 0 is proposed, and neither
    that literal nor its negation is among the antecedents. *)
Lemma fixed_var_eh_marks_counterexample :
  let js := fixed_eq_justification 1 0 in
  let s' := fixed_var_eh 1 numeral_example in
  m_th_eqs (ctx s') = [(1, 0, js)] ∧
  get_antecedents s' js = [mark_literal (Literal 1 false)] ∧
  ¬ marks_every_bit s' js 1 0.
Proof.
  assert (get_antecedents (fixed_var_eh 1 numeral_example) (fixed_eq_justification 1 0)
          = [mark_literal (Literal 1 false)]) as Ha by (vm_compute; reflexivity).
  split; [vm_compute; reflexivity|]. split; [exact Ha|].
  intros H. destruct (H true_literal) as [Hm|Hm].
  - vm_compute. constructor.
  - rewrite Ha in Hm. apply list_elem_of_singleton in Hm. discriminate.
  - rewrite Ha in Hm. apply list_elem_of_singleton in Hm. discriminate.
Qed.

(** ** Static disequalities and [add_bit] *)

Lemma static_diseq_ext s s' v idx l occ :
  m_bits s' = m_bits s → m_var2enode s' = m_var2enode s →
  static_diseq s' v idx l occ ↔ static_diseq s v idx l occ.
Proof.
  intros Hb He. unfold static_diseq, bit_at, get_bv_size. by rewrite Hb, He.
Qed.

Lemma static_diseq_axioms_ext s s' v idx l occs :
  m_bits s' = m_bits s → m_var2enode s' = m_var2enode s →
  static_diseq_axioms s' v idx l occs = static_diseq_axioms s v idx l occs ∧
  static_diseq_pairs s' v idx l occs = static_diseq_pairs s v idx l occs.
Proof.
  intros Hb He. unfold static_diseq_axioms, static_diseq_pairs.
  assert (filter (static_diseq s' v idx l) occs = filter (static_diseq s v idx l) occs) as ->; [|done].
  apply list_filter_iff. intros occ. by apply static_diseq_ext.
Qed.

Lemma emit_axioms_nil c : emit_axioms [] [] c = c.
Proof. destruct c as [? ? ? r ? ? ? ? ?]. unfold emit_axioms. simpl. by destruct r. Qed.

Lemma emit_axioms_snoc axs ehs v v2 c :
  emit_axioms axs ehs
    (let c1 := mk_th_axiom [lit_eq true v v2] c in
     if m_relevancy c1 then set_relevancy_ehs (cons (v, v2)) c1 else c1) =
  emit_axioms (axs ++ [[lit_eq true v v2]]) (ehs ++ [(v, v2)]) c.
Proof.
  destruct c as [? ? ? r ? ? ? ? ?]. unfold emit_axioms, mk_th_axiom. simpl.
  destruct r; simpl; unfold set_relevancy_ehs, set_th_axioms; simpl;
    by rewrite <- ?(assoc_L (++)).
Qed.

Lemma upd_ctx_id s : upd_ctx (λ c, c) s = s.
Proof. by destruct s. Qed.

Lemma find_new_diseq_axioms_loop_emit occs v idx l s :
  find_new_diseq_axioms_loop occs v idx l s =
  upd_ctx (emit_axioms (static_diseq_axioms s v idx l occs)
                       (static_diseq_pairs s v idx l occs)) s.
Proof.
  revert s. induction occs as [|[v2 idx2] occs IH]; intros s; simpl.
  - destruct s. unfold upd_ctx. simpl. by rewrite emit_axioms_nil.
  - rewrite IH.
    unfold static_diseq_axioms, static_diseq_pairs. rewrite !filter_cons.
    destruct (decide (static_diseq s v idx l (v2, idx2))) as [Hg|Hg].
    + assert (bool_decide (idx = idx2) && bool_decide (bit_at s v2 idx2 = l) &&
              bool_decide (get_bv_size s v2 = get_bv_size s v) = true) as ->.
      { destruct Hg as (? & ? & ?). simpl in *.
        by rewrite !andb_true_iff, !bool_decide_eq_true. }
      destruct (static_diseq_axioms_ext s (mk_new_diseq_axiom v v2 idx s) v idx l occs)
        as [Ha Hp]; [done..|].
      unfold static_diseq_axioms, static_diseq_pairs in Ha, Hp. rewrite Ha, Hp.
      rewrite !fmap_cons, !reverse_cons. destruct s. unfold mk_new_diseq_axiom, upd_ctx. simpl. f_equal.
      apply emit_axioms_snoc.
    + assert (bool_decide (idx = idx2) && bool_decide (bit_at s v2 idx2 = l) &&
              bool_decide (get_bv_size s v2 = get_bv_size s v) = false) as ->; [|done].
      apply not_true_is_false. intros Ht. apply Hg.
      rewrite !andb_true_iff, !bool_decide_eq_true in Ht. by destruct Ht as [[? ?] ?].
Qed.

(** C9: the scan of [add_bit] emits the disequality axiom for an occurrence
    only when the index is the new bit's index, the stored literal is the
    negation of the new literal and the two variables have the same width;
    when every occurrence with a complementary literal at that index belongs
    to a variable of another width, nothing is emitted. *)
Theorem find_new_diseq_axioms_same_width (occs : list var_pos) (v : theory_var) (idx : nat)
    (s : theory_bv) :
  let l := neg (bit_at s v idx) in
  let s' := find_new_diseq_axioms occs v idx s in
  let emitted := static_diseq_axioms s v idx l occs in
  m_th_axioms (ctx s') = emitted ++ m_th_axioms (ctx s) ∧
  (∀ cl, cl ∈ emitted ↔
         ∃ v2 idx2, (v2, idx2) ∈ occs ∧ idx2 = idx ∧ bit_at s v2 idx2 = l ∧
                    get_bv_size s v2 = get_bv_size s v ∧ cl = [lit_eq true v v2]) ∧
  ((∀ v2 idx2, (v2, idx2) ∈ occs → idx2 = idx → bit_at s v2 idx2 = l →
               get_bv_size s v2 ≠ get_bv_size s v) →
   m_th_axioms (ctx s') = m_th_axioms (ctx s)).
Proof.
  cbv zeta. unfold find_new_diseq_axioms.
  set (l := neg (bit_at s v idx)).
  rewrite find_new_diseq_axioms_loop_emit.
  assert (∀ cl, cl ∈ static_diseq_axioms s v idx l occs ↔
         ∃ v2 idx2, (v2, idx2) ∈ occs ∧ idx2 = idx ∧ bit_at s v2 idx2 = l ∧
                    get_bv_size s v2 = get_bv_size s v ∧ cl = [lit_eq true v v2]) as Hin.
  { intros cl. unfold static_diseq_axioms.
    rewrite elem_of_reverse, list_elem_of_fmap. split.
    - intros (occ & Hcl & Hf). apply list_elem_of_filter in Hf as [Hg Ho].
      destruct occ as [v2 idx2]. destruct Hg as (? & ? & ?). simpl in *.
      exists v2, idx2. by subst.
    - intros (v2 & idx2 & Ho & Hi & Hb & Hw & ->). exists (v2, idx2). split; [done|].
      apply list_elem_of_filter. split; [|done]. by repeat split. }
  split; [done|]. split; [exact Hin|].
  intros Hw.
  assert (static_diseq_axioms s v idx l occs = []) as ->; [|done].
  destruct (static_diseq_axioms s v idx l occs) as [|cl emitted'] eqn:E; [done|]. exfalso.
  destruct (proj1 (Hin cl)) as (v2 & idx2 & Ho & Hi & Hb & Hs & _); [constructor|].
  by eapply Hw.
Qed.

Lemma find_new_diseq_axioms_same_width_witness :
  m_th_axioms (ctx (find_new_diseq_axioms [(0, 0)] 1 0
                      (upd_bits (λ _, [[Literal 1 false; Literal 2 false]; [Literal 1 true]])
                                extract_example))) = [].
Proof.
  set (s := upd_bits _ extract_example).
  destruct (find_new_diseq_axioms_same_width [(0, 0)] 1 0 s) as (_ & _ & H).
  rewrite H; [reflexivity|].
  intros v2 idx2 Ho _ _. apply list_elem_of_singleton in Ho. simplify_eq.
  vm_compute. lia.
Defined.

(** C2, as amended: when the boolean variable of [l] already has a bit atom,
    [add_bit] scans the atom's occurrence list as it is before the new
    occurrence is added and emits the unit clause [v != v2] for exactly the
    occurrences [(v2, idx2)] at the index of the new bit whose stored literal
    is the negation of [l] and whose variable has the same width as [v]; then
    the new occurrence is put in front of the list and the undo record is
    pushed. *)
Theorem add_bit_existing_atom (s : theory_bv) (v : theory_var) (l : literal)
    (occs : list var_pos) :
  lit_var l ≠ true_bool_var →
  m_var_theory (ctx s) !! lit_var l = Some bv_family_id →
  m_bool_var2atom s !! lit_var l = Some (bit_atom occs) →
  v < length (m_bits s) →
  let idx := length (m_bits s !!! v) in
  ∃ s', add_bit v l s = Some s' ∧
        m_bits s' = <[v := m_bits s !!! v ++ [l]]> (m_bits s) ∧
        bit_at s' v idx = l ∧
        m_th_axioms (ctx s') = static_diseq_axioms s' v idx (neg l) occs ++ m_th_axioms (ctx s) ∧
        m_bool_var2atom s' = <[lit_var l := bit_atom ((v, idx) :: occs)]> (m_bool_var2atom s) ∧
        m_trail_stack s' = add_var_pos_trail (lit_var l) :: m_trail_stack s.
Proof.
  intros Hvar Hth Hatom Hv idx. unfold add_bit. fold idx.
  rewrite decide_False by done. simpl.
  rewrite decide_True by done. rewrite Hatom.
  eexists. split; [reflexivity|].
  set (s1 := upd_bits _ s).
  assert (bit_at s1 v idx = l) as Hbit.
  { unfold bit_at, s1, idx. simpl. rewrite list_lookup_total_insert_eq by done.
    rewrite lookup_total_app_r by done. by rewrite Nat.sub_diag. }
  unfold find_new_diseq_axioms. rewrite Hbit, find_new_diseq_axioms_loop_emit. simpl.
  split; [done|]. split; [exact Hbit|]. split; [|done].
  reflexivity.
Qed.

Lemma add_bit_existing_atom_witness :
  ∃ s', add_bit 1 (Literal 1 true) bvnot_example = Some s' ∧
        m_th_axioms (ctx s') = [[lit_eq true 1 0]].
Proof.
  assert (lit_var (Literal 1 true) ≠ true_bool_var) as H1 by (vm_compute; lia).
  assert (m_var_theory (ctx bvnot_example) !! lit_var (Literal 1 true) = Some bv_family_id)
    as H2 by (vm_compute; reflexivity).
  assert (m_bool_var2atom bvnot_example !! lit_var (Literal 1 true) = Some (bit_atom [(0, 0)]))
    as H3 by (vm_compute; reflexivity).
  assert (1 < length (m_bits bvnot_example)) as H4 by (vm_compute; lia).
  destruct (add_bit_existing_atom bvnot_example 1 (Literal 1 true) [(0, 0)] H1 H2 H3 H4)
    as (s' & Hs' & _).
  exists s'. split; [exact Hs'|].
  assert (Some s' = add_bit 1 (Literal 1 true) bvnot_example) as Heq by (symmetry; exact Hs').
  vm_compute in Heq. injection Heq as ->. vm_compute. reflexivity.
Defined.

(** C2, as stated, fails when the widths differ: the atom of boolean
    variable 1 has the occurrence [(0, 0)], the stored literal is the negation
    of the new bit of variable 1 and the index is the same, yet no axiom is
    emitted, because variable 0 has two bits and variable 1 has one. *)
Lemma add_bit_width_counterexample :
  let l := Literal 1 true in
  ∃ s', add_bit 1 l extract_example = Some s' ∧
        m_bool_var2atom extract_example !! lit_var l = Some (bit_atom [(0, 0)]) ∧
        length (m_bits extract_example !!! 1) = 0 ∧
        bit_at s' 0 0 = neg l ∧
        m_th_axioms (ctx s') = [] ∧
        m_bool_var2atom s' !! lit_var l = Some (bit_atom [(1, 0); (0, 0)]).
Proof.
  eexists. split; [vm_compute; reflexivity|].
  repeat split; vm_compute; reflexivity.
Qed.

(** ** Dynamic disequalities *)

Lemma existsb_seq_true (f : nat → bool) n :
  existsb f (seq 0 n) = true ↔ ∃ i, i < n ∧ f i = true.
Proof.
  rewrite existsb_exists. split.
  - intros (i & Hi & Hf). apply in_seq in Hi. exists i. split; [lia|done].
  - intros (i & Hi & Hf). exists i. split; [|done]. apply in_seq. lia.
Qed.

(** C3: for two variables with bit arrays of the same length, [expand_diseq]
    asserts nothing when some pair of stored literals is complementary, and
    otherwise asserts exactly one clause: the equality literal followed by one
    xor literal per bit index, [width + 1] literals in all. *)
Theorem expand_diseq_correct (s : theory_bv) (v1 v2 : theory_var) :
  length (m_bits s !!! v1) = length (m_bits s !!! v2) →
  let bits1 := m_bits s !!! v1 in
  let bits2 := m_bits s !!! v2 in
  let width := length bits1 in
  ((∃ i, i < width ∧ bits1 !!! i = neg (bits2 !!! i)) → expand_diseq v1 v2 s = s) ∧
  ((∀ i, i < width → bits1 !!! i ≠ neg (bits2 !!! i)) →
   ∃ clause,
     expand_diseq v1 v2 s = upd_ctx (mk_th_axiom clause) s ∧
     m_th_axioms (ctx (expand_diseq v1 v2 s)) = clause :: m_th_axioms (ctx s) ∧
     length clause = width + 1 ∧
     clause !! 0 = Some (lit_eq false v1 v2) ∧
     ∀ i, i < width → clause !! (S i) = Some (lit_xor (bits1 !!! i) (bits2 !!! i))).
Proof.
  intros Hlen bits1 bits2 width. unfold expand_diseq. fold bits1 bits2 width. split.
  - intros (i & Hi & Hc).
    assert (existsb (λ i, bool_decide (bits1 !!! i = neg (bits2 !!! i))) (seq 0 width) = true)
      as ->; [|done].
    apply existsb_seq_true. exists i. split; [done|]. by apply bool_decide_eq_true.
  - intros Hnc.
    assert (existsb (λ i, bool_decide (bits1 !!! i = neg (bits2 !!! i))) (seq 0 width) = false)
      as ->.
    { apply not_true_is_false. intros (i & Hi & Hc)%existsb_seq_true.
      apply bool_decide_eq_true in Hc. by eapply Hnc. }
    eexists. split; [reflexivity|]. split; [reflexivity|]. split; [|split].
    + simpl. rewrite length_imap. unfold width. lia.
    + done.
    + intros i Hi. simpl. rewrite list_lookup_imap.
      destruct (lookup_lt_is_Some_2 bits1 i Hi) as [l1 Hl1]. rewrite Hl1. simpl.
      by rewrite (list_lookup_total_correct _ _ _ Hl1).
Qed.

Lemma expand_diseq_correct_witness :
  ∃ clause,
    m_th_axioms (ctx (expand_diseq 0 1 diseq_example)) = [clause] ∧
    length clause = 3 ∧
    clause !! 2 = Some (lit_xor (Literal 2 false) (Literal 4 false)).
Proof.
  assert (length (m_bits diseq_example !!! 0) = length (m_bits diseq_example !!! 1)) as Hlen
    by reflexivity.
  destruct (expand_diseq_correct diseq_example 0 1 Hlen) as [_ H].
  assert (∀ i, i < length (m_bits diseq_example !!! 0) →
               (m_bits diseq_example !!! 0) !!! i ≠ neg ((m_bits diseq_example !!! 1) !!! i))
    as Hnc.
  { intros i Hi. vm_compute in Hi.
    destruct i as [|[|i]]; [vm_compute; discriminate..|lia]. }
  destruct (H Hnc) as (clause & _ & Hax & Hlen' & _ & Hxor).
  exists clause. split; [exact Hax|]. split; [exact Hlen'|].
  apply (Hxor 1). vm_compute. lia.
Defined.

(** ** Approximation of large bit-vectors *)

Lemma approximate_term_loop_true max_size sorts :
  approximate_term_loop max_size sorts = true ↔ Exists (large_sort max_size) sorts.
Proof.
  induction sorts as [|sort sorts IH]; simpl.
  - rewrite Exists_nil. done.
  - rewrite Exists_cons, <- IH.
    destruct sort as [w|]; simpl.
    + destruct (bool_decide (max_size < Z.of_nat w)%Z) eqn:E.
      * apply bool_decide_eq_true in E. tauto.
      * apply bool_decide_eq_false in E. tauto.
    + tauto.
Qed.

Lemma approximate_term_spec n s :
  approximate_term n s =
  if bool_decide (m_bv_blast_max_size (m_params s) ≠ INT_MAX ∧
                  has_large_sort (m_bv_blast_max_size (m_params s)) n)
  then (true, mark_approximated s) else (false, s).
Proof.
  unfold approximate_term, mark_approximated.
  destruct (bool_decide (m_bv_blast_max_size (m_params s) = INT_MAX)) eqn:Emax.
  - apply bool_decide_eq_true in Emax. rewrite bool_decide_eq_false_2; [done|]. by intros [? _].
  - apply bool_decide_eq_false in Emax.
    destruct (approximate_term_loop _ _) eqn:Eloop.
    + rewrite bool_decide_eq_true_2.
      * by destruct (m_approximates_large_bvs s).
      * split; [done|]. by apply approximate_term_loop_true.
    + rewrite bool_decide_eq_false_2; [done|]. intros [_ H].
      apply approximate_term_loop_true in H. congruence.
Qed.

Lemma mark_approximated_flag s : m_approximates_large_bvs (mark_approximated s) = true.
Proof. unfold mark_approximated. by destruct (m_approximates_large_bvs s) eqn:E. Qed.

(** C8: when the limit is not [INT_MAX] and the term, or one of its
    arguments, has a bit-vector sort wider than the limit, [internalize_term]
    and [internalize_atom] return false; the only change of state is the
    approximation flag, now set, and its undo record on the context trail;
    and as long as the flag is set [final_check_eh] returns [FC_GIVEUP]. *)
Theorem oversized_term_is_refused (internalize_op : decl_kind → app → theory_bv → theory_bv)
    (n : app) (gate_ctx : bool) (s : theory_bv) :
  m_bv_blast_max_size (m_params s) ≠ INT_MAX →
  has_large_sort (m_bv_blast_max_size (m_params s)) n →
  internalize_term internalize_op n s = (false, mark_approximated s) ∧
  internalize_atom internalize_op n gate_ctx s = (false, mark_approximated s) ∧
  m_approximates_large_bvs (mark_approximated s) = true ∧
  upd_approximates (m_approximates_large_bvs s)
    (upd_ctx (set_ctx_trail (m_ctx_trail (ctx s)) (m_ctx_scopes (ctx s)))
       (mark_approximated s)) = s ∧
  final_check_eh (mark_approximated s) = FC_GIVEUP ∧
  (∀ s', m_approximates_large_bvs s' = true → final_check_eh s' = FC_GIVEUP).
Proof.
  intros Hmax Hlarge.
  assert (approximate_term n s = (true, mark_approximated s)) as Happrox.
  { rewrite approximate_term_spec. by rewrite bool_decide_eq_true_2. }
  unfold internalize_term, internalize_atom. rewrite Happrox.
  split; [done|]. split; [done|]. split; [apply mark_approximated_flag|].
  split; [|split].
  - unfold mark_approximated. destruct s as [c ? ? ? ? ? ? ? ? ? ? ? ? flag].
    destruct c. by destruct flag.
  - unfold final_check_eh. by rewrite mark_approximated_flag.
  - intros s' Hs'. unfold final_check_eh. by rewrite Hs'.
Qed.

Lemma oversized_term_is_refused_witness :
  internalize_term no_op wide_add limited_theory = (false, mark_approximated limited_theory) ∧
  final_check_eh (mark_approximated limited_theory) = FC_GIVEUP.
Proof.
  assert (m_bv_blast_max_size (m_params limited_theory) ≠ INT_MAX) as H1
    by (vm_compute; discriminate).
  assert (has_large_sort (m_bv_blast_max_size (m_params limited_theory)) wide_add) as H2.
  { apply Exists_cons_hd. vm_compute. reflexivity. }
  destruct (oversized_term_is_refused no_op wide_add false limited_theory H1 H2)
    as (Ht & _ & _ & _ & Hf & _).
  split; [exact Ht | exact Hf].
Defined.

(** ** The approximation mark and the scopes of the context *)

Lemma undo_ctx_trail_stack_app above s rest :
  m_ctx_trail (ctx s) = above ++ rest →
  let s' := undo_ctx_trail_stack (length above) s in
  m_approximates_large_bvs s' = flag_after_undo above (m_approximates_large_bvs s) ∧
  m_ctx_trail (ctx s') = rest ∧
  m_ctx_scopes (ctx s') = m_ctx_scopes (ctx s) ∧
  m_params s' = m_params s.
Proof.
  revert s. induction above as [|t above IH]; intros s Htrail; simpl.
  - done.
  - rewrite Htrail. simpl.
    destruct (IH (upd_ctx (λ c, set_ctx_trail (above ++ rest) (m_ctx_scopes c) c)
                    (undo_ctx_trail t s))) as (Hf & Ht & Hs & Hp); [done|].
    rewrite Hf, Ht, Hs, Hp. by destruct t.
Qed.

Lemma flag_after_undo_app a1 a2 flag :
  flag_after_undo (a1 ++ a2) flag = flag_after_undo a2 (flag_after_undo a1 flag).
Proof.
  revert flag. induction a1 as [|t a1 IH]; intros flag; simpl; [done|]. by destruct t.
Qed.

Lemma flag_after_undo_true above flag :
  Forall (λ t, t ≠ value_trail_approximates true) above →
  flag_after_undo above flag = true → flag = true.
Proof.
  revert flag. induction above as [|t above IH]; intros flag Hall H; simpl in H; [done|].
  apply Forall_cons in Hall as [Ht Hall]. destruct t as [[|]|].
  - done.
  - by apply IH in H.
  - by apply IH.
Qed.

Lemma marks_ok_le lo hi marks : marks_ok lo hi marks → lo ≤ hi.
Proof.
  revert lo. induction marks as [|m marks IH]; intros lo; simpl; [done|].
  intros [Hlo H]. apply IH in H. lia.
Qed.

Lemma marks_ok_grow lo hi hi' marks : marks_ok lo hi marks → hi ≤ hi' → marks_ok lo hi' marks.
Proof.
  revert lo. induction marks as [|m marks IH]; intros lo; simpl; [lia|].
  intros [Hlo H] Hhi. split; [done|]. by apply IH.
Qed.

Lemma marks_ok_snoc lo hi marks : marks_ok lo hi marks → marks_ok lo hi (marks ++ [hi]).
Proof.
  revert lo. induction marks as [|m marks IH]; intros lo; simpl; [lia|].
  intros [Hlo H]. split; [done|]. by apply IH.
Qed.

Lemma marks_ok_take lo hi marks j m :
  marks_ok lo hi marks → marks !! j = Some m → marks_ok lo m (take j marks) ∧ m ≤ hi.
Proof.
  revert lo j. induction marks as [|m' marks IH]; intros lo j; simpl; [done|].
  intros [Hlo H] Hj. destruct j as [|j]; simpl in *.
  - injection Hj as ->. split; [done|]. by eapply marks_ok_le.
  - destruct (IH _ _ H Hj) as [? ?]. done.
Qed.

(** *** What the activities keep *)

Lemma activity_ind_nested (P : activity → Prop) :
  (∀ term routine, Forall P routine → P (internalizes_term term routine)) →
  (∀ atom gate_ctx routine, Forall P routine → P (internalizes_atom atom gate_ctx routine)) →
  (∀ bs n owner attached, P (applies_sort_cnstr bs n owner attached)) →
  P core_pushes_trail →
  (∀ rest, P (other_work rest)) →
  ∀ a, P a.
Proof.
  intros Hterm Hatom Hsort Hcore Hother. fix IH 1. intros [term routine|atom g routine| | |].
  - apply Hterm. induction routine as [|a routine IHr]; constructor; [apply IH|exact IHr].
  - apply Hatom. induction routine as [|a routine IHr]; constructor; [apply IH|exact IHr].
  - apply Hsort.
  - apply Hcore.
  - apply Hother.
Qed.

Lemma run_activity_term term routine s :
  run_activity (internalizes_term term routine) s =
  (internalize_term (λ _ _ s1, run_routine routine s1) term s).2.
Proof. reflexivity. Qed.

Lemma run_activity_atom atom gate_ctx routine s :
  run_activity (internalizes_atom atom gate_ctx routine) s =
  (internalize_atom (λ _ _ s1, run_routine routine s1) atom gate_ctx s).2.
Proof. reflexivity. Qed.

(** The two dispatchers either refuse the term, mark the approximation, or
    run the routine. *)
Lemma internalize_term_cases op term s :
  (internalize_term op term s).2 =
  if bool_decide (m_bv_blast_max_size (m_params s) ≠ INT_MAX ∧
                  has_large_sort (m_bv_blast_max_size (m_params s)) term)
  then mark_approximated s
  else if dispatched_term (m_bv_enable_int2bv2int (m_params s)) term
       then op (get_decl_kind term) term s else s.
Proof.
  unfold internalize_term, dispatched_term. rewrite approximate_term_spec.
  destruct (bool_decide _); simpl; [done|].
  destruct (get_decl_kind term); simpl; try done;
    by destruct (m_bv_enable_int2bv2int (m_params s)).
Qed.

Lemma internalize_atom_cases op atom gate_ctx s :
  (internalize_atom op atom gate_ctx s).2 =
  if bool_decide (m_bv_blast_max_size (m_params s) ≠ INT_MAX ∧
                  has_large_sort (m_bv_blast_max_size (m_params s)) atom)
  then mark_approximated s
  else if dispatched_atom atom then op (get_decl_kind atom) atom s else s.
Proof.
  unfold internalize_atom, dispatched_atom. rewrite approximate_term_spec.
  destruct (bool_decide _); simpl; [done|].
  by destruct (get_decl_kind atom).
Qed.

Lemma approximation_part_fields s s' :
  approximation_part s' = approximation_part s →
  m_approximates_large_bvs s' = m_approximates_large_bvs s ∧ m_params s' = m_params s ∧
  m_ctx_trail (ctx s') = m_ctx_trail (ctx s) ∧ m_ctx_scopes (ctx s') = m_ctx_scopes (ctx s).
Proof. unfold approximation_part. intros H. by simplify_eq. Qed.

Lemma approximation_part_mk_bits_loop bs idxs v s :
  approximation_part (mk_bits_loop bs idxs v s) = approximation_part s.
Proof.
  revert s. induction idxs as [|i idxs IH]; intros s; simpl; [done|].
  rewrite IH. by destruct (bs i).2.
Qed.

Lemma approximation_part_mk_bits bs v s : approximation_part (mk_bits bs v s) = approximation_part s.
Proof. apply approximation_part_mk_bits_loop. Qed.

Lemma apply_sort_cnstr_cases bs n owner attached s :
  ∃ s1, approximation_part (apply_sort_cnstr bs n owner attached s) = approximation_part s1 ∧
    (s1 = s ∨
     (s1 = mark_approximated s ∧ attached = false ∧
      m_bv_blast_max_size (m_params s) ≠ INT_MAX ∧
      has_large_sort (m_bv_blast_max_size (m_params s)) owner)) ∧
    (attached = false → m_bv_blast_max_size (m_params s) ≠ INT_MAX →
     has_large_sort (m_bv_blast_max_size (m_params s)) owner → s1 = mark_approximated s).
Proof.
  unfold apply_sort_cnstr. destruct attached.
  - exists s. split; [done|]. split; [by left|done].
  - rewrite approximate_term_spec. case_bool_decide as Hd.
    + exists (mark_approximated s). split; [done|]. split; [|done]. right. tauto.
    + exists s. split; [by rewrite approximation_part_mk_bits|]. split; [by left|]. tauto.
Qed.

Lemma scope_invariant_part s0 d s s' :
  approximation_part s' = approximation_part s →
  scope_invariant s0 d s → scope_invariant s0 d s'.
Proof.
  intros H (above & marks & Hinv). apply approximation_part_fields in H as (Hf & Hp & Ht & Hs).
  exists above, marks. by rewrite Hf, Hp, Ht, Hs.
Qed.

Lemma scope_invariant_mark s0 d s :
  scope_invariant s0 d s → scope_invariant s0 d (mark_approximated s).
Proof.
  intros (above & marks & Ht & Hf & Hall & Hs & Hd & Hm & Hp). unfold mark_approximated.
  destruct (m_approximates_large_bvs s) eqn:E.
  - exists above, marks. by rewrite ?E.
  - exists (value_trail_approximates false :: above), marks. simpl.
    rewrite Ht. split_and!; try done.
    + by constructor.
    + eapply marks_ok_grow; [done|]. rewrite Ht. simpl. lia.
Qed.

Lemma scope_invariant_core s0 d s :
  scope_invariant s0 d s → scope_invariant s0 d (upd_ctx (push_trail core_trail) s).
Proof.
  intros (above & marks & Ht & Hf & Hall & Hs & Hd & Hm & Hp).
  exists (core_trail :: above), marks. simpl. rewrite Ht. split_and!; try done.
  - by constructor.
  - eapply marks_ok_grow; [done|]. rewrite Ht. simpl. lia.
Qed.

Lemma scope_invariant_routine s0 d routine :
  Forall (λ a, ∀ s, scope_invariant s0 d s → scope_invariant s0 d (run_activity a s)) routine →
  ∀ s, scope_invariant s0 d s → scope_invariant s0 d (run_routine routine s).
Proof.
  induction 1 as [|a routine Ha _ IH]; intros s Hinv; simpl; [done|]. by apply IH, Ha.
Qed.

Lemma scope_invariant_activity s0 d a s :
  scope_invariant s0 d s → scope_invariant s0 d (run_activity a s).
Proof.
  revert s. induction a as [term routine IH|atom g routine IH|bs n owner attached| |rest]
    using activity_ind_nested; intros s Hinv.
  - rewrite run_activity_term, internalize_term_cases.
    destruct (bool_decide _); [by apply scope_invariant_mark|].
    destruct (dispatched_term _ _); [|done]. by apply scope_invariant_routine.
  - rewrite run_activity_atom, internalize_atom_cases.
    destruct (bool_decide _); [by apply scope_invariant_mark|].
    destruct (dispatched_atom _); [|done]. by apply scope_invariant_routine.
  - destruct (apply_sort_cnstr_cases bs n owner attached s) as (s1 & Hpart & [->|[-> _]] & _).
    + by eapply scope_invariant_part.
    + eapply scope_invariant_part; [done|]. by apply scope_invariant_mark.
  - by apply scope_invariant_core.
  - eapply scope_invariant_part; [|done]. done.
Qed.

Lemma scope_invariant_push s0 d s :
  scope_invariant s0 d s → scope_invariant s0 (S d) (upd_ctx context_push_scope s).
Proof.
  intros (above & marks & Ht & Hf & Hall & Hs & Hd & Hm & Hp).
  exists above, (marks ++ [length (m_ctx_trail (ctx s))]). simpl.
  rewrite Hs, app_assoc, length_app. simpl. split_and!; try done; [lia|].
  by apply marks_ok_snoc.
Qed.

Lemma scope_invariant_pop s0 d n s :
  0 < n → n ≤ d →
  scope_invariant s0 d s → scope_invariant s0 (d - n) (context_pop_scope n s).
Proof.
  intros Hn Hnd (above & marks & Ht & Hf & Hall & Hs & Hd & Hm & Hp).
  unfold context_pop_scope. rewrite Hs, length_app.
  replace (length (m_ctx_scopes (ctx s0)) + length marks - n)
    with (length (m_ctx_scopes (ctx s0)) + (d - n)) by lia.
  rewrite lookup_total_app_r by lia.
  replace (length (m_ctx_scopes (ctx s0)) + (d - n) - length (m_ctx_scopes (ctx s0)))
    with (d - n) by lia.
  destruct (marks !! (d - n)) as [m|] eqn:Em; [|apply lookup_ge_None in Em; lia].
  rewrite (list_lookup_total_correct _ _ _ Em).
  destruct (marks_ok_take _ _ _ _ _ Hm Em) as [Htake Hhi].
  apply marks_ok_le in Htake as Hlo.
  set (k := length (m_ctx_trail (ctx s)) - m).
  assert (k ≤ length above) as Hk.
  { unfold k. rewrite Ht, length_app. lia. }
  assert (m_ctx_trail (ctx s) = take k above ++ (drop k above ++ m_ctx_trail (ctx s0))) as Hsplit.
  { by rewrite app_assoc, take_drop. }
  pose proof (undo_ctx_trail_stack_app (take k above) s _ Hsplit) as Hundo.
  rewrite length_take, Nat.min_l in Hundo by done. cbv zeta in Hundo.
  destruct Hundo as (Hf' & Ht' & Hs' & Hp').
  exists (drop k above), (take (d - n) marks). simpl.
  rewrite Hf', Ht', Hs', Hp', Hs. split_and!.
  - done.
  - rewrite <- flag_after_undo_app, take_drop. done.
  - by apply Forall_drop.
  - rewrite take_app_ge by lia. f_equal. f_equal. lia.
  - rewrite length_take. lia.
  - replace (length (drop k above ++ m_ctx_trail (ctx s0))) with m; [done|].
    rewrite length_app, length_drop. unfold k.
    rewrite Ht, length_app in Hhi. rewrite Ht, length_app. lia.
  - done.
Qed.

Lemma scope_invariant_events s0 evs d d' s :
  depth_after evs d = Some d' →
  scope_invariant s0 d s → scope_invariant s0 d' (run_events evs s).
Proof.
  revert d s. induction evs as [|e evs IH]; intros d s Hd Hinv; simpl in *.
  - by injection Hd as <-.
  - destruct e as [a| |n]; simpl in *.
    + eapply IH; [done|]. by apply scope_invariant_activity.
    + eapply IH; [done|]. by apply scope_invariant_push.
    + case_decide as Hn; [|done]. destruct Hn. eapply IH; [done|]. by apply scope_invariant_pop.
Qed.

Lemma scope_invariant_refl s : scope_invariant s 0 s.
Proof. exists [], []. simpl. split_and!; try done. by rewrite app_nil_r. Qed.

Lemma scope_invariant_flag s0 d s :
  m_approximates_large_bvs s0 = true → scope_invariant s0 d s →
  m_approximates_large_bvs s = true.
Proof.
  intros H0 (above & marks & Ht & Hf & Hall & _). rewrite H0 in Hf.
  by eapply flag_after_undo_true.
Qed.

Lemma scope_invariant_params s0 d s : scope_invariant s0 d s → m_params s = m_params s0.
Proof. by intros (above & marks & _ & _ & _ & _ & _ & _ & Hp). Qed.

Lemma run_activity_params a s : m_params (run_activity a s) = m_params s.
Proof. eapply scope_invariant_params, scope_invariant_activity, scope_invariant_refl. Qed.

Lemma run_activity_flag a s :
  m_approximates_large_bvs s = true → m_approximates_large_bvs (run_activity a s) = true.
Proof.
  intros H. eapply scope_invariant_flag; [exact H|].
  apply scope_invariant_activity, scope_invariant_refl.
Qed.

Lemma run_routine_flag routine s :
  m_approximates_large_bvs s = true → m_approximates_large_bvs (run_routine routine s) = true.
Proof.
  revert s. induction routine as [|a routine IH]; intros s H; simpl; [done|].
  by apply IH, run_activity_flag.
Qed.

Lemma attempts_oversized_term max_size enable term routine :
  attempts_oversized max_size enable (internalizes_term term routine) ↔
  has_large_sort max_size term ∨
  (dispatched_term enable term = true ∧ Exists (attempts_oversized max_size enable) routine).
Proof.
  simpl. apply or_iff_compat_l, and_iff_compat_l.
  induction routine as [|a routine IH]; [by rewrite Exists_nil|].
  by rewrite Exists_cons, IH.
Qed.

Lemma attempts_oversized_atom max_size enable atom gate_ctx routine :
  attempts_oversized max_size enable (internalizes_atom atom gate_ctx routine) ↔
  has_large_sort max_size atom ∨
  (dispatched_atom atom = true ∧ Exists (attempts_oversized max_size enable) routine).
Proof.
  simpl. apply or_iff_compat_l, and_iff_compat_l.
  induction routine as [|a routine IH]; [by rewrite Exists_nil|].
  by rewrite Exists_cons, IH.
Qed.

(** An oversized attempt, direct or nested, leaves the flag set. *)
Lemma attempts_oversized_flag a s :
  m_bv_blast_max_size (m_params s) ≠ INT_MAX →
  attempts_oversized (m_bv_blast_max_size (m_params s))
    (m_bv_enable_int2bv2int (m_params s)) a →
  m_approximates_large_bvs (run_activity a s) = true.
Proof.
  revert s. induction a as [term routine IH|atom g routine IH|bs n owner attached| |rest]
    using activity_ind_nested; intros s Hmax Hatt.
  - rewrite run_activity_term, internalize_term_cases.
    case_bool_decide as Hd; [apply mark_approximated_flag|].
    apply attempts_oversized_term in Hatt as [Hl|[Hdisp Hex]]; [tauto|].
    rewrite Hdisp. clear Hd Hdisp. revert s Hmax Hex.
    induction IH as [|a routine Ha _ IHr]; intros s Hmax Hex; [by apply Exists_nil in Hex|].
    simpl. apply Exists_cons in Hex as [Hhd|Htl].
    + apply run_routine_flag. by apply Ha.
    + apply IHr; by rewrite run_activity_params.
  - rewrite run_activity_atom, internalize_atom_cases.
    case_bool_decide as Hd; [apply mark_approximated_flag|].
    apply attempts_oversized_atom in Hatt as [Hl|[Hdisp Hex]]; [tauto|].
    rewrite Hdisp. clear Hd Hdisp. revert s Hmax Hex.
    induction IH as [|a routine Ha _ IHr]; intros s Hmax Hex; [by apply Exists_nil in Hex|].
    simpl. apply Exists_cons in Hex as [Hhd|Htl].
    + apply run_routine_flag. by apply Ha.
    + apply IHr; by rewrite run_activity_params.
  - destruct Hatt as [-> Hl].
    destruct (apply_sort_cnstr_cases bs n owner false s) as (s1 & Hpart & _ & Hs1).
    change (run_activity (applies_sort_cnstr bs n owner false) s)
      with (apply_sort_cnstr bs n owner false s).
    apply approximation_part_fields in Hpart as (-> & _).
    rewrite Hs1 by done. apply mark_approximated_flag.
  - done.
  - done.
Qed.

Lemma flag_after_undo_record above :
  flag_after_undo above true = false →
  ∃ a1 a2, above = a1 ++ value_trail_approximates false :: a2.
Proof.
  induction above as [|t above IH]; simpl; [done|]. destruct t as [[|]|]; intros H.
  - destruct (IH H) as (a1 & a2 & ->). by exists (value_trail_approximates true :: a1), a2.
  - by exists [], above.
  - destruct (IH H) as (a1 & a2 & ->). by exists (core_trail :: a1), a2.
Qed.

Lemma depth_after_shift evs k d d' :
  depth_after evs d = Some d' → depth_after evs (k + d) = Some (k + d').
Proof.
  revert d. induction evs as [|e evs IH]; intros d H; simpl in *.
  - by injection H as <-.
  - destruct e as [a| |n].
    + by apply IH.
    + replace (S (k + d)) with (k + S d) by lia. by apply IH.
    + case_decide as Hn; [|done]. rewrite decide_True by lia.
      replace (k + d - n) with (k + (d - n)) by lia. by apply IH.
Qed.

(** Popping the scope that was opened in [s], together with the scopes
    opened inside it, undoes the records pushed since. *)
Lemma scope_invariant_close s d s1 :
  scope_invariant (upd_ctx context_push_scope s) d s1 →
  let s2 := context_pop_scope (S d) s1 in
  m_approximates_large_bvs s2 = m_approximates_large_bvs s ∧
  m_ctx_trail (ctx s2) = m_ctx_trail (ctx s) ∧
  m_ctx_scopes (ctx s2) = m_ctx_scopes (ctx s).
Proof.
  intros (above & marks & Ht & Hf & Hall & Hs & Hd & Hm & Hp). simpl in *.
  unfold context_pop_scope. rewrite Hs, Ht, !length_app. simpl.
  replace (length (m_ctx_scopes (ctx s)) + 1 + length marks - S d)
    with (length (m_ctx_scopes (ctx s))) by lia.
  rewrite <- app_assoc. rewrite lookup_total_app_r by done. rewrite Nat.sub_diag. simpl.
  replace (length above + length (m_ctx_trail (ctx s)) - length (m_ctx_trail (ctx s)))
    with (length above) by lia.
  destruct (undo_ctx_trail_stack_app above s1 _ Ht) as (Hf' & Ht' & Hs' & _).
  rewrite Hf', Ht', Hs', Hf, Hs. rewrite <- app_assoc. by rewrite take_app_length.
Qed.

(** C10: the approximation mark is local to the scope of the context in
    which it was set.  A scope is opened in state [s]; inside it, after any
    events [evs1], an oversized term or atom is handed to the plugin, directly
    or from inside the routine of another term; any events [evs2] follow that
    do not pop the scope the attempt was made in.  Then [final_check_eh]
    answers [FC_GIVEUP]; if the flag was not set before the attempt, the
    attempt has pushed the record that restores the value false on the
    context trail; and popping the scope opened in [s], with the scopes still
    open inside it, puts the flag and the trail back to what they were in
    [s], so that [final_check_eh] answers [FC_DONE] again if it did in [s]. *)
Theorem approximation_is_scope_local (evs1 evs2 : list ctx_event) (a : activity)
    (d1 d2 : nat) (s : theory_bv) :
  m_bv_blast_max_size (m_params s) ≠ INT_MAX →
  attempts_oversized (m_bv_blast_max_size (m_params s))
    (m_bv_enable_int2bv2int (m_params s)) a →
  depth_after evs1 0 = Some d1 →
  depth_after evs2 0 = Some d2 →
  let s1 := run_events evs1 (upd_ctx context_push_scope s) in
  let s2 := run_activity a s1 in
  let s3 := run_events evs2 s2 in
  let s4 := context_pop_scope (S (d1 + d2)) s3 in
  final_check_eh s3 = FC_GIVEUP ∧
  (final_check_eh s1 = FC_DONE →
   ∃ above below,
     m_ctx_trail (ctx s2) =
       above ++ value_trail_approximates false :: below ++ m_ctx_trail (ctx s1)) ∧
  m_approximates_large_bvs s4 = m_approximates_large_bvs s ∧
  m_ctx_trail (ctx s4) = m_ctx_trail (ctx s) ∧
  m_ctx_scopes (ctx s4) = m_ctx_scopes (ctx s) ∧
  (final_check_eh s = FC_DONE → final_check_eh s4 = FC_DONE).
Proof.
  intros Hmax Hatt Hd1 Hd2 s1 s2 s3 s4.
  assert (scope_invariant (upd_ctx context_push_scope s) d1 s1) as Hinv1.
  { eapply scope_invariant_events; [exact Hd1|]. apply scope_invariant_refl. }
  assert (m_params s1 = m_params s) as Hp1 by apply (scope_invariant_params _ _ _ Hinv1).
  assert (m_approximates_large_bvs s2 = true) as Hflag2.
  { apply attempts_oversized_flag; by rewrite Hp1. }
  assert (scope_invariant (upd_ctx context_push_scope s) (d1 + d2) s3) as Hinv3.
  { eapply (scope_invariant_events _ _ (d1 + 0)); [by apply depth_after_shift|].
    rewrite Nat.add_0_r. by apply scope_invariant_activity. }
  split_and!.
  - unfold final_check_eh. erewrite scope_invariant_flag; [done|exact Hflag2|].
    eapply scope_invariant_events; [exact Hd2|]. apply scope_invariant_refl.
  - unfold final_check_eh. destruct (m_approximates_large_bvs s1) eqn:Hflag1; [done|].
    intros _.
    destruct (scope_invariant_activity s1 0 a s1 (scope_invariant_refl s1))
      as (above & marks & Ht & Hf & _).
    fold s2 in Ht, Hf. rewrite Hflag2, Hflag1 in Hf.
    destruct (flag_after_undo_record _ Hf) as (a1 & a2 & ->).
    exists a1, a2. by rewrite Ht, <- app_assoc.
  - apply (scope_invariant_close s (d1 + d2) s3 Hinv3).
  - apply (scope_invariant_close s (d1 + d2) s3 Hinv3).
  - apply (scope_invariant_close s (d1 + d2) s3 Hinv3).
  - unfold final_check_eh.
    destruct (scope_invariant_close s (d1 + d2) s3 Hinv3) as (Hf4 & _). fold s4 in Hf4.
    rewrite Hf4. by destruct (m_approximates_large_bvs s).
Qed.

Lemma approximation_is_scope_local_witness :
  let s1 := run_events
              [ev_activity core_pushes_trail; ev_push_scope; ev_activity core_pushes_trail;
               ev_pop_scope 1]
              (upd_ctx context_push_scope limited_theory) in
  let s3 := run_events [ev_push_scope; ev_activity core_pushes_trail]
              (run_activity nested_attempt s1) in
  final_check_eh s1 = FC_DONE ∧
  final_check_eh s3 = FC_GIVEUP ∧
  final_check_eh (context_pop_scope 1 s3) = FC_GIVEUP ∧
  final_check_eh (context_pop_scope 2 s3) = FC_DONE.
Proof.
  intros s1 s3.
  destruct (approximation_is_scope_local
              [ev_activity core_pushes_trail; ev_push_scope; ev_activity core_pushes_trail;
               ev_pop_scope 1]
              [ev_push_scope; ev_activity core_pushes_trail]
              nested_attempt 0 1 limited_theory)
    as (Hgiveup & _ & _ & _ & _ & Hdone).
  - vm_compute. discriminate.
  - apply attempts_oversized_atom. right. split; [reflexivity|].
    apply Exists_cons_tl, Exists_cons_hd. apply attempts_oversized_term. left.
    apply Exists_cons_hd. vm_compute. reflexivity.
  - reflexivity.
  - reflexivity.
  - split; [reflexivity|]. split; [exact Hgiveup|]. split; [reflexivity|].
    apply Hdone. reflexivity.
Defined.
(** ** Frame lemmas: propagation does not touch the static part *)

Lemma static_part_fields s s' :
  static_part s' = static_part s →
  m_params s' = m_params s ∧ m_var2enode s' = m_var2enode s ∧
  m_var2enode_lim s' = m_var2enode_lim s ∧ m_find s' = m_find s ∧ m_bits s' = m_bits s ∧
  m_bool_var2atom s' = m_bool_var2atom s ∧ m_trail_stack s' = m_trail_stack s ∧
  m_scopes s' = m_scopes s ∧ m_approximates_large_bvs s' = m_approximates_large_bvs s ∧
  m_var_theory (ctx s') = m_var_theory (ctx s).
Proof. unfold static_part, ctx_static. intros H. by simplify_eq. Qed.

Lemma static_upd_ctx f s :
  ctx_static (f (ctx s)) = ctx_static (ctx s) → static_part (upd_ctx f s) = static_part s.
Proof. intros H. unfold static_part. simpl. by rewrite H. Qed.

Lemma static_upd_wpos f s : static_part (upd_wpos f s) = static_part s.
Proof. done. Qed.

Lemma static_upd_zero_one_bits f s : static_part (upd_zero_one_bits f s) = static_part s.
Proof. done. Qed.

Lemma static_upd_fixed_var_table f s : static_part (upd_fixed_var_table f s) = static_part s.
Proof. done. Qed.

Lemma static_upd_prop_queue f s : static_part (upd_prop_queue f s) = static_part s.
Proof. done. Qed.

Lemma ctx_static_set_conflict js c : ctx_static (set_conflict js c) = ctx_static c.
Proof. unfold set_conflict. by destruct (inconsistent c). Qed.

Lemma ctx_static_assign l js c : ctx_static (assign l js c) = ctx_static c.
Proof.
  unfold assign. destruct (get_assignment c l); [apply ctx_static_set_conflict|done..].
Qed.

Lemma ctx_static_emit_axioms axs ehs c : ctx_static (emit_axioms axs ehs c) = ctx_static c.
Proof. done. Qed.

Lemma static_mk_new_diseq_axiom v1 v2 idx s :
  static_part (mk_new_diseq_axiom v1 v2 idx s) = static_part s.
Proof.
  unfold mk_new_diseq_axiom. apply static_upd_ctx. simpl.
  by destruct (m_relevancy (ctx s)).
Qed.

Lemma static_fixed_var_eh v s : static_part (fixed_var_eh v s) = static_part s.
Proof.
  unfold fixed_var_eh. destruct (m_fixed_var_table s !! _); [|done].
  destruct (_ && _); [|done]. by destruct (decide _).
Qed.

Lemma static_find_wpos v s : static_part (find_wpos v s) = static_part s.
Proof.
  unfold find_wpos. destruct (find_unassigned _ _ _ _); [done|].
  destruct (find_unassigned _ _ _ _); [done|]. by rewrite static_fixed_var_eh.
Qed.

Lemma static_merge_zero_one_bits r1 r2 s :
  static_part (merge_zero_one_bits r1 r2 s).2 = static_part s.
Proof.
  unfold merge_zero_one_bits. destruct (bool_decide _); [done|].
  destruct (merge_zero_one_bits_loop _ _ _) as [bits1' [[[v1 v2] idx]|]]; simpl; [|done].
  by rewrite static_mk_new_diseq_axiom.
Qed.

Lemma find_static fuel s s' v : static_part s' = static_part s → find fuel s' v = find fuel s v.
Proof. intros H. apply static_part_fields in H as (_ & _ & _ & Hf & _). unfold find. by rewrite Hf. Qed.

Lemma static_push_occs fuel eqc v2 idx occs s s' :
  push_occs fuel eqc v2 idx occs s = Some s' → static_part s' = static_part s.
Proof.
  revert s. induction occs as [|[cv cidx] occs IH]; intros s H; simpl in H.
  - by simplify_eq.
  - destruct (if eqc then _ else _) as [b|]; [|done]. simpl in H.
    apply IH in H. rewrite H. by destruct b.
Qed.

Lemma static_assign_bit fuel c v1 v2 idx a eqc s s' :
  assign_bit fuel c v1 v2 idx a eqc s = Some s' → static_part s' = static_part s.
Proof.
  unfold assign_bit. intros H. destruct (decide (c = false_literal)).
  - simplify_eq. apply static_upd_ctx, ctx_static_set_conflict.
  - destruct (m_bool_var2atom _ !! _) as [[occs|]|]; [|done..].
    apply static_push_occs in H. rewrite H.
    destruct (decide _); rewrite ?static_find_wpos;
      apply static_upd_ctx, ctx_static_assign.
Qed.

Lemma static_propagate_ring fuel v idx bit val v2 s r s' :
  propagate_ring fuel v idx bit val v2 s = Some (r, s') → static_part s' = static_part s.
Proof.
  revert v2 s. induction fuel as [|fuel IH]; intros v2 s H; simpl in H; [done|].
  destruct (decide (v2 = v)); [by simplify_eq|].
  destruct (decide (val ≠ _)).
  - destruct (assign_bit _ _ _ _ _ _ _ _) as [s1|] eqn:E; [|done]. simpl in H.
    apply static_assign_bit in E.
    destruct (inconsistent (ctx s1)); [by injection H as <- <-|].
    apply IH in H. by rewrite H.
  - by apply IH in H.
Qed.

Lemma static_propagate_loop fuel i s s' :
  propagate_loop fuel i s = Some s' → static_part s' = static_part s.
Proof.
  revert i s. induction fuel as [|fuel IH]; intros i s H; simpl in H; [done|].
  destruct (m_prop_queue s !! i) as [[v idx]|]; [|by simplify_eq].
  destruct (propagate_ring _ _ _ _ _ _ _) as [[r s2]|] eqn:E; [|done]. simpl in H.
  apply static_propagate_ring in E.
  assert (static_part s2 = static_part s) as Hs2.
  { rewrite E. destruct (decide _); [apply static_find_wpos|done]. }
  destruct r; [by injection H as <-|]. apply IH in H. by rewrite H.
Qed.

Lemma static_assign_eh fuel v is_true s s' :
  assign_eh fuel v is_true s = Some s' → static_part s' = static_part s.
Proof.
  unfold assign_eh, propagate_bits.
  destruct (m_bool_var2atom s !! v) as [[occs|]|]; [| |done]; intros H.
  - by apply static_propagate_loop in H.
  - by simplify_eq.
Qed.

Lemma static_merge_pass fuel v1 v2 idxs changed s r :
  merge_pass fuel v1 v2 idxs changed s = Some r →
  static_part (match r with pass_done _ s' => s' | pass_returned s' => s' end) = static_part s.
Proof.
  revert changed s. induction idxs as [|idx idxs IH]; intros changed s H; simpl in H.
  - by simplify_eq.
  - destruct (decide (_ = _)); [by apply IH in H|].
    destruct (if decide _ then _ else _) as [s1|] eqn:E; [|done]. simpl in H.
    assert (static_part s1 = static_part s) as Hs1.
    { destruct (decide _); [by apply static_assign_bit in E|].
      destruct (decide _); [by apply static_assign_bit in E|]. by simplify_eq. }
    destruct (inconsistent (ctx s1)); [by injection H as <-|].
    destruct (decide (_ ∧ _)); [done|]. apply IH in H. by rewrite H.
Qed.

Lemma static_merge_loop fuel v1 v2 sz s r s' :
  merge_loop fuel v1 v2 sz s = Some (r, s') → static_part s' = static_part s.
Proof.
  revert s. induction fuel as [|fuel IH]; intros s H; simpl in H; [done|].
  destruct (merge_pass _ _ _ _ _ _) as [[changed s1|s1]|] eqn:E; [| |done]; simpl in H;
    apply static_merge_pass in E.
  - destruct changed; [|by injection H as <- <-]. apply IH in H. by rewrite H.
  - by injection H as <- <-.
Qed.

Lemma static_merge_eh fuel r1 r2 v1 v2 s s' :
  merge_eh fuel r1 r2 v1 v2 s = Some s' → static_part s' = static_part s.
Proof.
  unfold merge_eh. pose proof (static_merge_zero_one_bits r1 r2 s) as Hz.
  destruct (merge_zero_one_bits r1 r2 s) as [ok s1]. simpl in Hz.
  destruct ok; simpl; intros H; [|by injection H as <-].
  destruct (merge_loop _ _ _ _ _) as [[r s3]|] eqn:E; [|done]. simpl in H.
  apply static_merge_loop in E.
  destruct r; [injection H as <-; rewrite E; exact Hz|].
  apply static_propagate_loop in H. rewrite H, E. exact Hz.
Qed.

Lemma static_unmerge_eh fuel v1 v2 s s' :
  unmerge_eh fuel v1 v2 s = Some s' → static_part s' = static_part s.
Proof.
  unfold unmerge_eh. destruct (bool_decide _); intros H; [by injection H as <-|].
  destruct (unmerge_scan _ _ _ _ _); [|done]. by injection H as <-.
Qed.

Lemma static_expand_diseq v1 v2 s : static_part (expand_diseq v1 v2 s) = static_part s.
Proof. unfold expand_diseq. by destruct (existsb _ _). Qed.

Lemma static_new_diseq_eh v1 v2 s : static_part (new_diseq_eh v1 v2 s) = static_part s.
Proof. unfold new_diseq_eh. destruct (is_bv s v1); [apply static_expand_diseq|done]. Qed.

(** ** Union-find: pointer updates and their inverses *)

Lemma list_insert_lookup_total_id {A} `{Inhabited A} (l : list A) (i : nat) :
  <[i := l !!! i]> l = l.
Proof.
  destruct (decide (i < length l)) as [Hi|Hi].
  - apply list_insert_id. by apply list_lookup_lookup_total_lt.
  - apply list_insert_ge. lia.
Qed.

Lemma uf_find_root_is_root fuel uf v r :
  uf_find_root fuel uf v = Some r → uf_find uf !!! r = r.
Proof.
  revert v. induction fuel as [|fuel IH]; intros v H; simpl in H; [done|].
  destruct (decide (uf_find uf !!! v = v)); [by simplify_eq|]. by eapply IH.
Qed.

Lemma roots_in_range (F : list nat) r1 r2 :
  F !!! r1 = r1 → F !!! r2 = r2 → r1 ≠ r2 → r1 < length F ∧ r2 < length F.
Proof.
  intros H1 H2 Hne.
  assert (∀ r, F !!! r = r → length F ≤ r → r = 0) as Hdef.
  { intros r Hr Hge. rewrite list_lookup_total_alt, lookup_ge_None_2 in Hr by done. done. }
  destruct (decide (r1 < length F)) as [Hr1|Hr1], (decide (r2 < length F)) as [Hr2|Hr2];
    try done.
  - rewrite (Hdef r2) in * by (done || lia). lia.
  - rewrite (Hdef r1) in * by (done || lia). lia.
  - rewrite (Hdef r1), (Hdef r2) in Hne by (done || lia). done.
Qed.

Lemma swap_entries_involutive r1 r2 (l : list nat) :
  r1 ≠ r2 → r1 < length l → r2 < length l →
  swap_entries r1 r2 (swap_entries r1 r2 l) = l.
Proof.
  intros Hne H1 H2. unfold swap_entries.
  assert (<[r2:=l !!! r1]> (<[r1:=l !!! r2]> l) !!! r1 = l !!! r2) as ->.
  { rewrite list_lookup_total_insert_ne by done. by rewrite list_lookup_total_insert_eq. }
  assert (<[r2:=l !!! r1]> (<[r1:=l !!! r2]> l) !!! r2 = l !!! r1) as ->.
  { rewrite list_lookup_total_insert_eq; [done|]. by rewrite length_insert. }
  rewrite (list_insert_insert_ne _ r1 r2) by done.
  rewrite !list_insert_insert_eq.
  by rewrite !list_insert_lookup_total_id.
Qed.

Lemma uf_unsplice_splice uf r1 r2 :
  uf_lengths uf → uf_find uf !!! r1 = r1 → uf_find uf !!! r2 = r2 → r1 ≠ r2 →
  uf_unsplice r1 (uf_splice r1 r2 uf) = uf.
Proof.
  intros [Hs Hn] H1 H2 Hne.
  destruct (roots_in_range _ _ _ H1 H2 Hne) as [Hr1 Hr2].
  destruct uf as [F S N]. unfold uf_unsplice, uf_splice. simpl in *.
  rewrite list_lookup_total_insert_eq by done. f_equal.
  - rewrite list_insert_insert_eq. rewrite <- H1 at 2. apply list_insert_lookup_total_id.
  - rewrite list_lookup_total_insert_eq by lia.
    rewrite list_lookup_total_insert_ne by done.
    rewrite list_insert_insert_eq.
    replace (S !!! r2 + S !!! r1 - S !!! r1) with (S !!! r2) by lia.
    apply list_insert_lookup_total_id.
  - apply swap_entries_involutive; [done|lia..].
Qed.

Lemma uf_pop_back_mk_var uf : uf_pop_back (uf_mk_var uf) = uf.
Proof. destruct uf. unfold uf_pop_back, uf_mk_var. simpl. by rewrite !removelast_last. Qed.

Lemma uf_lengths_mk_var uf : uf_lengths uf → uf_lengths (uf_mk_var uf).
Proof. intros [? ?]. unfold uf_lengths, uf_mk_var. simpl. rewrite !length_app. simpl. lia. Qed.

Lemma uf_lengths_splice r1 r2 uf : uf_lengths uf → uf_lengths (uf_splice r1 r2 uf).
Proof.
  intros [? ?]. unfold uf_lengths, uf_splice, swap_entries. simpl.
  by rewrite !length_insert.
Qed.

(** ** Forests of parent pointers *)

Lemma root_of_in_range p v r : root_of p v r → v < length p ∧ p !! r = Some r.
Proof.
  induction 1 as [v Hv|v w r Hv Hne _ [_ IH]].
  - split; [by eapply lookup_lt_Some|done].
  - split; [by eapply lookup_lt_Some|done].
Qed.

Lemma root_of_det p v r r' : root_of p v r → root_of p v r' → r = r'.
Proof.
  intros H. revert r'. induction H as [v Hv|v w r Hv Hne _ IH]; intros r' H'.
  - inversion H' as [? Hv'|? w' ? Hv' Hne' Hw']; subst; [done|]. congruence.
  - inversion H' as [? Hv'|? w' ? Hv' Hne' Hw']; subst; [congruence|].
    apply IH. congruence.
Qed.

Lemma forest_ok_parent p v w : forest_ok p → p !! v = Some w → w < length p.
Proof.
  intros Hok Hv. destruct (Hok v) as [r Hr]; [by eapply lookup_lt_Some|].
  inversion Hr as [? Hv'|? w' ? Hv' Hne' Hw']; subst.
  - rewrite Hv in Hv'. injection Hv' as ->. by eapply lookup_lt_Some.
  - rewrite Hv in Hv'. injection Hv' as ->. by apply root_of_in_range in Hw' as [? _].
Qed.

Lemma find_root_of fuel uf v r :
  forest_ok (uf_find uf) → v < length (uf_find uf) →
  uf_find_root fuel uf v = Some r → root_of (uf_find uf) v r.
Proof.
  intros Hok. revert v. induction fuel as [|fuel IH]; intros v Hv H; simpl in H; [done|].
  apply list_lookup_lookup_total_lt in Hv as Hl.
  case_decide as Hd.
  - injection H as <-. apply root_of_self. by rewrite Hd in Hl.
  - eapply root_of_step; [exact Hl|done|]. apply IH; [|done].
    by eapply forest_ok_parent.
Qed.

Lemma root_of_find uf v r :
  root_of (uf_find uf) v r → ∃ fuel, uf_find_root fuel uf v = Some r.
Proof.
  induction 1 as [v Hv|v w r Hv Hne _ [fuel IH]].
  - exists 1. simpl. rewrite (list_lookup_total_correct _ _ _ Hv).
    by rewrite decide_True.
  - exists (S fuel). simpl. rewrite (list_lookup_total_correct _ _ _ Hv).
    by rewrite decide_False.
Qed.

(** *** A new variable *)

Lemma root_of_snoc p v r : root_of p v r → root_of (p ++ [length p]) v r.
Proof.
  induction 1 as [v Hv|v w r Hv Hne _ IH].
  - apply root_of_self. by apply lookup_app_l_Some.
  - eapply root_of_step; [|done|done]. by apply lookup_app_l_Some.
Qed.

Lemma root_of_snoc_new p : root_of (p ++ [length p]) (length p) (length p).
Proof. apply root_of_self. by rewrite lookup_app_r, Nat.sub_diag. Qed.

Lemma root_of_snoc_inv p v r :
  forest_ok p → root_of (p ++ [length p]) v r →
  (v = length p ∧ r = length p) ∨ root_of p v r.
Proof.
  intros Hok. induction 1 as [v Hv|v w r Hv Hne _ IH].
  - destruct (decide (v < length p)) as [Hlt|Hge].
    + right. apply root_of_self. by rewrite lookup_app_l in Hv.
    + left. apply lookup_lt_Some in Hv. rewrite length_app in Hv. simpl in Hv. lia.
  - destruct (decide (v < length p)) as [Hlt|Hge].
    + rewrite lookup_app_l in Hv by done. right.
      destruct IH as [[-> _]|IH].
      * apply (forest_ok_parent _ _ _ Hok) in Hv. lia.
      * by eapply root_of_step.
    + apply lookup_lt_Some in Hv as Hv'. rewrite length_app in Hv'. simpl in Hv'.
      assert (v = length p) as -> by lia.
      rewrite lookup_app_r, Nat.sub_diag in Hv by done. simpl in Hv. congruence.
Qed.

Lemma forest_ok_snoc p : forest_ok p → forest_ok (p ++ [length p]).
Proof.
  intros Hok v Hv. rewrite length_app in Hv. simpl in Hv.
  destruct (decide (v < length p)) as [Hlt|Hge].
  - destruct (Hok v Hlt) as [r Hr]. exists r. by apply root_of_snoc.
  - assert (v = length p) as -> by lia. eexists. apply root_of_snoc_new.
Qed.

(** *** Linking the root [r1] below the root [r2] *)

Lemma root_of_link p r1 r2 v r :
  r1 ≠ r2 → p !! r1 = Some r1 → p !! r2 = Some r2 →
  root_of p v r → root_of (<[r1 := r2]> p) v (if decide (r = r1) then r2 else r).
Proof.
  intros Hne H1 H2. induction 1 as [v Hv|v w r Hv Hvw _ IH].
  - case_decide as Hd.
    + subst v. eapply root_of_step.
      * apply list_lookup_insert_eq. by eapply lookup_lt_Some.
      * done.
      * apply root_of_self. by rewrite list_lookup_insert_ne.
    + apply root_of_self. by rewrite list_lookup_insert_ne.
  - eapply root_of_step; [|done|exact IH].
    rewrite list_lookup_insert_ne; [done|]. congruence.
Qed.

Lemma forest_ok_link p r1 r2 :
  r1 ≠ r2 → p !! r1 = Some r1 → p !! r2 = Some r2 →
  forest_ok p → forest_ok (<[r1 := r2]> p).
Proof.
  intros Hne H1 H2 Hok v Hv. rewrite length_insert in Hv.
  destruct (Hok v Hv) as [r Hr]. eexists. by apply root_of_link.
Qed.

Lemma root_of_link_inv p r1 r2 v r' :
  r1 ≠ r2 → p !! r1 = Some r1 → p !! r2 = Some r2 → forest_ok p →
  root_of (<[r1 := r2]> p) v r' →
  ∃ r, root_of p v r ∧ r' = if decide (r = r1) then r2 else r.
Proof.
  intros Hne H1 H2 Hok H'.
  apply root_of_in_range in H' as Hv. destruct Hv as [Hv _]. rewrite length_insert in Hv.
  destruct (Hok v Hv) as [r Hr]. exists r. split; [done|].
  eapply root_of_det; [exact H'|]. by apply root_of_link.
Qed.

(** *** Cutting the child [r1] off its parent [r2] *)

Lemma root_of_cut p r1 r2 v r :
  p !! r1 = Some r2 → r2 ≠ r1 → p !! r2 = Some r2 →
  root_of p v r →
  ∃ r', root_of (<[r1 := r1]> p) v r' ∧ (r' = r ∨ (r' = r1 ∧ r = r2)).
Proof.
  intros H1 Hne H2. induction 1 as [v Hv|v w r Hv Hvw Hw (r' & IH & Hr')].
  - exists v. split; [|by left]. apply root_of_self.
    rewrite list_lookup_insert_ne; [done|]. congruence.
  - destruct (decide (v = r1)) as [->|Hd].
    + exists r1. split.
      * apply root_of_self. apply list_lookup_insert_eq. by eapply lookup_lt_Some.
      * right. split; [done|]. rewrite H1 in Hv. injection Hv as <-.
        eapply root_of_det; [exact Hw|]. by apply root_of_self.
    + exists r'. split; [|done]. eapply root_of_step; [|done|exact IH].
      by rewrite list_lookup_insert_ne.
Qed.

Lemma forest_ok_cut p r1 r2 :
  p !! r1 = Some r2 → r2 ≠ r1 → p !! r2 = Some r2 →
  forest_ok p → forest_ok (<[r1 := r1]> p).
Proof.
  intros H1 Hne H2 Hok v Hv. rewrite length_insert in Hv.
  destruct (Hok v Hv) as [r Hr].
  destruct (root_of_cut _ _ _ _ _ H1 Hne H2 Hr) as (r' & Hr' & _). by exists r'.
Qed.

Lemma same_width_cut p r1 r2 bits :
  p !! r1 = Some r2 → r2 ≠ r1 → p !! r2 = Some r2 → forest_ok p →
  same_width p bits → same_width (<[r1 := r1]> p) bits.
Proof.
  intros H1 Hne H2 Hok Hw v1 v2 r' Hv1 Hv2.
  assert (∀ v, root_of (<[r1 := r1]> p) v r' →
               ∃ r, root_of p v r ∧ (r' = r ∨ (r' = r1 ∧ r = r2))) as Hback.
  { intros v Hv. apply root_of_in_range in Hv as Hr. destruct Hr as [Hr _].
    rewrite length_insert in Hr. destruct (Hok v Hr) as [r Hroot]. exists r.
    split; [done|].
    destruct (root_of_cut _ _ _ _ _ H1 Hne H2 Hroot) as (r'' & Hr'' & Hcase).
    by rewrite (root_of_det _ _ _ _ Hv Hr''). }
  destruct (Hback v1 Hv1) as (ra & Ha & Hca), (Hback v2 Hv2) as (rb & Hb & Hcb).
  assert (ra = rb) as <-; [|by eapply Hw].
  assert (∀ v, ¬ root_of p v r1) as Hnot.
  { intros v Hv. apply root_of_in_range in Hv as [_ Hv]. congruence. }
  destruct Hca as [Ea|[Ea1 Ea2]], Hcb as [Eb|[Eb1 Eb2]]; [congruence| | |congruence].
  - exfalso. apply (Hnot v1). by rewrite <- Eb1, Ea.
  - exfalso. apply (Hnot v2). by rewrite <- Ea1, Eb.
Qed.

Lemma same_width_link p r1 r2 bits v1 v2 :
  r1 ≠ r2 → p !! r1 = Some r1 → p !! r2 = Some r2 → forest_ok p →
  root_of p v1 r1 → root_of p v2 r2 → length (bits !!! v1) = length (bits !!! v2) →
  same_width p bits → same_width (<[r1 := r2]> p) bits.
Proof.
  intros Hne H1 H2 Hok Hr1 Hr2 Hlen Hw w1 w2 r' Hw1 Hw2.
  destruct (root_of_link_inv _ _ _ _ _ Hne H1 H2 Hok Hw1) as (ra & Ha & Hca).
  destruct (root_of_link_inv _ _ _ _ _ Hne H1 H2 Hok Hw2) as (rb & Hb & Hcb).
  subst r'. repeat case_decide; subst.
  - by eapply Hw.
  - rewrite (Hw _ _ _ Ha Hr1), Hlen. by eapply Hw.
  - rewrite (Hw _ _ _ Ha Hr2), <- Hlen. by eapply Hw.
  - by eapply Hw.
Qed.

Lemma uf_find_root_mono fuel fuel' uf v r :
  uf_find_root fuel uf v = Some r → fuel ≤ fuel' → uf_find_root fuel' uf v = Some r.
Proof.
  revert fuel' v. induction fuel as [|fuel IH]; intros fuel' v H Hle; simpl in H; [done|].
  destruct fuel' as [|fuel']; [lia|]. simpl.
  destruct (decide (uf_find uf !!! v = v)); [done|]. apply IH; [done|lia].
Qed.

Lemma find_total_mono F fuel s v :
  is_Some (find F s v) → F ≤ fuel → is_Some (find fuel s v).
Proof. intros [r Hr] Hle. exists r. by eapply uf_find_root_mono. Qed.

(** In a forest in which every variable has a root, [find] returns for
    every argument, also out of range, where the parent read is the default
    element. *)
Lemma find_any uf x :
  forest_ok (uf_find uf) → ∃ F r, ∀ fuel, F ≤ fuel → uf_find_root fuel uf x = Some r.
Proof.
  intros Hok.
  assert (∀ v, v < length (uf_find uf) →
               ∃ F r, ∀ fuel, F ≤ fuel → uf_find_root fuel uf v = Some r) as Hin.
  { intros v Hv. destruct (Hok v Hv) as [r Hr]. destruct (root_of_find _ _ _ Hr) as [F HF].
    exists F, r. intros fuel Hle. by eapply uf_find_root_mono. }
  destruct (decide (x < length (uf_find uf))) as [Hx|Hx]; [by apply Hin|].
  assert (uf_find uf !!! x = 0) as Hdef.
  { rewrite list_lookup_total_alt, lookup_ge_None_2 by lia. done. }
  destruct (decide (x = 0)) as [->|Hx0].
  - exists 1, 0. intros [|fuel] Hle; [lia|]. simpl. by rewrite Hdef, decide_True.
  - destruct (decide (0 < length (uf_find uf))) as [H0|H0].
    + destruct (Hin 0 H0) as (F & r & HF). exists (S F), r.
      intros [|fuel] Hle; [lia|]. simpl. rewrite Hdef, decide_False by done.
      apply HF. lia.
    + exists 2, 0. intros [|[|fuel]] Hle; [lia..|]. simpl.
      rewrite Hdef, decide_False by done.
      assert (uf_find uf !!! 0 = 0) as ->; [|by rewrite decide_True].
      rewrite list_lookup_total_alt, lookup_ge_None_2 by lia. done.
Qed.
(** ** Scopes: what the undo records do *)

Lemma undo_shape_sound fuel t s s' :
  undo fuel t s = Some s' →
  ∃ sh, undo_shape t (shape_of s) = Some sh ∧ static_part s' = static_part (with_shape sh s).
Proof.
  destruct t as [bv|bv| |r1]; simpl; intros H.
  - injection H as <-. by eexists.
  - destruct (m_bool_var2atom s !! bv) as [[[|occ occs]|]|]; try done.
    injection H as <-. by eexists.
  - injection H as <-. by eexists.
  - apply static_unmerge_eh in H. eexists. split; [done|]. by rewrite H.
Qed.

Lemma undo_trail_stack_unwind fuel above s rest s' :
  m_trail_stack s = above ++ rest →
  undo_trail_stack fuel (length above) s = Some s' →
  ∃ sh, unwind above (shape_of s) = Some sh ∧
        static_part s' = static_part (upd_trail_stack (λ _, rest) id (with_shape sh s)).
Proof.
  revert s. induction above as [|t above IH]; intros s Ht H; simpl in *.
  - injection H as <-. exists (shape_of s). split; [done|].
    unfold static_part. simpl. by rewrite Ht.
  - rewrite Ht in H. destruct (undo fuel t s) as [s1|] eqn:E; [|done]. simpl in H.
    destruct (undo_shape_sound _ _ _ _ E) as (sh1 & Hsh1 & Hst1).
    rewrite Hsh1. simpl.
    pose proof (static_part_fields _ _ Hst1) as (_ & _ & _ & Hf & _ & Ha & Htr & _).
    simpl in *.
    destruct (IH (upd_trail_stack (drop 1) id s1)) as (sh & Hsh & Hst).
    { simpl. by rewrite Htr, Ht. }
    { done. }
    exists sh. split.
    + unfold shape_of in Hsh. simpl in Hsh. rewrite Ha, Hf in Hsh. by destruct sh1.
    + rewrite Hst. unfold static_part in Hst1 |- *. simpl in *. congruence.
Qed.

(** ** Scopes: the operations keep the scope unwindable *)

Lemma take_length_le {A} (l l' : list A) n :
  take n l = l' → length l' = n → n ≤ length l.
Proof. intros <- H. rewrite length_take in H. lia. Qed.

Lemma unwind_forests_ok above sh : unwind_forests above sh → forest_ok (uf_find sh.2).
Proof. destruct above; simpl; tauto. Qed.

Lemma in_scope_mk_var s s1 n : in_scope_of s s1 → in_scope_of s (mk_var n s1).
Proof.
  intros (Hsc & Hlim & (above & Htr & Hun & Hfo) & Hb & He & Hown & Huf).
  split; [done|]. split; [done|]. split; [|split; [|split; [|split]]].
  - exists (mk_var_trail :: above). simpl. split; [by rewrite Htr|].
    rewrite uf_pop_back_mk_var. split; [exact Hun|]. split; [|exact Hfo].
    apply forest_ok_snoc. by apply unwind_forests_ok in Hfo.
  - simpl. rewrite take_app_le; [done|]. by eapply take_length_le.
  - simpl. rewrite take_app_le; [done|]. by eapply take_length_le.
  - done.
  - simpl. by apply uf_lengths_mk_var.
Qed.

Lemma in_scope_add_bit s s1 v l s1' :
  in_scope_of s s1 → length (m_bits s) ≤ v → add_bit v l s1 = Some s1' → in_scope_of s s1'.
Proof.
  intros (Hsc & Hlim & (above & Htr & Hun & Hfo) & Hb & He & Hown & Huf) Hv.
  apply unwind_forests_ok in Hfo as Hok.
  unfold add_bit. destruct (decide (lit_var l = true_bool_var)) as [Hc|Hc].
  - intros [= <-]. unfold in_scope_of, shape_of. simpl.
    split; [done|]. split; [done|]. split; [by exists above|].
    split; [|done]. by rewrite take_insert_ge.
  - simpl. destruct (decide (m_var_theory (ctx s1) !! lit_var l = Some bv_family_id)) as [Ht|Ht].
    + destruct (m_bool_var2atom s1 !! lit_var l) as [[occs|]|] eqn:Ha; try done.
      intros [= <-]. unfold find_new_diseq_axioms.
      rewrite find_new_diseq_axioms_loop_emit.
      unfold in_scope_of, shape_of. simpl.
      split; [done|]. split; [done|]. split; [|split; [|split; [|split]]].
      * exists (add_var_pos_trail (lit_var l) :: above). split; [by rewrite Htr|].
        simpl. rewrite lookup_insert_eq. simpl. rewrite insert_insert_eq.
        rewrite insert_id by done. done.
      * by rewrite take_insert_ge.
      * done.
      * intros bv Hbv. simpl in *.
        destruct (decide (bv = lit_var l)) as [->|Hne]; [done|].
        rewrite lookup_insert_ne in Hbv by done. by apply Hown.
      * done.
    + intros [= <-]. simpl.
      assert (m_bool_var2atom s1 !! lit_var l = None) as Hnone.
      { destruct (m_bool_var2atom s1 !! lit_var l) eqn:Ha; [|done].
        exfalso. apply Ht, Hown. by rewrite Ha. }
      unfold in_scope_of, shape_of. simpl.
      split; [done|]. split; [done|]. split; [|split; [|split; [|split]]].
      * exists (mk_atom_trail (lit_var l) :: above). split; [by rewrite Htr|].
        simpl. rewrite !delete_insert_eq. rewrite delete_id by done. done.
      * by rewrite take_insert_ge.
      * done.
      * intros bv Hbv. simpl in *.
        destruct (decide (bv = lit_var l)) as [->|Hne]; [by rewrite lookup_insert_eq|].
        rewrite !lookup_insert_ne in Hbv by done. rewrite lookup_insert_ne by done.
        by apply Hown.
      * done.
Qed.

Lemma in_scope_static s s1 s1' :
  in_scope_of s s1 → static_part s1' = static_part s1 → in_scope_of s s1'.
Proof.
  intros (Hsc & Hlim & (above & Htr & Hun & Hfo) & Hb & He & Hown & Huf) Hst.
  apply static_part_fields in Hst as (_ & He' & Hl' & Hf' & Hb' & Ha' & Htr' & Hsc' & _ & Hvt').
  unfold in_scope_of, atoms_owned, shape_of.
  rewrite Hsc', Hl', Htr', Hb', He', Ha', Hf', Hvt'. split; [done|]. split; [done|].
  split; [by exists above|]. done.
Qed.

Lemma uf_link_fields r1 r2 s :
  static_part (uf_link r1 r2 s) =
  static_part (upd_trail_stack (cons (merge_trail r1)) id (upd_find (uf_splice r1 r2) s)).
Proof. done. Qed.

(** Both orders of [union_find::merge] lead to the same tables. *)
Lemma uf_merge_static o fuel v1 v2 s s' :
  uf_merge o fuel v1 v2 s = Some s' →
  static_part s' = static_part s ∨
  ∃ r1 r2, uf_find (m_find s) !!! r1 = r1 ∧ uf_find (m_find s) !!! r2 = r2 ∧ r1 ≠ r2 ∧
           (find fuel s v1 = Some r1 ∧ find fuel s v2 = Some r2 ∨
            find fuel s v1 = Some r2 ∧ find fuel s v2 = Some r1) ∧
           static_part s' = static_part (uf_link r1 r2 s).
Proof.
  unfold uf_merge.
  destruct (find fuel s v1) as [r1|] eqn:E1; [|done]. simpl.
  destruct (find fuel s v2) as [r2|] eqn:E2; [|done]. simpl.
  case_decide as Hne; [intros [= <-]; by left|].
  apply uf_find_root_is_root in E1 as R1. apply uf_find_root_is_root in E2 as R2.
  assert (∀ ra rb,
            match o with
            | merge_eh_then_link => s1 ← merge_eh fuel rb ra v2 v1 s; Some (uf_link ra rb s1)
            | link_then_merge_eh => merge_eh fuel rb ra v2 v1 (uf_link ra rb s)
            end = Some s' →
            static_part s' = static_part (uf_link ra rb s)) as Hgen.
  { intros ra rb H. destruct o.
    - destruct (merge_eh fuel rb ra v2 v1 s) as [sm|] eqn:Em; [|done]. simpl in H.
      injection H as <-. apply static_merge_eh in Em.
      unfold static_part, uf_link in *. simpl. congruence.
    - by apply static_merge_eh in H. }
  case_decide as Hlt; intros H; apply Hgen in H; right.
  - exists r2, r1. split_and!; try done. by right.
  - exists r1, r2. split_and!; try done. by left.
Qed.

Lemma in_scope_new_eq s s1 o fuel v1 v2 s1' :
  in_scope_of s s1 → new_eq_eh o fuel v1 v2 s1 = Some s1' → in_scope_of s s1'.
Proof.
  intros Hin H. apply uf_merge_static in H as [Hst|(ra & rb & Hra & Hrb & Hab & _ & Hst)].
  - by eapply in_scope_static.
  - eapply in_scope_static; [|exact Hst].
    destruct Hin as (Hsc & Hlim & (above & Htr & Hun & Hfo) & Hb & He & Hown & Huf).
    apply unwind_forests_ok in Hfo as Hok.
    destruct (roots_in_range _ _ _ Hra Hrb Hab) as [Hr1 Hr2].
    unfold uf_link.
    split; [done|]. split; [done|]. split; [|split; [|split; [|split]]]; try done.
    + exists (merge_trail ra :: above). split; [by simpl; rewrite Htr|].
      simpl. rewrite uf_unsplice_splice by done. split; [exact Hun|]. split; [|exact Hfo].
      apply forest_ok_link; [done| | |exact Hok].
      * rewrite <- Hra at 2. by apply list_lookup_lookup_total_lt.
      * rewrite <- Hrb at 2. by apply list_lookup_lookup_total_lt.
    + simpl. by apply uf_lengths_splice.
Qed.

Lemma in_scope_run_ops s o fuel ops s1 s1' :
  in_scope_of s s1 → Forall (targets_new_var (length (m_bits s))) ops →
  run_ops o fuel ops s1 = Some s1' → in_scope_of s s1'.
Proof.
  revert s1. induction ops as [|op ops IH]; intros s1 Hin Hops H; simpl in H.
  - by injection H as <-.
  - apply Forall_cons in Hops as [Ho Hops].
    destruct (run_op o fuel op s1) as [s1o|] eqn:E; [|done]. simpl in H.
    eapply IH; [|done|done].
    destruct op as [n|v l|v1 v2]; simpl in E.
    + injection E as <-. by apply in_scope_mk_var.
    + by eapply in_scope_add_bit.
    + by eapply in_scope_new_eq.
Qed.

Lemma in_scope_push s :
  atoms_owned s → uf_lengths (m_find s) → forest_ok (uf_find (m_find s)) →
  in_scope_of s (push_scope_eh s).
Proof.
  intros Hown Huf Hok. split; [done|]. split; [done|]. split; [by exists []|].
  simpl. by rewrite !firstn_all.
Qed.

Lemma pop_scope_in_scope s s1 fuel s2 :
  in_scope_of s s1 → length (m_bits s) = length (m_var2enode s) →
  pop_scope_eh fuel 1 s1 = Some s2 →
  m_bool_var2atom s2 = m_bool_var2atom s ∧ m_bits s2 = m_bits s ∧ m_find s2 = m_find s ∧
  m_trail_stack s2 = m_trail_stack s ∧ m_scopes s2 = m_scopes s ∧
  m_var2enode s2 = m_var2enode s ∧ m_var2enode_lim s2 = m_var2enode_lim s.
Proof.
  intros (Hsc & Hlim & (above & Htr & Hun & Hfo) & Hb & He & Hown & Huf) Hlen.
  unfold pop_scope_eh, trail_stack_pop_scope.
  rewrite Hsc, Htr, !length_app. simpl.
  replace (length (m_scopes s) + 1 - 1) with (length (m_scopes s)) by lia.
  rewrite lookup_total_app_r by done. rewrite Nat.sub_diag. simpl.
  replace (length above + length (m_trail_stack s) - length (m_trail_stack s))
    with (length above) by lia.
  destruct (undo_trail_stack fuel (length above) s1) as [su|] eqn:E; [|done]. simpl.
  destruct (undo_trail_stack_unwind _ _ _ _ _ Htr E) as (sh & Hsh & Hst).
  rewrite Hun in Hsh. injection Hsh as <-.
  apply static_part_fields in Hst as (_ & He' & Hl' & Hf' & Hb' & Ha' & Htr' & Hsc' & _).
  simpl in *. intros [= <-]. simpl.
  unfold get_old_num_vars. simpl. rewrite Hl', Hlim, length_app. simpl.
  replace (length (m_var2enode_lim s) + 1 - 1) with (length (m_var2enode_lim s)) by lia.
  rewrite lookup_total_app_r by done. rewrite Nat.sub_diag. simpl.
  rewrite Ha', Hf', Htr', Hb', He', Hsc', Hsc. rewrite <- Hlen, Hb, Hlen, He.
  by rewrite !take_app_length.
Qed.

(** *** The pop returns *)

Lemma unmerge_scan_total s v1 bits j :
  forest_ok (uf_find (m_find s)) →
  ∃ F n, ∀ fuel, F ≤ fuel → unmerge_scan fuel s v1 bits j = Some n.
Proof.
  intros Hok. induction j as [|j (F2 & n & IH)]; simpl.
  - by exists 0, 0.
  - destruct (find_any (m_find s) (m_owner (bits !!! j)) Hok) as (F1 & r & Hr).
    destruct (decide (r = v1)) as [Hd|Hd].
    + exists F1, (S j). intros fuel Hle. unfold find. rewrite Hr by done. simpl.
      by rewrite decide_True.
    + exists (F1 `max` F2), n. intros fuel Hle. unfold find. rewrite Hr by lia. simpl.
      rewrite decide_False by done. apply IH. lia.
Qed.

Lemma unmerge_eh_total s v1 v2 :
  forest_ok (uf_find (m_find s)) →
  ∃ F s', ∀ fuel, F ≤ fuel → unmerge_eh fuel v1 v2 s = Some s'.
Proof.
  intros Hok. unfold unmerge_eh. destruct (bool_decide _); [by exists 0, s|].
  destruct (unmerge_scan_total s v1 (m_zero_one_bits s !!! v1)
              (length (m_zero_one_bits s !!! v1)) Hok) as (F & n & Hn).
  eexists F, _. intros fuel Hle. by rewrite Hn.
Qed.

Lemma undo_total t s sh :
  undo_shape t (shape_of s) = Some sh → forest_ok (uf_find sh.2) →
  ∃ F s', ∀ fuel, F ≤ fuel → undo fuel t s = Some s'.
Proof.
  destruct t as [bv|bv| |r1]; simpl; intros Hsh Hok.
  - by eexists 0, _.
  - destruct (m_bool_var2atom s !! bv) as [[[|occ occs]|]|]; try done. by eexists 0, _.
  - by eexists 0, _.
  - injection Hsh as <-. by apply unmerge_eh_total.
Qed.

Lemma unwind_forests_cons t above sh :
  unwind_forests (t :: above) sh →
  ∃ sh', undo_shape t sh = Some sh' ∧ unwind_forests above sh'.
Proof. simpl. intros [_ H]. destruct (undo_shape t sh) as [sh'|]; [by exists sh'|done]. Qed.

Lemma undo_trail_stack_total above s rest :
  m_trail_stack s = above ++ rest → unwind_forests above (shape_of s) →
  ∃ F s', ∀ fuel, F ≤ fuel → undo_trail_stack fuel (length above) s = Some s'.
Proof.
  revert s. induction above as [|t above IH]; intros s Ht Hfo.
  - by exists 0, s.
  - destruct (unwind_forests_cons _ _ _ Hfo) as (sh' & Hsh' & Hfo').
    destruct (undo_total t s sh' Hsh' (unwind_forests_ok _ _ Hfo')) as (F1 & s1 & Hs1).
    destruct (undo_shape_sound F1 t s s1 (Hs1 F1 (le_n _))) as (sh1 & Hsh1 & Hst1).
    rewrite Hsh' in Hsh1. injection Hsh1 as <-.
    pose proof (static_part_fields _ _ Hst1) as (_ & _ & _ & Hf & _ & Ha & Htr & _).
    simpl in Hf, Ha, Htr.
    destruct (IH (upd_trail_stack (drop 1) id s1)) as (F2 & s' & Hs').
    { simpl. by rewrite Htr, Ht. }
    { unfold shape_of. simpl. rewrite Ha, Hf. by destruct sh'. }
    exists (F1 `max` F2), s'. intros fuel Hle. simpl. rewrite Ht. simpl.
    rewrite Hs1 by lia. simpl. apply Hs'. lia.
Qed.

Lemma pop_scope_total s s1 :
  in_scope_of s s1 → ∃ F s2, ∀ fuel, F ≤ fuel → pop_scope_eh fuel 1 s1 = Some s2.
Proof.
  intros (Hsc & Hlim & (above & Htr & Hun & Hfo) & Hb & He & Hown & Huf).
  destruct (undo_trail_stack_total above s1 _ Htr Hfo) as (F & su & Hsu).
  eexists F, _. intros fuel Hle. unfold pop_scope_eh, trail_stack_pop_scope.
  rewrite Hsc, Htr, !length_app. simpl.
  replace (length (m_scopes s) + 1 - 1) with (length (m_scopes s)) by lia.
  rewrite lookup_total_app_r by done. rewrite Nat.sub_diag. simpl.
  replace (length above + length (m_trail_stack s) - length (m_trail_stack s))
    with (length above) by lia.
  rewrite Hsu by done. simpl. reflexivity.
Qed.

(** C4, as amended: when every [add_bit] performed inside the scope is
    applied to a variable created inside the scope, [pop_scope_eh(1)]
    returns, given enough fuel for the [find] calls of [unmerge_eh], and puts
    the atom table (as a map from boolean variables to atoms with their
    occurrence lists), the bit arrays and the union-find back to what they
    were when [push_scope_eh] was called, whichever way [union_find::merge]
    orders the link and [merge_eh]. *)
Theorem pop_scope_restores (o : merge_order) (fuel : nat) (ops : list scope_op)
    (s s1 : theory_bv) :
  atoms_owned s → uf_lengths (m_find s) → forest_ok (uf_find (m_find s)) →
  length (m_bits s) = length (m_var2enode s) →
  Forall (targets_new_var (get_num_vars s)) ops →
  run_ops o fuel ops (push_scope_eh s) = Some s1 →
  ∃ fuel0 s2,
    (∀ fuel', fuel0 ≤ fuel' → pop_scope_eh fuel' 1 s1 = Some s2) ∧
    m_bool_var2atom s2 = m_bool_var2atom s ∧ m_bits s2 = m_bits s ∧ m_find s2 = m_find s ∧
    (∀ fuel' s2', pop_scope_eh fuel' 1 s1 = Some s2' →
       m_bool_var2atom s2' = m_bool_var2atom s ∧ m_bits s2' = m_bits s ∧
       m_find s2' = m_find s).
Proof.
  intros Hown Huf Hok Hlen Hops Hrun.
  assert (in_scope_of s s1) as Hin.
  { eapply in_scope_run_ops; [by apply in_scope_push| |done].
    unfold get_num_vars in Hops. by rewrite Hlen. }
  assert (∀ fuel' s2', pop_scope_eh fuel' 1 s1 = Some s2' →
            m_bool_var2atom s2' = m_bool_var2atom s ∧ m_bits s2' = m_bits s ∧
            m_find s2' = m_find s) as Hany.
  { intros fuel' s2' Hpop.
    destruct (pop_scope_in_scope _ _ _ _ Hin Hlen Hpop) as (? & ? & ? & _). done. }
  destruct (pop_scope_total s s1 Hin) as (fuel0 & s2 & Hpop).
  exists fuel0, s2. split; [exact Hpop|].
  destruct (Hany fuel0 s2 (Hpop fuel0 (le_n _))) as (? & ? & ?). done.
Qed.

Lemma pop_scope_restores_witness :
  ∃ s1 s2,
    run_ops link_then_merge_eh 5 scope_ops_example (push_scope_eh one_var_example) = Some s1 ∧
    length (m_bits s1) = 3 ∧
    pop_scope_eh 5 1 s1 = Some s2 ∧
    m_bool_var2atom s2 = m_bool_var2atom one_var_example ∧
    m_bits s2 = m_bits one_var_example ∧
    m_find s2 = m_find one_var_example.
Proof.
  destruct (run_ops link_then_merge_eh 5 scope_ops_example (push_scope_eh one_var_example))
    as [s1|] eqn:E1; [|vm_compute in E1; discriminate].
  assert (length (m_bits s1) = 3) as Hlen1.
  { vm_compute in E1. injection E1 as <-. reflexivity. }
  destruct (pop_scope_eh 5 1 s1) as [s2|] eqn:E2;
    [|vm_compute in E1; injection E1 as <-; vm_compute in E2; discriminate].
  exists s1, s2. split; [reflexivity|]. split; [exact Hlen1|]. split; [exact E2|].
  destruct (pop_scope_restores link_then_merge_eh 5 scope_ops_example one_var_example s1)
    as (fuel0 & s2' & _ & _ & _ & _ & Hany).
  - intros bv [a Ha]. vm_compute in Ha. discriminate.
  - split; reflexivity.
  - intros v Hv. destruct v as [|v]; [|vm_compute in Hv; lia].
    exists 0. by apply root_of_self.
  - reflexivity.
  - repeat constructor; simpl; vm_compute; lia.
  - exact E1.
  - exact (Hany 5 s2 E2).
Defined.

(** C4, as stated, fails: a bit added inside the scope to a variable that
    existed when the scope was opened is still there after the pop; only the
    atom table and the union-find are restored. *)
Lemma pop_scope_keeps_added_bit :
  ∃ s1 s2,
    run_ops link_then_merge_eh 0 [op_add_bit 0 (Literal 1 false)] (push_scope_eh one_var_example)
      = Some s1 ∧
    pop_scope_eh 0 1 s1 = Some s2 ∧
    m_bits one_var_example = [[]] ∧
    m_bits s2 = [[Literal 1 false]] ∧
    m_bool_var2atom s2 = m_bool_var2atom one_var_example ∧
    m_find s2 = m_find one_var_example.
Proof.
  eexists. eexists. split; [vm_compute; reflexivity|].
  split; [vm_compute; reflexivity|].
  repeat split; vm_compute; reflexivity.
Qed.

(** ** Propagation only adds to the assignment *)

Lemma grows_refl s : grows s s.
Proof. split; done. Qed.

Lemma grows_trans s1 s2 s3 : grows s1 s2 → grows s2 s3 → grows s1 s3.
Proof. intros [H1 H2] [H3 H4]. split; [by etrans|]. auto. Qed.

Lemma grows_dyn s s' : dyn (ctx s') = dyn (ctx s) → grows s s'.
Proof. unfold dyn, grows, inconsistent. intros [= -> ->]. done. Qed.

Lemma get_assignment_mono c c' l :
  m_assignment c ⊆ m_assignment c' → get_assignment c l ≠ l_undef →
  get_assignment c' l = get_assignment c l.
Proof.
  unfold get_assignment. intros Hsub Hl.
  destruct (m_assignment c !! lit_var l) as [b|] eqn:E; [|done].
  by rewrite (lookup_weaken _ _ _ _ E Hsub).
Qed.

Lemma get_assignment_neg c l :
  get_assignment c (neg l) =
  match get_assignment c l with l_true => l_false | l_false => l_true | l_undef => l_undef end.
Proof.
  unfold get_assignment, neg. simpl.
  destruct (m_assignment c !! lit_var l) as [b|]; [|done]. by destruct b, (lit_sign l).
Qed.

Lemma inconsistent_set_conflict js c : inconsistent (set_conflict js c) = true.
Proof. unfold set_conflict. by destruct (inconsistent c) eqn:E. Qed.

Lemma assignment_set_conflict js c : m_assignment (set_conflict js c) = m_assignment c.
Proof. unfold set_conflict. by destruct (inconsistent c). Qed.

Lemma assign_grows l js c :
  m_assignment c ⊆ m_assignment (assign l js c) ∧
  (inconsistent c = true → inconsistent (assign l js c) = true).
Proof.
  unfold assign. destruct (get_assignment c l) eqn:E.
  - rewrite assignment_set_conflict. split; [done|]. intros _. apply inconsistent_set_conflict.
  - split; [|done]. simpl. apply insert_subseteq. unfold get_assignment in E.
    destruct (m_assignment c !! lit_var l) as [b|]; [|done].
    by destruct (xorb b (lit_sign l)).
  - done.
Qed.

(** After [assign] the literal is true or the context is inconsistent. *)
Lemma assign_result l js c :
  inconsistent (assign l js c) = true ∨ get_assignment (assign l js c) l = l_true.
Proof.
  unfold assign. destruct (get_assignment c l) eqn:E.
  - left. apply inconsistent_set_conflict.
  - right. unfold get_assignment. simpl. rewrite lookup_insert_eq.
    by destruct (lit_sign l).
  - by right.
Qed.

Lemma dyn_fixed_var_eh v s : dyn (ctx (fixed_var_eh v s)) = dyn (ctx s).
Proof.
  unfold fixed_var_eh. destruct (m_fixed_var_table s !! _); [|done].
  destruct (_ && _); [|done]. by destruct (decide _).
Qed.

Lemma dyn_find_wpos v s : dyn (ctx (find_wpos v s)) = dyn (ctx s).
Proof.
  unfold find_wpos. destruct (find_unassigned _ _ _ _); [done|].
  destruct (find_unassigned _ _ _ _); [done|]. by rewrite dyn_fixed_var_eh.
Qed.

Lemma ctx_push_occs fuel eqc v2 idx occs s s' :
  push_occs fuel eqc v2 idx occs s = Some s' → ctx s' = ctx s.
Proof.
  revert s. induction occs as [|[cv cidx] occs IH]; intros s H; simpl in H.
  - by injection H as <-.
  - destruct (if eqc then _ else _) as [b|]; [|done]. simpl in H.
    apply IH in H. rewrite H. by destruct b.
Qed.

Lemma dyn_assign_bit fuel c v1 v2 idx a eqc s s' :
  assign_bit fuel c v1 v2 idx a eqc s = Some s' →
  dyn (ctx s') =
  dyn (if decide (c = false_literal)
       then set_conflict (bit_eq_justification v1 v2 c a) (ctx s)
       else assign c (bit_eq_justification v1 v2 c a) (ctx s)).
Proof.
  unfold assign_bit. intros H. destruct (decide (c = false_literal)).
  - by injection H as <-.
  - destruct (m_bool_var2atom _ !! _) as [[occs|]|]; [|done..].
    apply ctx_push_occs in H. rewrite H.
    destruct (decide (_ = idx)); [by rewrite dyn_find_wpos|done].
Qed.

Lemma grows_assign_bit fuel c v1 v2 idx a eqc s s' :
  assign_bit fuel c v1 v2 idx a eqc s = Some s' → grows s s'.
Proof.
  intros H. apply dyn_assign_bit in H. unfold dyn in H. unfold grows, inconsistent in *.
  injection H as -> ->. destruct (decide (c = false_literal)).
  - rewrite assignment_set_conflict. split; [done|]. intros _.
    apply inconsistent_set_conflict.
  - apply assign_grows.
Qed.

(** What [assign_bit] achieves when it is asked to give [bit2] the value
    [val] that it does not have yet. *)
Lemma assign_bit_result fuel v1 v2 idx a eqc s s' bit2 val :
  val ≠ l_undef → get_assignment (ctx s) bit2 ≠ val →
  assign_bit fuel (polarize val bit2) v1 v2 idx a eqc s = Some s' →
  inconsistent (ctx s') = true ∨
  (get_assignment (ctx s) bit2 = l_undef ∧ get_assignment (ctx s') bit2 = val).
Proof.
  intros Hval Hne H. pose proof (grows_assign_bit _ _ _ _ _ _ _ _ _ H) as [Hsub _].
  apply dyn_assign_bit in H. unfold dyn in H.
  assert (inconsistent (ctx s') = true ∨ get_assignment (ctx s') (polarize val bit2) = l_true)
    as [Hi|Ht]; [|by left|].
  { unfold inconsistent, get_assignment in *. injection H as -> ->.
    destruct (decide (polarize val bit2 = false_literal)).
    - left. apply inconsistent_set_conflict.
    - apply assign_result. }
  right.
  assert (get_assignment (ctx s') bit2 = val) as Hfinal.
  { unfold polarize in Ht. destruct (decide (val = l_false)) as [->|Hf].
    - rewrite get_assignment_neg in Ht. by destruct (get_assignment (ctx s') bit2).
    - by destruct val. }
  split; [|done].
  destruct (decide (get_assignment (ctx s) bit2 = l_undef)) as [|Hdef]; [done|].
  rewrite (get_assignment_mono _ _ _ Hsub Hdef) in Hfinal. done.
Qed.

Lemma grows_propagate_ring fuel v idx bit val v2 s r s' :
  propagate_ring fuel v idx bit val v2 s = Some (r, s') → grows s s'.
Proof.
  revert v2 s. induction fuel as [|fuel IH]; intros v2 s H; simpl in H; [done|].
  destruct (decide (v2 = v)); [injection H as <- <-; apply grows_refl|].
  destruct (decide (val ≠ _)).
  - destruct (assign_bit _ _ _ _ _ _ _ _) as [s1|] eqn:E; [|done]. simpl in H.
    apply grows_assign_bit in E.
    destruct (inconsistent (ctx s1)); [by injection H as <- <-|].
    apply IH in H. by eapply grows_trans.
  - by apply IH in H.
Qed.

Lemma grows_propagate_loop fuel i s s' :
  propagate_loop fuel i s = Some s' → grows s s'.
Proof.
  revert i s. induction fuel as [|fuel IH]; intros i s H; simpl in H; [done|].
  destruct (m_prop_queue s !! i) as [[v idx]|]; [|injection H as <-; by apply grows_dyn].
  destruct (propagate_ring _ _ _ _ _ _ _) as [[r s2]|] eqn:E; [|done]. simpl in H.
  apply grows_propagate_ring in E.
  assert (grows s s2) as Hs2.
  { eapply grows_trans; [|exact E].
    destruct (decide _); [apply grows_dyn, dyn_find_wpos|apply grows_refl]. }
  destruct r; [by injection H as <-|]. apply IH in H. by eapply grows_trans.
Qed.

(** ** [merge_eh] carries assigned bits across *)

Lemma bit_at_static s s' v i : static_part s' = static_part s → bit_at s' v i = bit_at s v i.
Proof.
  intros H. apply static_part_fields in H as (_ & _ & _ & _ & Hb & _).
  unfold bit_at. by rewrite Hb.
Qed.

Lemma get_assignment_grows s s' l :
  grows s s' → get_assignment (ctx s) l ≠ l_undef →
  get_assignment (ctx s') l = get_assignment (ctx s) l.
Proof. intros [Hsub _]. by apply get_assignment_mono. Qed.

Lemma both_assigned_grows s s' v1 v2 i b :
  b ≠ l_undef → static_part s' = static_part s → grows s s' →
  both_assigned s v1 v2 i b → both_assigned s' v1 v2 i b.
Proof.
  intros Hb Hst Hg [H1 H2]. unfold both_assigned.
  rewrite !(bit_at_static _ _ _ _ Hst).
  rewrite !(get_assignment_grows _ _ _ Hg) by congruence. done.
Qed.

Lemma one_assigned_grows s s' v1 v2 i b :
  b ≠ l_undef → static_part s' = static_part s → grows s s' →
  one_assigned s v1 v2 i b → one_assigned s' v1 v2 i b.
Proof.
  intros Hb Hst Hg H. unfold one_assigned.
  rewrite !(bit_at_static _ _ _ _ Hst).
  destruct H as [H|H]; [left|right]; rewrite (get_assignment_grows _ _ _ Hg); congruence.
Qed.

(** The body of the loop of [merge_eh] at one index. *)
Lemma merge_step_grows fuel v1 v2 idx s s1 :
  (if decide (get_assignment (ctx s) (bit_at s v1 idx) ≠ l_undef)
   then assign_bit fuel (polarize (get_assignment (ctx s) (bit_at s v1 idx)) (bit_at s v2 idx))
          v1 v2 idx (polarize (get_assignment (ctx s) (bit_at s v1 idx)) (bit_at s v1 idx)) true s
   else if decide (get_assignment (ctx s) (bit_at s v2 idx) ≠ l_undef)
   then assign_bit fuel (polarize (get_assignment (ctx s) (bit_at s v2 idx)) (bit_at s v1 idx))
          v2 v1 idx (polarize (get_assignment (ctx s) (bit_at s v2 idx)) (bit_at s v2 idx)) true s
   else Some s) = Some s1 →
  static_part s1 = static_part s ∧ grows s s1.
Proof.
  intros H. destruct (decide _).
  - split; [by eapply static_assign_bit|by eapply grows_assign_bit].
  - destruct (decide _).
    + split; [by eapply static_assign_bit|by eapply grows_assign_bit].
    + injection H as <-. split; [done|apply grows_refl].
Qed.

Lemma merge_step_result fuel v1 v2 idx s s1 b :
  b ≠ l_undef →
  get_assignment (ctx s) (bit_at s v1 idx) ≠ get_assignment (ctx s) (bit_at s v2 idx) →
  one_assigned s v1 v2 idx b →
  (if decide (get_assignment (ctx s) (bit_at s v1 idx) ≠ l_undef)
   then assign_bit fuel (polarize (get_assignment (ctx s) (bit_at s v1 idx)) (bit_at s v2 idx))
          v1 v2 idx (polarize (get_assignment (ctx s) (bit_at s v1 idx)) (bit_at s v1 idx)) true s
   else if decide (get_assignment (ctx s) (bit_at s v2 idx) ≠ l_undef)
   then assign_bit fuel (polarize (get_assignment (ctx s) (bit_at s v2 idx)) (bit_at s v1 idx))
          v2 v1 idx (polarize (get_assignment (ctx s) (bit_at s v2 idx)) (bit_at s v2 idx)) true s
   else Some s) = Some s1 →
  inconsistent (ctx s1) = true ∨ both_assigned s1 v1 v2 idx b.
Proof.
  intros Hb Hne Hone H.
  destruct (merge_step_grows _ _ _ _ _ _ H) as [Hst Hg].
  unfold both_assigned. unfold one_assigned in Hone. rewrite !(bit_at_static _ _ _ _ Hst).
  set (bit1 := bit_at s v1 idx) in *. set (bit2 := bit_at s v2 idx) in *.
  destruct (decide (get_assignment (ctx s) bit1 ≠ l_undef)) as [Hd1|Hd1].
  - destruct (assign_bit_result _ _ _ _ _ _ _ _ bit2 _ Hd1 (not_eq_sym Hne) H)
      as [Hi|[Hu H2]]; [by left|right].
    rewrite (get_assignment_grows _ _ _ Hg) by done. rewrite H2.
    destruct Hone as [Hone|Hone]; [done|congruence].
  - apply dec_stable in Hd1.
    destruct (decide (get_assignment (ctx s) bit2 ≠ l_undef)) as [Hd2|Hd2].
    + destruct (assign_bit_result _ _ _ _ _ _ _ _ bit1 _ Hd2 Hne H)
        as [Hi|[Hu H1]]; [by left|right].
      rewrite (get_assignment_grows _ _ bit2 Hg) by done. rewrite H1.
      destruct Hone as [Hone|Hone]; [congruence|done].
    + apply dec_stable in Hd2. congruence.
Qed.

Lemma merge_pass_grows fuel v1 v2 idxs changed s r :
  merge_pass fuel v1 v2 idxs changed s = Some r →
  grows s (match r with pass_done _ s' => s' | pass_returned s' => s' end) ∧
  match r with pass_done _ _ => True | pass_returned s' => inconsistent (ctx s') = true end.
Proof.
  revert changed s. induction idxs as [|idx idxs IH]; intros changed s H; simpl in H.
  - injection H as <-. split; [apply grows_refl|done].
  - destruct (decide (_ = _)); [by apply IH in H|].
    destruct (if decide _ then _ else _) as [s1|] eqn:E; [|done]. simpl in H.
    destruct (merge_step_grows _ _ _ _ _ _ E) as [Hst Hg].
    destruct (inconsistent (ctx s1)) eqn:Ei; [by injection H as <-|].
    destruct (decide (_ ∧ _)); [done|]. apply IH in H as [H1 H2].
    split; [by eapply grows_trans|done].
Qed.

Lemma merge_pass_spec fuel v1 v2 i b idxs changed s r :
  b ≠ l_undef →
  merge_pass fuel v1 v2 idxs changed s = Some r →
  both_assigned s v1 v2 i b ∨ (one_assigned s v1 v2 i b ∧ i ∈ idxs) →
  match r with
  | pass_done _ s' => both_assigned s' v1 v2 i b
  | pass_returned s' => inconsistent (ctx s') = true
  end.
Proof.
  intros Hb. revert changed s. induction idxs as [|idx idxs IH]; intros changed s H Hpre;
    simpl in H.
  - injection H as <-. destruct Hpre as [|[_ Hin]]; [done|]. by apply elem_of_nil in Hin.
  - destruct (decide (_ = _)) as [Heq|Hne].
    + apply IH in H; [done|].
      destruct Hpre as [|[Hone Hin]]; [by left|].
      apply elem_of_cons in Hin as [->|Hin]; [left|by right].
      unfold both_assigned. destruct Hone as [Hone|Hone]; split; congruence.
    + destruct (if decide _ then _ else _) as [s1|] eqn:E; [|done]. simpl in H.
      destruct (merge_step_grows _ _ _ _ _ _ E) as [Hst Hg].
      destruct (inconsistent (ctx s1)) eqn:Ei; [by injection H as <-|].
      destruct (decide (_ ∧ _)); [done|]. apply IH in H; [done|].
      destruct Hpre as [Hboth|[Hone Hin]]; [left; by eapply both_assigned_grows|].
      apply elem_of_cons in Hin as [->|Hin].
      * left. destruct (merge_step_result _ _ _ _ _ _ _ Hb Hne Hone E); [congruence|done].
      * right. split; [by eapply one_assigned_grows|done].
Qed.

Lemma merge_loop_spec fuel v1 v2 sz i b s returned s' :
  b ≠ l_undef → i < sz → one_assigned s v1 v2 i b →
  merge_loop fuel v1 v2 sz s = Some (returned, s') →
  if returned then inconsistent (ctx s') = true else both_assigned s' v1 v2 i b.
Proof.
  intros Hb Hi. revert s. induction fuel as [|fuel IH]; intros s Hone H; simpl in H; [done|].
  destruct (merge_pass _ _ _ _ _ _) as [r|] eqn:E; [|done]. simpl in H.
  pose proof (merge_pass_spec _ _ _ i b _ _ _ _ Hb E) as Hspec.
  destruct r as [changed s1|s1].
  - assert (both_assigned s1 v1 v2 i b) as Hboth.
    { apply Hspec. right. split; [done|]. apply elem_of_seq. lia. }
    destruct changed; [|by injection H as <- <-].
    apply IH in H; [done|]. left. apply Hboth.
  - injection H as <- <-. apply Hspec. right. split; [done|]. apply elem_of_seq. lia.
Qed.

Lemma merge_zero_one_bits_ok r1 r2 s :
  (merge_zero_one_bits r1 r2 s).1 = true →
  static_part (merge_zero_one_bits r1 r2 s).2 = static_part s ∧
  ctx (merge_zero_one_bits r1 r2 s).2 = ctx s.
Proof.
  intros Hok. split; [apply static_merge_zero_one_bits|].
  unfold merge_zero_one_bits in *. destruct (bool_decide _); [done|].
  destruct (merge_zero_one_bits_loop _ _ _) as [bits1' [[[v1 v2] idx]|]]; simpl in *; done.
Qed.

(** The part of C1 that holds on the code: what [merge_eh] guarantees for a
    bit that is assigned when it is called. *)
Lemma merge_eh_partial fuel r1 r2 v1 v2 s s' i b :
  b ≠ l_undef → i < length (m_bits s !!! v1) → one_assigned s v1 v2 i b →
  merge_eh fuel r1 r2 v1 v2 s = Some s' →
  conflict_reported r1 r2 s s' ∨ both_assigned s' v1 v2 i b.
Proof.
  intros Hb Hi Hone. unfold merge_eh, conflict_reported.
  pose proof (merge_zero_one_bits_ok r1 r2 s) as Hz.
  destruct (merge_zero_one_bits r1 r2 s) as [ok s1]. simpl in *.
  destruct ok; simpl; [|by left; left].
  destruct (Hz eq_refl) as [Hst Hctx]. clear Hz.
  set (s2 := upd_prop_queue (λ _, []) s1).
  assert (static_part s2 = static_part s) as Hst2 by done.
  assert (one_assigned s2 v1 v2 i b) as Hone2.
  { unfold one_assigned in *. rewrite !(bit_at_static _ _ _ _ Hst2). simpl. by rewrite Hctx. }
  destruct (merge_loop _ _ _ _ _) as [[returned s3]|] eqn:E; [|done]. simpl.
  pose proof (static_merge_loop _ _ _ _ _ _ _ E) as Hst3.
  eapply merge_loop_spec in E; [|done| |done].
  2: { apply static_part_fields in Hst as (_ & _ & _ & _ & Hbits & _). simpl. by rewrite Hbits. }
  destruct returned.
  - intros [= <-]. by left; right.
  - intros H. right. unfold propagate_bits in H.
    eapply both_assigned_grows; [done|by eapply static_propagate_loop|
                                 by eapply grows_propagate_loop|done].
Qed.

(** ** Termination of propagation *)

Lemma occ_weight_other asg bv x (p : bool_var * atom) :
  p.1 ≠ bv → occ_weight (<[bv := x]> asg) p = occ_weight asg p.
Proof. intros Hne. unfold occ_weight. by rewrite lookup_insert_ne. Qed.

Lemma sum_list_with_ext_in {A} (f g : A → nat) (l : list A) :
  (∀ x, x ∈ l → f x = g x) → sum_list_with f l = sum_list_with g l.
Proof.
  induction l as [|x l IH]; intros H; simpl; [done|].
  rewrite H by constructor. rewrite IH; [done|]. intros y Hy. apply H. by constructor.
Qed.

Lemma pending_fresh (asg : gmap bool_var bool) (atoms : gmap bool_var atom) bv occs x :
  atoms !! bv = Some (bit_atom occs) → asg !! bv = None →
  sum_list_with (occ_weight (<[bv := x]> asg)) (map_to_list atoms) + length occs =
  sum_list_with (occ_weight asg) (map_to_list atoms).
Proof.
  intros Ha Hn. rewrite <- !(map_to_list_delete atoms bv _ Ha). simpl.
  rewrite (sum_list_with_ext_in (occ_weight (<[bv:=x]> asg)) (occ_weight asg)).
  - unfold occ_weight at 1 3. simpl. rewrite lookup_insert_eq, Hn. lia.
  - intros [k a] Hk. apply elem_of_map_to_list in Hk. apply occ_weight_other. simpl.
    intros ->. by rewrite lookup_delete_eq in Hk.
Qed.

Lemma push_occs_total fuel F eqc v2 idx occs s :
  eqc = true ∨ ((∀ v, is_Some (find F s v)) ∧ F ≤ fuel) →
  ∃ pushed, push_occs fuel eqc v2 idx occs s = Some (upd_prop_queue (λ q, q ++ pushed) s) ∧
            length pushed ≤ length occs ∧ ∀ p, p ∈ pushed → p ∈ occs.
Proof.
  intros Hcond. revert s Hcond. induction occs as [|[cv cidx] occs IH]; intros s Hcond; simpl.
  - exists []. split; [|split; [done|]].
    + destruct s. unfold upd_prop_queue. simpl. by rewrite app_nil_r.
    + intros p Hp. by apply elem_of_nil in Hp.
  - assert (∃ b, (if eqc then Some true
                  else find fuel s cv
                       ≫= λ r1, find fuel s v2
                       ≫= λ r2, Some (bool_decide (r1 ≠ r2) || bool_decide (cidx ≠ idx)))
                 = Some b) as [b ->].
    { destruct eqc; [by eexists|]. destruct Hcond as [|[Hf Hle]]; [done|].
      destruct (find_total_mono F fuel s cv (Hf cv) Hle) as [r1 ->].
      destruct (find_total_mono F fuel s v2 (Hf v2) Hle) as [r2 ->].
      by eexists. }
    simpl. destruct b.
    + destruct (IH (upd_prop_queue (λ q, q ++ [(cv, cidx)]) s)) as (pushed & Hp & Hl & Hin).
      { destruct Hcond as [|[Hf Hle]]; [by left|right]. done. }
      exists ((cv, cidx) :: pushed). split; [|split].
      * rewrite Hp. destruct s. unfold upd_prop_queue. simpl. by rewrite <- app_assoc.
      * simpl. lia.
      * intros p [->|Hp']%elem_of_cons; [constructor|]. constructor. by apply Hin.
    + destruct (IH s Hcond) as (pushed & Hp & Hl & Hin).
      exists pushed. split; [done|]. split; [simpl; lia|].
      intros p Hp'. constructor. by apply Hin.
Qed.

Lemma queue_fixed_var_eh v s : m_prop_queue (fixed_var_eh v s) = m_prop_queue s.
Proof.
  unfold fixed_var_eh. destruct (m_fixed_var_table s !! _); [|done].
  destruct (_ && _); [|done]. by destruct (decide _).
Qed.

Lemma queue_find_wpos v s : m_prop_queue (find_wpos v s) = m_prop_queue s.
Proof.
  unfold find_wpos. destruct (find_unassigned _ _ _ _); [done|].
  destruct (find_unassigned _ _ _ _); [done|]. by rewrite queue_fixed_var_eh.
Qed.

Lemma assign_assigned c js (cx : context) : m_assignment (assign c js cx) !! lit_var c ≠ None.
Proof.
  unfold assign. destruct (get_assignment cx c) eqn:E.
  - rewrite assignment_set_conflict. unfold get_assignment in E.
    by destruct (m_assignment cx !! lit_var c).
  - simpl. by rewrite lookup_insert_eq.
  - unfold get_assignment in E. by destruct (m_assignment cx !! lit_var c).
Qed.

Lemma propagation_ready_static K F s s' :
  static_part s' = static_part s → propagation_ready K F s → propagation_ready K F s'.
Proof.
  intros Hst (H1 & H2 & H3).
  pose proof (static_part_fields _ _ Hst) as (_ & _ & _ & Hf & Hb & Ha & _).
  unfold propagation_ready, bit_at, next, find. rewrite Hf, Hb, Ha. done.
Qed.

Lemma true_assigned_grows s s' : grows s s' → true_assigned s → true_assigned s'.
Proof. intros [Hsub _] H. unfold true_assigned in *. by eapply lookup_weaken. Qed.

Lemma queue_assigned_weaken s s' :
  static_part s' = static_part s → grows s s' → m_prop_queue s' = m_prop_queue s →
  queue_assigned s → queue_assigned s'.
Proof.
  intros Hst [Hsub _] Hq H w j Hin. rewrite Hq in Hin.
  destruct (H w j Hin) as (bv & occs & Ha & Ho & Hn).
  apply static_part_fields in Hst as (_ & _ & _ & _ & _ & Hat & _).
  exists bv, occs. rewrite Hat. split; [done|]. split; [done|].
  destruct (m_assignment (ctx s) !! bv) as [x|] eqn:E; [|done].
  by rewrite (lookup_weaken _ _ _ _ E Hsub).
Qed.

(** A bit over the constant variable that does not have the value [val] can
    only be given that value by assigning [false_literal]. *)
Lemma polarize_constant s val bit2 :
  true_assigned s → lit_var bit2 = true_bool_var → val ≠ l_undef →
  get_assignment (ctx s) bit2 ≠ val → polarize val bit2 = false_literal.
Proof.
  intros Ht Hv Hval Hne. destruct bit2 as [bv sg]. simpl in Hv. subst bv.
  unfold get_assignment in Hne. simpl in Hne. rewrite Ht in Hne.
  unfold polarize, neg, false_literal. destruct sg, val; simpl in *; done.
Qed.

Lemma assign_bit_total K F fuel c v1 v2 idx a eqc s :
  propagation_ready K F s → queue_assigned s →
  eqc = true ∨ F ≤ fuel →
  c = false_literal ∨
    (lit_var c ≠ true_bool_var ∧ ∃ w j, lit_var c = lit_var (bit_at s w j)) →
  ∃ s', assign_bit fuel c v1 v2 idx a eqc s = Some s' ∧ queue_assigned s' ∧
        (c ≠ false_literal → get_assignment (ctx s) c = l_undef →
         length (m_prop_queue s') + pending s' ≤ length (m_prop_queue s) + pending s).
Proof.
  intros Hready Hq Hfuel Hc. unfold assign_bit.
  destruct (decide (c = false_literal)) as [Hcf|Hcf].
  - eexists. split; [done|]. split; [|done].
    apply (queue_assigned_weaken s); [| | |done]; [|split|done].
    + apply static_upd_ctx, ctx_static_set_conflict.
    + simpl. by rewrite assignment_set_conflict.
    + intros _. apply inconsistent_set_conflict.
  - destruct Hc as [|[Hcv (w & j & Hwj)]]; [done|].
    destruct Hready as (H1 & H2 & H3).
    destruct (H1 w j) as [occs Hocc]; [by rewrite <- Hwj|]. rewrite <- Hwj in Hocc.
    set (js := bit_eq_justification v1 v2 c a).
    set (s1 := upd_ctx (assign c js) s).
    set (s2 := if decide (m_wpos s1 !!! v2 = idx) then find_wpos v2 s1 else s1).
    assert (static_part s2 = static_part s) as Hst2.
    { unfold s2. destruct (decide _); rewrite ?static_find_wpos;
        apply static_upd_ctx, ctx_static_assign. }
    assert (dyn (ctx s2) = dyn (assign c js (ctx s))) as Hdyn2.
    { unfold s2. destruct (decide _); [by rewrite dyn_find_wpos|done]. }
    assert (m_prop_queue s2 = m_prop_queue s) as Hq2.
    { unfold s2. destruct (decide _); [by rewrite queue_find_wpos|done]. }
    pose proof (static_part_fields _ _ Hst2) as (_ & _ & _ & Hf2 & _ & Hat2 & _).
    rewrite Hat2, Hocc.
    destruct (push_occs_total fuel F eqc v2 idx occs s2) as (pushed & Hp & Hlen & Hin).
    { destruct Hfuel as [|Hle]; [by left|right]. split; [|done].
      intros v. unfold find. rewrite Hf2. apply H3. }
    rewrite Hp. eexists. split; [done|].
    unfold dyn in Hdyn2. injection Hdyn2 as Hasg Hcf2.
    split.
    + intros w' j' Hin'. simpl in Hin'. rewrite Hq2 in Hin'.
      apply elem_of_app in Hin' as [Hin'|Hin'].
      * destruct (Hq w' j' Hin') as (bv & occs' & Ha & Ho & Hn).
        exists bv, occs'. simpl. rewrite Hat2, Hasg. split; [done|]. split; [done|].
        destruct (m_assignment (ctx s) !! bv) as [x|] eqn:E; [|done].
        by rewrite (lookup_weaken _ _ _ _ E (proj1 (assign_grows c js (ctx s)))).
      * exists (lit_var c), occs. simpl. rewrite Hat2, Hasg. split; [done|].
        split; [by apply Hin|]. apply assign_assigned.
    + intros _ Hundef. simpl. rewrite length_app, Hq2.
      unfold pending. simpl. rewrite Hat2, Hasg.
      unfold assign. rewrite Hundef. simpl.
      assert (m_assignment (ctx s) !! lit_var c = None) as Hnone.
      { unfold get_assignment in Hundef.
        destruct (m_assignment (ctx s) !! lit_var c) as [x|]; [|done].
        by destruct (xorb x (lit_sign c)). }
      pose proof (pending_fresh (m_assignment (ctx s)) (m_bool_var2atom s) (lit_var c) occs
                    (negb (lit_sign c)) Hocc Hnone).
      lia.
Qed.

Lemma polarize_var val l : lit_var (polarize val l) = lit_var l.
Proof. unfold polarize. by destruct (decide _). Qed.

Lemma get_assignment_polarize_undef c val l :
  get_assignment c l = l_undef → get_assignment c (polarize val l) = l_undef.
Proof.
  intros H. unfold polarize. destruct (decide _); [|done].
  by rewrite get_assignment_neg, H.
Qed.

Lemma assign_bit_false_literal fuel v1 v2 idx a eqc s s' :
  assign_bit fuel false_literal v1 v2 idx a eqc s = Some s' → inconsistent (ctx s') = true.
Proof.
  intros H. apply dyn_assign_bit in H. rewrite decide_True in H by done.
  unfold dyn in H. injection H as _ H. unfold inconsistent in *. rewrite H.
  apply inconsistent_set_conflict.
Qed.

(** The conditions under which [assign_bit] is called by the two loops, and
    what follows when the context is still consistent afterwards. *)
Lemma assign_bit_step K F fuel v1 v2 w idx a eqc s bit2 val :
  propagation_ready K F s → true_assigned s → queue_assigned s →
  eqc = true ∨ F ≤ fuel →
  bit2 = bit_at s w idx → val ≠ l_undef → get_assignment (ctx s) bit2 ≠ val →
  ∃ s', assign_bit fuel (polarize val bit2) v1 v2 idx a eqc s = Some s' ∧
        static_part s' = static_part s ∧ grows s s' ∧ queue_assigned s' ∧
        (inconsistent (ctx s') = false →
         get_assignment (ctx s) bit2 = l_undef ∧ get_assignment (ctx s') bit2 = val ∧
         length (m_prop_queue s') + pending s' ≤ length (m_prop_queue s) + pending s).
Proof.
  intros Hready Htrue Hq Hfuel Hbit Hval Hne.
  destruct (assign_bit_total K F fuel (polarize val bit2) v1 v2 idx a eqc s Hready Hq Hfuel)
    as (s' & Hs' & Hq' & Hacc).
  { destruct (decide (lit_var bit2 = true_bool_var)) as [Hc|Hc].
    - left. by eapply polarize_constant.
    - right. rewrite polarize_var. split; [done|]. exists w, idx. by rewrite Hbit. }
  exists s'. split; [done|].
  split; [by eapply static_assign_bit|]. split; [by eapply grows_assign_bit|].
  split; [done|]. intros Hcons.
  destruct (assign_bit_result _ _ _ _ _ _ _ _ _ _ Hval Hne Hs') as [Hi|[Hu Hv]]; [congruence|].
  split; [done|]. split; [done|]. apply Hacc.
  - intros Hf. rewrite Hf in Hs'. apply assign_bit_false_literal in Hs'. congruence.
  - by apply get_assignment_polarize_undef.
Qed.

Lemma next_static s s' v : static_part s' = static_part s → next s' v = next s v.
Proof.
  intros H. apply static_part_fields in H as (_ & _ & _ & Hf & _). unfold next. by rewrite Hf.
Qed.

Lemma propagate_ring_total K F k fuel v idx bit val v2 s :
  propagation_ready K F s → true_assigned s → queue_assigned s → val ≠ l_undef →
  Nat.iter k (next s) v2 = v → F + k + 1 ≤ fuel →
  ∃ r s', propagate_ring fuel v idx bit val v2 s = Some (r, s') ∧
          queue_assigned s' ∧
          (r = false →
           length (m_prop_queue s') + pending s' ≤ length (m_prop_queue s) + pending s).
Proof.
  revert fuel v2 s. induction k as [|k IH]; intros fuel v2 s Hready Htrue Hq Hval Hiter Hfuel;
    (destruct fuel as [|fuel]; [lia|]); simpl.
  - simpl in Hiter. rewrite decide_True by done. by exists false, s.
  - destruct (decide (v2 = v)) as [|Hv2]; [by exists false, s|].
    rewrite Nat.iter_succ_r in Hiter.
    destruct (decide (val ≠ get_assignment (ctx s) (bit_at s v2 idx))) as [Hne|Heq].
    + destruct (assign_bit_step K F fuel v v2 v2 idx (polarize val bit) false s
                  (bit_at s v2 idx) val Hready Htrue Hq)
        as (s1 & Hs1 & Hst1 & Hg1 & Hq1 & Hcons); [right; lia|done|done|by apply not_eq_sym|].
      rewrite Hs1. simpl.
      destruct (inconsistent (ctx s1)) eqn:Ei; [by exists true, s1|].
      destruct (Hcons eq_refl) as (_ & _ & Hacc).
      destruct (IH fuel (next s1 v2) s1) as (r & s' & Hs' & Hq' & Hacc').
      * by eapply propagation_ready_static.
      * by eapply true_assigned_grows.
      * done.
      * done.
      * rewrite (next_static _ _ _ Hst1).
        replace (next s1) with (next s); [done|].
        apply static_part_fields in Hst1 as (_ & _ & _ & Hf & _).
        unfold next. by rewrite Hf.
      * lia.
      * exists r, s'. split; [done|]. split; [done|]. intros Hr. specialize (Hacc' Hr). lia.
    + destruct (IH fuel (next s v2) s) as (r & s' & Hs' & Hq' & Hacc'); try done; [lia|].
      by exists r, s'.
Qed.

Lemma pending_same s s' :
  static_part s' = static_part s → dyn (ctx s') = dyn (ctx s) → pending s' = pending s.
Proof.
  intros Hst Hd. apply static_part_fields in Hst as (_ & _ & _ & _ & _ & Ha & _).
  unfold dyn in Hd. injection Hd as Hasg _. unfold pending. by rewrite Ha, Hasg.
Qed.

Lemma assigned_not_undef (c : context) l :
  m_assignment c !! lit_var l ≠ None → get_assignment c l ≠ l_undef.
Proof.
  unfold get_assignment. destruct (m_assignment c !! lit_var l) as [x|]; [|done].
  intros _. by destruct (xorb x (lit_sign l)).
Qed.

Lemma propagate_loop_total K F n fuel i s :
  propagation_ready K F s → true_assigned s → queue_assigned s →
  length (m_prop_queue s) + pending s - i ≤ n → F + K + 2 + n ≤ fuel →
  ∃ s', propagate_loop fuel i s = Some s'.
Proof.
  revert fuel i s. induction n as [|n IH]; intros fuel i s Hready Htrue Hq Hwork Hfuel;
    (destruct fuel as [|fuel]; [lia|]); simpl;
    (destruct (m_prop_queue s !! i) as [[v idx]|] eqn:E; [|by eexists]);
    (assert (i < length (m_prop_queue s)) as Hi by (by eapply lookup_lt_Some)); [lia|].
  set (s1 := if decide (m_wpos s !!! v = idx) then find_wpos v s else s).
  assert (static_part s1 = static_part s) as Hst1.
  { unfold s1. destruct (decide _); [apply static_find_wpos|done]. }
  assert (dyn (ctx s1) = dyn (ctx s)) as Hd1.
  { unfold s1. destruct (decide _); [apply dyn_find_wpos|done]. }
  assert (m_prop_queue s1 = m_prop_queue s) as Hq1.
  { unfold s1. destruct (decide _); [apply queue_find_wpos|done]. }
  pose proof (propagation_ready_static _ _ _ _ Hst1 Hready) as Hready1.
  pose proof (true_assigned_grows _ _ (grows_dyn _ _ Hd1) Htrue) as Htrue1.
  pose proof (queue_assigned_weaken _ _ Hst1 (grows_dyn _ _ Hd1) Hq1 Hq) as Hqa1.
  destruct (Hq v idx) as (bv & occs & Hat & Hocc & Hasg).
  { apply list_elem_of_lookup. by exists i. }
  destruct Hready as (_ & H2 & _).
  destruct (H2 bv occs v idx Hat Hocc) as (Hvar & k & Hk & Hring).
  assert (get_assignment (ctx s1) (bit_at s1 v idx) ≠ l_undef) as Hval.
  { apply assigned_not_undef. rewrite (bit_at_static _ _ _ _ Hst1), Hvar.
    unfold dyn in Hd1. injection Hd1 as -> _. done. }
  destruct (propagate_ring_total K F k fuel v idx (bit_at s1 v idx)
              (get_assignment (ctx s1) (bit_at s1 v idx)) (next s1 v) s1)
    as (r & s2 & Hs2 & Hq2 & Hacc); try done.
  { rewrite Nat.iter_succ_r in Hring.
    replace (next s1) with (next s); [done|].
    apply static_part_fields in Hst1 as (_ & _ & _ & Hf & _). unfold next. by rewrite Hf. }
  { lia. }
  rewrite Hs2. simpl. destruct r; [by eexists|].
  specialize (Hacc eq_refl).
  pose proof (static_propagate_ring _ _ _ _ _ _ _ _ _ Hs2) as Hst2.
  pose proof (grows_propagate_ring _ _ _ _ _ _ _ _ _ Hs2) as Hg2.
  apply IH.
  - by eapply propagation_ready_static.
  - by eapply true_assigned_grows.
  - done.
  - rewrite (pending_same _ _ Hst1 Hd1), Hq1 in Hacc. lia.
  - lia.
Qed.

Lemma filter_length_le {A} (P Q : A → Prop) `{!∀ x, Decision (P x)} `{!∀ x, Decision (Q x)}
    (l : list A) :
  (∀ x, x ∈ l → P x → Q x) → length (filter P l) ≤ length (filter Q l).
Proof.
  induction l as [|x l IH]; intros Himp; [done|]. rewrite !filter_cons.
  assert (length (filter P l) ≤ length (filter Q l)) as Hle.
  { apply IH. intros y Hy. apply Himp. by constructor. }
  destruct (decide (P x)) as [Hp|Hp], (decide (Q x)) as [Hq|Hq]; simpl; try lia.
  exfalso. apply Hq, Himp; [constructor|done].
Qed.

Lemma filter_length_lt {A} (P Q : A → Prop) `{!∀ x, Decision (P x)} `{!∀ x, Decision (Q x)}
    (l : list A) (x0 : A) :
  x0 ∈ l → Q x0 → ¬ P x0 → (∀ x, x ∈ l → P x → Q x) →
  length (filter P l) < length (filter Q l).
Proof.
  induction l as [|x l IH]; intros Hin Hq0 Hp0 Himp; [by apply elem_of_nil in Hin|].
  rewrite !filter_cons.
  assert (∀ y, y ∈ l → P y → Q y) as Hl by (intros y Hy; apply Himp; by constructor).
  pose proof (filter_length_le P Q l Hl) as Hle.
  apply elem_of_cons in Hin as [<-|Hin].
  - rewrite decide_False by done. rewrite decide_True by done. simpl. lia.
  - specialize (IH Hin Hq0 Hp0 Hl).
    destruct (decide (P x)) as [Hp|Hp], (decide (Q x)) as [Hq|Hq]; simpl; try lia.
    exfalso. apply Hq, Himp; [constructor|done].
Qed.

Lemma unassigned_at_grows s s' v i :
  static_part s' = static_part s → grows s s' → unassigned_at s' v i → unassigned_at s v i.
Proof.
  intros Hst Hg H. unfold unassigned_at in *. rewrite (bit_at_static _ _ _ _ Hst) in H.
  destruct (decide (get_assignment (ctx s) (bit_at s v i) = l_undef)) as [|Hd]; [done|].
  rewrite (get_assignment_grows _ _ _ Hg Hd) in H. done.
Qed.

Lemma undef_count_le s s' v1 v2 sz :
  static_part s' = static_part s → grows s s' →
  undef_count s' v1 v2 sz ≤ undef_count s v1 v2 sz.
Proof.
  intros Hst Hg. unfold undef_count.
  pose proof (filter_length_le (unassigned_at s' v1) (unassigned_at s v1) (seq 0 sz)
                (λ x _, unassigned_at_grows s s' v1 x Hst Hg)).
  pose proof (filter_length_le (unassigned_at s' v2) (unassigned_at s v2) (seq 0 sz)
                (λ x _, unassigned_at_grows s s' v2 x Hst Hg)).
  lia.
Qed.

Lemma undef_count_lt s s' v1 v2 sz v idx :
  static_part s' = static_part s → grows s s' →
  v = v1 ∨ v = v2 → idx < sz →
  unassigned_at s v idx → ¬ unassigned_at s' v idx →
  undef_count s' v1 v2 sz < undef_count s v1 v2 sz.
Proof.
  intros Hst Hg Hv Hidx Hu Hd. unfold undef_count.
  pose proof (filter_length_le (unassigned_at s' v1) (unassigned_at s v1) (seq 0 sz)
                (λ x _, unassigned_at_grows s s' v1 x Hst Hg)) as H1.
  pose proof (filter_length_le (unassigned_at s' v2) (unassigned_at s v2) (seq 0 sz)
                (λ x _, unassigned_at_grows s s' v2 x Hst Hg)) as H2.
  assert (idx ∈ seq 0 sz) as Hin by (apply elem_of_seq; lia).
  destruct Hv as [->| ->].
  - pose proof (filter_length_lt (unassigned_at s' v1) (unassigned_at s v1) (seq 0 sz) idx
                  Hin Hu Hd (λ x _, unassigned_at_grows s s' v1 x Hst Hg)). lia.
  - pose proof (filter_length_lt (unassigned_at s' v2) (unassigned_at s v2) (seq 0 sz) idx
                  Hin Hu Hd (λ x _, unassigned_at_grows s s' v2 x Hst Hg)). lia.
Qed.

(** One iteration of the loop body of [merge_eh] at an index where the two
    bits disagree. *)
Lemma merge_step_total K F fuel v1 v2 sz idx s :
  propagation_ready K F s → true_assigned s → queue_assigned s → idx < sz →
  get_assignment (ctx s) (bit_at s v1 idx) ≠ get_assignment (ctx s) (bit_at s v2 idx) →
  ∃ s1,
    (if decide (get_assignment (ctx s) (bit_at s v1 idx) ≠ l_undef)
     then assign_bit fuel (polarize (get_assignment (ctx s) (bit_at s v1 idx)) (bit_at s v2 idx))
            v1 v2 idx (polarize (get_assignment (ctx s) (bit_at s v1 idx)) (bit_at s v1 idx))
            true s
     else if decide (get_assignment (ctx s) (bit_at s v2 idx) ≠ l_undef)
     then assign_bit fuel (polarize (get_assignment (ctx s) (bit_at s v2 idx)) (bit_at s v1 idx))
            v2 v1 idx (polarize (get_assignment (ctx s) (bit_at s v2 idx)) (bit_at s v2 idx))
            true s
     else Some s) = Some s1 ∧
    static_part s1 = static_part s ∧ grows s s1 ∧ queue_assigned s1 ∧
    (inconsistent (ctx s1) = false →
     ¬ (get_assignment (ctx s) (bit_at s v1 idx) ≠ l_undef ∧
        get_assignment (ctx s) (bit_at s v2 idx) ≠ l_undef ∧
        get_assignment (ctx s) (bit_at s v1 idx) ≠ get_assignment (ctx s) (bit_at s v2 idx)) ∧
     length (m_prop_queue s1) + pending s1 ≤ length (m_prop_queue s) + pending s ∧
     undef_count s1 v1 v2 sz < undef_count s v1 v2 sz).
Proof.
  intros Hready Htrue Hq Hidx Hne.
  destruct (decide (get_assignment (ctx s) (bit_at s v1 idx) ≠ l_undef)) as [Hd1|Hd1].
  - destruct (assign_bit_step K F fuel v1 v2 v2 idx
                (polarize (get_assignment (ctx s) (bit_at s v1 idx)) (bit_at s v1 idx)) true s
                (bit_at s v2 idx) (get_assignment (ctx s) (bit_at s v1 idx)) Hready Htrue Hq)
      as (s1 & Hs1 & Hst1 & Hg1 & Hq1 & Hcons); [by left|done|done|by apply not_eq_sym|].
    exists s1. split; [done|]. split; [done|]. split; [done|]. split; [done|].
    intros Hi. destruct (Hcons Hi) as (Hu & Hv & Hacc).
    split; [by intros (_ & ? & _)|]. split; [done|].
    apply (undef_count_lt s s1 v1 v2 sz v2 idx); try done; [by right|].
    unfold unassigned_at. rewrite (bit_at_static _ _ _ _ Hst1), Hv. done.
  - apply dec_stable in Hd1.
    destruct (decide (get_assignment (ctx s) (bit_at s v2 idx) ≠ l_undef)) as [Hd2|Hd2].
    + destruct (assign_bit_step K F fuel v2 v1 v1 idx
                  (polarize (get_assignment (ctx s) (bit_at s v2 idx)) (bit_at s v2 idx)) true s
                  (bit_at s v1 idx) (get_assignment (ctx s) (bit_at s v2 idx)) Hready Htrue Hq)
        as (s1 & Hs1 & Hst1 & Hg1 & Hq1 & Hcons); [by left|done|done|done|].
      exists s1. split; [done|]. split; [done|]. split; [done|]. split; [done|].
      intros Hi. destruct (Hcons Hi) as (Hu & Hv & Hacc).
      split; [by intros (? & _)|]. split; [done|].
      apply (undef_count_lt s s1 v1 v2 sz v1 idx); try done; [by left|].
      unfold unassigned_at. rewrite (bit_at_static _ _ _ _ Hst1), Hv. done.
    + apply dec_stable in Hd2. congruence.
Qed.

Lemma merge_pass_total K F fuel v1 v2 sz idxs changed s :
  propagation_ready K F s → true_assigned s → queue_assigned s →
  (∀ idx, idx ∈ idxs → idx < sz) →
  ∃ r, merge_pass fuel v1 v2 idxs changed s = Some r ∧
       match r with
       | pass_returned _ => True
       | pass_done ch s' =>
           queue_assigned s' ∧
           length (m_prop_queue s') + pending s' ≤ length (m_prop_queue s) + pending s ∧
           undef_count s' v1 v2 sz ≤ undef_count s v1 v2 sz ∧
           (ch = changed ∨ (ch = true ∧ undef_count s' v1 v2 sz < undef_count s v1 v2 sz))
       end.
Proof.
  revert changed s. induction idxs as [|idx idxs IH]; intros changed s Hready Htrue Hq Hidxs;
    cbn [merge_pass]; cbv zeta.
  - exists (pass_done changed s). split; [done|]. split; [done|]. split; [done|].
    split; [done|by left].
  - assert (∀ idx', idx' ∈ idxs → idx' < sz) as Hidxs'.
    { intros idx' Hin. apply Hidxs. by constructor. }
    destruct (decide (_ = _)) as [Heq|Hne]; [by apply IH|].
    destruct (merge_step_total K F fuel v1 v2 sz idx s Hready Htrue Hq)
      as (s1 & Hs1 & Hst1 & Hg1 & Hq1 & Hcons); [apply Hidxs; constructor|done|].
    match goal with
    | |- context [mbind _ ?x] => replace x with (Some s1) by (symmetry; exact Hs1)
    end. simpl.
    destruct (inconsistent (ctx s1)) eqn:Ei; [by exists (pass_returned s1)|].
    destruct (Hcons eq_refl) as (Hunr & Hacc & Hlt).
    rewrite decide_False by done.
    destruct (IH true s1) as (r & Hr & Hspec); try done.
    { by eapply propagation_ready_static. }
    { by eapply true_assigned_grows. }
    exists r. split; [done|]. destruct r as [ch s'|s']; [|done].
    destruct Hspec as (Hq' & Hacc' & Hle' & Hch).
    split; [done|]. split; [lia|]. split; [lia|]. right.
    destruct Hch as [->|[-> _]]; (split; [done|lia]).
Qed.

Lemma merge_loop_total K F n fuel v1 v2 sz s :
  propagation_ready K F s → true_assigned s → queue_assigned s →
  undef_count s v1 v2 sz ≤ n → n + 1 ≤ fuel →
  ∃ returned s', merge_loop fuel v1 v2 sz s = Some (returned, s') ∧
                 (returned = false →
                  queue_assigned s' ∧
                  length (m_prop_queue s') + pending s' ≤ length (m_prop_queue s) + pending s).
Proof.
  revert fuel s. induction n as [|n IH]; intros fuel s Hready Htrue Hq Hn Hfuel;
    (destruct fuel as [|fuel]; [lia|]); simpl;
    (destruct (merge_pass_total K F fuel v1 v2 sz (seq 0 sz) false s Hready Htrue Hq)
       as (r & Hr & Hspec); [by intros idx [_ ?]%elem_of_seq|]);
    rewrite Hr; simpl;
    (destruct r as [ch s1|s1]; [|by exists true, s1]);
    destruct Hspec as (Hq1 & Hacc1 & Hle1 & Hch);
    (destruct ch; [|by exists false, s1]);
    (destruct Hch as [|[_ Hlt]]; [done|]); [lia|].
  pose proof (static_merge_pass _ _ _ _ _ _ _ Hr) as Hst1.
  pose proof (merge_pass_grows _ _ _ _ _ _ _ Hr) as [Hg1 _]. simpl in *.
  destruct (IH fuel s1) as (returned & s' & Hs' & Hspec').
  - by eapply propagation_ready_static.
  - by eapply true_assigned_grows.
  - done.
  - lia.
  - lia.
  - exists returned, s'. split; [done|]. intros Hret.
    destruct (Hspec' Hret) as [Hq' Hacc']. split; [done|lia].
Qed.

Lemma merge_loop_grows fuel v1 v2 sz s returned s' :
  merge_loop fuel v1 v2 sz s = Some (returned, s') → grows s s'.
Proof.
  revert s. induction fuel as [|fuel IH]; intros s H; simpl in H; [done|].
  destruct (merge_pass _ _ _ _ _ _) as [r|] eqn:E; [|done]. simpl in H.
  apply merge_pass_grows in E as [Hg _].
  destruct r as [[] s4|s4]; simplify_eq; try done.
  eapply grows_trans; [exact Hg|]. by apply IH.
Qed.

(** [merge_eh] returns when it is given enough fuel. *)
Lemma merge_eh_total K F fuel r1 r2 v1 v2 s :
  propagation_ready K F s → true_assigned s →
  F + K + 3 + pending s + undef_count s v1 v2 (length (m_bits s !!! v1)) ≤ fuel →
  ∃ s', merge_eh fuel r1 r2 v1 v2 s = Some s'.
Proof.
  intros Hready Htrue Hfuel. unfold merge_eh.
  pose proof (merge_zero_one_bits_ok r1 r2 s) as Hz.
  destruct (merge_zero_one_bits r1 r2 s) as [ok s1]. simpl in *.
  destruct ok; simpl; [|by eexists].
  destruct (Hz eq_refl) as [Hst Hctx]. clear Hz.
  set (s2 := upd_prop_queue (λ _, []) s1).
  assert (static_part s2 = static_part s) as Hst2 by done.
  assert (dyn (ctx s2) = dyn (ctx s)) as Hd2 by (simpl; by rewrite Hctx).
  assert (queue_assigned s2) as Hq2.
  { intros w j Hin. simpl in Hin. by apply elem_of_nil in Hin. }
  pose proof (propagation_ready_static _ _ _ _ Hst2 Hready) as Hready2.
  pose proof (true_assigned_grows _ _ (grows_dyn _ _ Hd2) Htrue) as Htrue2.
  assert (m_bits s2 = m_bits s) as Hbits.
  { by apply static_part_fields in Hst2 as (_ & _ & _ & _ & ? & _). }
  assert (undef_count s2 v1 v2 (length (m_bits s !!! v1)) =
          undef_count s v1 v2 (length (m_bits s !!! v1))) as Hu.
  { unfold undef_count.
    assert (∀ v, filter (unassigned_at s2 v) (seq 0 (length (m_bits s !!! v1))) =
                 filter (unassigned_at s v) (seq 0 (length (m_bits s !!! v1)))) as Hf.
    { intros v. apply list_filter_iff. intros i. unfold unassigned_at.
      rewrite (bit_at_static _ _ _ _ Hst2). simpl. by rewrite Hctx. }
    by rewrite !Hf. }
  change (m_bits s1) with (m_bits s2). rewrite Hbits.
  destruct (merge_loop_total K F (undef_count s v1 v2 (length (m_bits s !!! v1))) fuel v1 v2
              (length (m_bits s !!! v1)) s2 Hready2 Htrue2 Hq2)
    as (returned & s3 & Hs3 & Hspec); [lia|lia|].
  rewrite Hs3. simpl. destruct returned; [by eexists|].
  destruct (Hspec eq_refl) as [Hq3 Hacc3].
  pose proof (static_merge_loop _ _ _ _ _ _ _ Hs3) as Hst3.
  unfold propagate_bits.
  apply (propagate_loop_total K F (pending s)).
  - by eapply propagation_ready_static.
  - eapply true_assigned_grows; [|exact Htrue2]. by eapply merge_loop_grows.
  - done.
  - rewrite (pending_same _ _ Hst2 Hd2) in Hacc3. simpl in Hacc3. lia.
  - lia.
Qed.

(** ** The width invariant *)

Lemma count_vars_drop_le k tr : count_vars (drop k tr) ≤ count_vars tr.
Proof.
  revert k. induction tr as [|t tr IH]; intros k; [by rewrite drop_nil|].
  destruct k as [|k]; [done|]. simpl. specialize (IH k). destruct t; lia.
Qed.

Lemma trail_ok_forest tr p : trail_ok tr p → forest_ok p.
Proof. destruct tr; by intros [? _]. Qed.

Lemma trail_ok_length tr p : trail_ok tr p → length p = count_vars tr.
Proof.
  revert p. induction tr as [|t tr IH]; intros p; simpl.
  - by intros [_ ->].
  - destruct t as [bv|bv| |r1].
    + intros [_ H]. by apply IH.
    + intros [_ H]. by apply IH.
    + intros [_ [[p' ->] H]]. rewrite removelast_last in H. apply IH in H.
      rewrite length_app. simpl. lia.
    + intros [_ [_ H]]. apply IH in H. by rewrite length_insert in H.
Qed.

(** *** The steps of a run *)

Lemma width_state_fields s s' :
  m_var2enode s' = m_var2enode s → m_var2enode_lim s' = m_var2enode_lim s →
  m_find s' = m_find s → m_bits s' = m_bits s → m_trail_stack s' = m_trail_stack s →
  m_scopes s' = m_scopes s → width_state s → width_state s'.
Proof. unfold width_state, get_num_vars. by intros -> -> -> -> -> ->. Qed.

Lemma width_state_static s s' :
  static_part s' = static_part s → width_state s → width_state s'.
Proof.
  intros Hst. apply static_part_fields in Hst as (_ & ? & ? & ? & ? & _ & ? & ? & _).
  by apply width_state_fields.
Qed.

Lemma scopes_ok_cons t tr scs lims : scopes_ok tr scs lims → scopes_ok (t :: tr) scs lims.
Proof.
  intros (Hlen & Hmark & Hmono). split; [done|]. split; [|done].
  intros k m n Hm Hn. destruct (Hmark k m n Hm Hn) as [Hle Hcount]. simpl.
  split; [lia|]. replace (S (length tr) - m) with (S (length tr - m)) by lia. done.
Qed.

Lemma scopes_ok_app recs tr scs lims :
  scopes_ok tr scs lims → scopes_ok (recs ++ tr) scs lims.
Proof. intros H. induction recs as [|t recs IH]; [done|]. by apply scopes_ok_cons. Qed.

Lemma trail_ok_atoms recs tr p :
  Forall atom_record recs → trail_ok tr p → trail_ok (recs ++ tr) p.
Proof.
  intros Hrecs H. induction Hrecs as [|t recs Ht _ IH]; [done|].
  pose proof (trail_ok_forest _ _ H). by destruct t.
Qed.

Lemma unmerged_alone p v w :
  (∀ w, p !! w = Some v → w = v) → root_of p w v → w = v.
Proof.
  intros Halone H. remember v as r eqn:Hr.
  induction H as [w Hw|w x r Hw Hne _ IH]; [done|].
  subst r. apply Halone. by rewrite Hw, (IH eq_refl Halone).
Qed.

Lemma same_width_set_bits p bits v x :
  p !! v = Some v → (∀ w, p !! w = Some v → w = v) →
  same_width p bits → same_width p (<[v := x]> bits).
Proof.
  intros Hroot Halone Hw v1 v2 r H1 H2.
  assert (∀ w, root_of p w r → root_of p v r → w = v) as Hv.
  { intros w Hwr Hvr.
    rewrite <- (root_of_det _ _ _ _ (root_of_self _ _ Hroot) Hvr) in Hwr.
    by eapply unmerged_alone. }
  destruct (decide (v1 = v)) as [->|Hne1].
  - by rewrite (Hv v2 H2 H1).
  - destruct (decide (v2 = v)) as [->|Hne2]; [by rewrite (Hv v1 H1 H2) in Hne1|].
    rewrite !list_lookup_total_insert_ne by done. by eapply Hw.
Qed.

(** Bits are added to an unmerged variable, with records of the atom table
    only. *)
Lemma width_state_bits s s' v x recs :
  unmerged s v →
  m_var2enode s' = m_var2enode s → m_var2enode_lim s' = m_var2enode_lim s →
  m_find s' = m_find s → m_bits s' = <[v := x]> (m_bits s) →
  m_trail_stack s' = recs ++ m_trail_stack s → Forall atom_record recs →
  m_scopes s' = m_scopes s → width_state s → width_state s'.
Proof.
  intros [Hroot Halone] He Hl Hf Hb Ht Hrecs Hs (Hp & Hbits & Htr & Hw & Hsc).
  unfold width_state, get_num_vars. rewrite He, Hl, Hf, Hb, Ht, Hs.
  split; [done|]. split; [by rewrite length_insert|].
  split; [by apply trail_ok_atoms|]. split; [by apply same_width_set_bits|].
  by apply scopes_ok_app.
Qed.

Lemma width_state_empty : width_state empty_theory.
Proof.
  split; [done|]. split; [done|]. split; [|split].
  - split; [|done]. intros v Hv. simpl in Hv. lia.
  - intros v1 v2 r H _. apply root_of_in_range in H as [H _]. simpl in H. lia.
  - split; [done|]. split; by intros ????.
Qed.

Lemma width_state_mk_var n s : width_state s → width_state (mk_var n s).
Proof.
  intros (Hp & Hbits & Htr & Hw & Hsc). unfold width_state, get_num_vars in *. simpl.
  pose proof (trail_ok_forest _ _ Htr) as Hok.
  rewrite !length_app. simpl. split; [lia|]. split; [lia|].
  split; [|split].
  - split; [by apply forest_ok_snoc|]. split; [by eexists|]. by rewrite removelast_last.
  - intros v1 v2 r H1 H2.
    apply (root_of_snoc_inv _ _ _ Hok) in H1, H2.
    assert (∀ v, root_of (uf_find (m_find s)) v r → v < length (m_bits s) ∧
                 r < length (uf_find (m_find s))) as Hin.
    { intros v Hv. apply root_of_in_range in Hv as [? ?%lookup_lt_Some]. lia. }
    destruct H1 as [[-> ->]|H1], H2 as [[-> Hr]|H2]; try done.
    + apply Hin in H2. lia.
    + apply Hin in H1. lia.
    + rewrite !lookup_total_app_l by (by apply Hin). by eapply Hw.
  - by apply scopes_ok_cons.
Qed.

Lemma width_state_push s : width_state s → width_state (push_scope_eh s).
Proof.
  intros (Hp & Hbits & Htr & Hw & Hsc). unfold width_state, get_num_vars in *. simpl.
  split; [done|]. split; [done|]. split; [done|]. split; [done|].
  destruct Hsc as (Hlen & Hmark & Hmono).
  pose proof (trail_ok_length _ _ Htr) as Hcount.
  split; [by rewrite !length_app, Hlen|]. split.
  - intros k m n Hm Hn.
    destruct (decide (k < length (m_scopes s))) as [Hk|Hk].
    + rewrite lookup_app_l in Hm by done. rewrite lookup_app_l in Hn by lia.
      by eapply Hmark.
    + rewrite lookup_app_r in Hm by lia. rewrite lookup_app_r in Hn by lia.
      apply list_lookup_singleton_Some in Hm as [_ <-].
      apply list_lookup_singleton_Some in Hn as [_ <-].
      split; [done|]. rewrite Nat.sub_diag, drop_0. lia.
  - intros k k' m m' Hkk Hm Hm'.
    destruct (decide (k' < length (m_scopes s))) as [Hk'|Hk'].
    + rewrite lookup_app_l in Hm by lia. rewrite lookup_app_l in Hm' by done.
      exact (Hmono k k' m m' Hkk Hm Hm').
    + rewrite lookup_app_r in Hm' by lia.
      apply list_lookup_singleton_Some in Hm' as [Hk'' <-].
      destruct (decide (k < length (m_scopes s))) as [Hk|Hk].
      * rewrite lookup_app_l in Hm by done.
        destruct (lookup_lt_is_Some_2 (m_var2enode_lim s) k) as [n Hn]; [lia|].
        by destruct (Hmark k m n Hm Hn).
      * rewrite lookup_app_r in Hm by lia.
        by apply list_lookup_singleton_Some in Hm as [_ <-].
Qed.

Lemma add_bit_fields v l s s' :
  add_bit v l s = Some s' →
  m_var2enode s' = m_var2enode s ∧ m_var2enode_lim s' = m_var2enode_lim s ∧
  m_find s' = m_find s ∧ m_bits s' = <[v := (m_bits s !!! v) ++ [l]]> (m_bits s) ∧
  (∃ recs, m_trail_stack s' = recs ++ m_trail_stack s ∧ Forall atom_record recs) ∧
  m_scopes s' = m_scopes s.
Proof.
  unfold add_bit. destruct (decide (lit_var l = true_bool_var)) as [Hc|Hc].
  - intros [= <-]. simpl. repeat split; try done. by exists [].
  - simpl. destruct (decide (m_var_theory (ctx s) !! lit_var l = Some bv_family_id)) as [Ht|Ht].
    + destruct (m_bool_var2atom s !! lit_var l) as [[occs|]|] eqn:Ha; try done.
      intros [= <-]. unfold find_new_diseq_axioms.
      rewrite find_new_diseq_axioms_loop_emit. simpl. repeat split; try done.
      exists [add_var_pos_trail (lit_var l)]. split; [done|]. by repeat constructor.
    + intros [= <-]. simpl. repeat split; try done.
      exists [mk_atom_trail (lit_var l)]. split; [done|]. by repeat constructor.
Qed.

Lemma width_state_add_bit v l s s' :
  width_state s → unmerged s v → add_bit v l s = Some s' → width_state s'.
Proof.
  intros Hs Hv H.
  apply add_bit_fields in H as (He & Hl & Hf & Hb & (recs & Ht & Hrecs) & Hsc).
  by eapply width_state_bits.
Qed.

(** Records of the atom table leave the invariant alone. *)
Lemma width_state_atoms s s' recs :
  m_var2enode s' = m_var2enode s → m_var2enode_lim s' = m_var2enode_lim s →
  m_find s' = m_find s → m_bits s' = m_bits s →
  m_trail_stack s' = recs ++ m_trail_stack s → Forall atom_record recs →
  m_scopes s' = m_scopes s → width_state s → width_state s'.
Proof.
  intros He Hl Hf Hb Ht Hrecs Hs (Hp & Hbits & Htr & Hw & Hsc).
  unfold width_state, get_num_vars. rewrite He, Hl, Hf, Hb, Ht, Hs.
  split; [done|]. split; [done|].
  split; [by apply trail_ok_atoms|]. split; [done|]. by apply scopes_ok_app.
Qed.

Lemma mk_bits_loop_fields bs idxs v s :
  let s' := mk_bits_loop bs idxs v s in
  m_var2enode s' = m_var2enode s ∧ m_var2enode_lim s' = m_var2enode_lim s ∧
  m_find s' = m_find s ∧
  (v < length (m_bits s) →
   ∃ lits, length lits = length idxs ∧ m_bits s' = <[v := (m_bits s !!! v) ++ lits]> (m_bits s)) ∧
  (∃ recs, m_trail_stack s' = recs ++ m_trail_stack s ∧ Forall atom_record recs) ∧
  m_scopes s' = m_scopes s.
Proof.
  revert s. induction idxs as [|i idxs IH]; intros s; simpl.
  - split_and!; try done; [|by exists []]. intros Hv. exists []. split; [done|].
    by rewrite app_nil_r, list_insert_lookup_total_id.
  - set (s1 := if (bs i).2 then mk_bit2bool (bs i).1 v i s else s).
    assert (m_var2enode s1 = m_var2enode s ∧ m_var2enode_lim s1 = m_var2enode_lim s ∧
            m_find s1 = m_find s ∧ m_bits s1 = m_bits s ∧
            (∃ recs, m_trail_stack s1 = recs ++ m_trail_stack s ∧ Forall atom_record recs) ∧
            m_scopes s1 = m_scopes s) as (He1 & Hl1 & Hf1 & Hb1 & (recs1 & Ht1 & Hr1) & Hs1).
    { unfold s1. destruct (bs i).2; simpl.
      - split_and!; try done. exists [mk_atom_trail (bs i).1]. split; [done|].
        by repeat constructor.
      - split_and!; try done. by exists []. }
    destruct (IH (upd_bits (λ bits, <[v := (bits !!! v) ++ [Literal (bs i).1 false]]> bits) s1))
      as (He & Hl & Hf & Hb & (recs & Ht & Hr) & Hs).
    simpl in *. rewrite He, Hl, Hf, Hs. split_and!; try done.
    + intros Hv. destruct Hb as (lits & Hlen & Hb); [by rewrite length_insert, Hb1|].
      exists (Literal (bs i).1 false :: lits). split; [simpl; lia|].
      rewrite Hb, Hb1. rewrite list_lookup_total_insert_eq by done.
      by rewrite list_insert_insert_eq, <- app_assoc.
    + exists (recs ++ recs1). rewrite Ht, Ht1, app_assoc. split; [done|].
      by apply Forall_app.
Qed.

Lemma internalize_num_loop_bits bits v i s :
  let s' := internalize_num_loop bits v i s in
  static_part s' =
  static_part (upd_bits (λ bs, <[v := (bs !!! v) ++
                                  ((λ b : bool, if b then true_literal else false_literal) <$> bits)]> bs) s).
Proof.
  revert i s. induction bits as [|b bits IH]; intros i s; simpl.
  - unfold static_part. simpl. by rewrite app_nil_r, list_insert_lookup_total_id.
  - rewrite IH. unfold static_part. simpl. f_equal. f_equal. f_equal. f_equal. f_equal.
    destruct (decide (v < length (m_bits s))) as [Hv|Hv].
    + rewrite list_lookup_total_insert_eq by done.
      by rewrite list_insert_insert_eq, <- app_assoc.
    + by rewrite !list_insert_ge by (rewrite ?length_insert; lia).
Qed.

(** *** Widths and sorts *)

Lemma sized_fields P s s' :
  m_var2enode s' = m_var2enode s → m_find s' = m_find s → m_bits s' = m_bits s →
  sized P s → sized P s'.
Proof. unfold sized, unmerged, get_num_vars, get_bv_size. by intros -> -> ->. Qed.

Lemma sized_static P s s' : static_part s' = static_part s → sized P s → sized P s'.
Proof.
  intros Hst. apply static_part_fields in Hst as (_ & ? & _ & ? & ? & _).
  by apply sized_fields.
Qed.

(** The bits of a variable that is being internalized change. *)
Lemma sized_set_bits P s s' v x :
  v ∈ P → m_var2enode s' = m_var2enode s → m_find s' = m_find s →
  m_bits s' = <[v := x]> (m_bits s) → sized P s → sized P s'.
Proof.
  intros Hv He Hf Hb [Hlen Hopen]. unfold sized, unmerged, get_num_vars, get_bv_size in *.
  rewrite He, Hf, Hb. split; [|done].
  intros w Hw HwP. rewrite list_lookup_total_insert_ne by (by intros ->). by apply Hlen.
Qed.

Lemma sized_done P s v :
  length (m_bits s !!! v) = get_bv_size s v → sized P s → sized (filter (λ w, w ≠ v) P) s.
Proof.
  intros Hv [Hlen Hopen]. split.
  - intros w Hw HwP. destruct (decide (w = v)) as [->|Hne]; [done|].
    apply Hlen; [done|]. intros Hin. apply HwP. by apply list_elem_of_filter.
  - intros w [_ Hin]%list_elem_of_filter. by apply Hopen.
Qed.

Lemma sized_mk_var P n s :
  width_state s → sized P s → sized (get_num_vars s :: P) (mk_var n s).
Proof.
  intros (Hp & Hbits & Htr & _) [Hlen Hopen].
  pose proof (trail_ok_forest _ _ Htr) as Hok.
  unfold sized, unmerged, get_num_vars, get_bv_size in *. simpl. split.
  - intros v Hv HvP. rewrite length_app in Hv. simpl in Hv.
    apply not_elem_of_cons in HvP as [Hne HvP].
    rewrite !lookup_total_app_l by lia. apply Hlen; [lia|done].
  - intros v [->|Hin]%elem_of_cons.
    + rewrite length_app. simpl. split; [lia|]. rewrite <- Hp. split.
      * by rewrite lookup_app_r, Nat.sub_diag.
      * intros w Hw. destruct (decide (w < length (uf_find (m_find s)))) as [Hlt|Hge].
        -- rewrite lookup_app_l in Hw by done.
           apply (forest_ok_parent _ _ _ Hok) in Hw. lia.
        -- apply lookup_lt_Some in Hw. rewrite length_app in Hw. simpl in Hw. lia.
    + destruct (Hopen v Hin) as (Hv & Hroot & Halone).
      rewrite length_app. simpl. split; [lia|]. split.
      * by apply lookup_app_l_Some.
      * intros w Hw. destruct (decide (w < length (uf_find (m_find s)))) as [Hlt|Hge].
        -- rewrite lookup_app_l in Hw by done. by apply Halone.
        -- apply lookup_lt_Some in Hw as Hw'. rewrite length_app in Hw'. simpl in Hw'.
           assert (w = length (uf_find (m_find s))) as -> by lia.
           rewrite lookup_app_r, Nat.sub_diag in Hw by done. simpl in Hw.
           injection Hw as Hw. lia.
Qed.

Lemma sized_drop P s v :
  length (m_bits s !!! v) = get_bv_size s v → sized (v :: P) s → sized P s.
Proof.
  intros Hv [Hlen Hopen]. split.
  - intros w Hw HwP. destruct (decide (w = v)) as [->|Hne]; [done|].
    apply Hlen; [done|]. by apply not_elem_of_cons.
  - intros w Hin. apply Hopen. by apply elem_of_cons; right.
Qed.

(** A variable is made and gets all its bits from [mk_bits]. *)
Lemma width_sized_get_var P bs n s :
  width_state s → sized P s →
  width_state (get_var bs n None s).2 ∧ sized P (get_var bs n None s).2.
Proof.
  intros Hw Hs. simpl.
  pose proof (width_state_mk_var n s Hw) as Hw1.
  pose proof (sized_mk_var P n s Hw Hs) as Hs1.
  set (v := get_num_vars s) in *. set (s1 := mk_var n s) in *.
  assert (v ∈ v :: P) as HvP by (apply elem_of_cons; by left).
  destruct (proj2 Hs1 v HvP) as [Hv Hun].
  destruct Hw1 as (Hp1 & Hb1 & Hrest1).
  unfold mk_bits.
  destruct (mk_bits_loop_fields bs (seq 0 (get_bv_size s1 v)) v s1)
    as (He & Hl & Hf & Hb & (recs & Ht & Hrecs) & Hsc).
  destruct Hb as (lits & Hlits & Hb); [by rewrite Hb1|].
  rewrite length_seq in Hlits.
  assert (m_bits s1 !!! v = []) as Hnil.
  { unfold s1, v, get_num_vars. simpl. destruct Hw as (_ & Hbits & _).
    unfold get_num_vars in Hbits. rewrite <- Hbits.
    by rewrite lookup_total_app_r, Nat.sub_diag. }
  set (s2 := mk_bits_loop bs (seq 0 (get_bv_size s1 v)) v s1) in *.
  split.
  - by eapply width_state_bits.
  - apply (sized_drop _ _ v).
    + change (get_bv_size s2 v) with (default 0 (e_bv_size (m_var2enode s2 !!! v))).
      unfold theory_var in *. rewrite He, Hb, Hnil.
      rewrite list_lookup_total_insert_eq by (by rewrite Hb1). simpl. exact Hlits.
    + by eapply sized_set_bits.
Qed.

(** Linking the root of [va] below the root of [vb]. *)
Lemma width_sized_link P ra rb va vb s :
  width_state s → sized P s →
  root_of (uf_find (m_find s)) va ra → root_of (uf_find (m_find s)) vb rb → ra ≠ rb →
  va ∉ P → vb ∉ P → length (m_bits s !!! va) = length (m_bits s !!! vb) →
  width_state (uf_link ra rb s) ∧ sized P (uf_link ra rb s).
Proof.
  intros (Hp & Hbits & Htr & Hsw & Hsc) [Hlen Hopen] Ha Hb Hab HaP HbP Hl.
  pose proof (trail_ok_forest _ _ Htr) as Hok.
  apply root_of_in_range in Ha as Hra. destruct Hra as [_ Hra].
  apply root_of_in_range in Hb as Hrb. destruct Hrb as [_ Hrb].
  split.
  - unfold width_state, get_num_vars, uf_link. simpl.
    split; [by rewrite length_insert|]. split; [done|]. split; [|split].
    + split; [by apply forest_ok_link|]. split.
      * exists rb. split; [|split; [done|]].
        -- apply list_lookup_insert_eq. by eapply lookup_lt_Some.
        -- by rewrite list_lookup_insert_ne.
      * rewrite list_insert_insert_eq. by rewrite list_insert_id.
    + by eapply same_width_link.
    + by apply scopes_ok_cons.
  - unfold sized, unmerged, get_num_vars, get_bv_size, uf_link in *. simpl. split; [done|].
    intros v Hv. destruct (Hopen v Hv) as (Hvn & Hroot & Halone).
    assert (v ≠ ra) as Hva.
    { intros ->. apply HaP. by rewrite (unmerged_alone _ _ _ Halone Ha). }
    assert (v ≠ rb) as Hvb.
    { intros ->. apply HbP. by rewrite (unmerged_alone _ _ _ Halone Hb). }
    split; [done|]. split.
    + by rewrite list_lookup_insert_ne.
    + intros w Hw. destruct (decide (w = ra)) as [->|Hne].
      * rewrite list_lookup_insert_eq in Hw by (by eapply lookup_lt_Some). congruence.
      * rewrite list_lookup_insert_ne in Hw by done. by apply Halone.
Qed.

Lemma width_sized_new_eq P o fuel v1 v2 s s' :
  width_state s → sized P s → v1 < get_num_vars s → v2 < get_num_vars s →
  v1 ∉ P → v2 ∉ P → get_bv_size s v1 = get_bv_size s v2 →
  new_eq_eh o fuel v1 v2 s = Some s' → width_state s' ∧ sized P s'.
Proof.
  intros Hw Hs Hv1 Hv2 HP1 HP2 Hsort H.
  apply uf_merge_static in H as [Hst|(ra & rb & _ & _ & Hab & Hfind & Hst)].
  - split; [by eapply width_state_static|by eapply sized_static].
  - pose proof Hw as (Hp & _ & Htr & _). pose proof (trail_ok_forest _ _ Htr) as Hok.
    assert (length (m_bits s !!! v1) = length (m_bits s !!! v2)) as Hlen.
    { destruct Hs as [Hlen _]. by rewrite !Hlen. }
    assert (width_state (uf_link ra rb s) ∧ sized P (uf_link ra rb s)) as [Hw' Hs'].
    { destruct Hfind as [[E1 E2]|[E1 E2]];
        (apply find_root_of in E1; [|done|by rewrite Hp]);
        (apply find_root_of in E2; [|done|by rewrite Hp]).
      - by eapply (width_sized_link P ra rb v1 v2).
      - by eapply (width_sized_link P ra rb v2 v1). }
    split; [by eapply width_state_static|by eapply sized_static].
Qed.

Lemma same_width_pop_back p bits :
  same_width (p ++ [length p]) bits → same_width p bits.
Proof. intros Hw v1 v2 r H1 H2. eapply Hw; by apply root_of_snoc. Qed.

Lemma undo_width fuel t tr s s1 :
  undo fuel t s = Some s1 →
  trail_ok (t :: tr) (uf_find (m_find s)) → same_width (uf_find (m_find s)) (m_bits s) →
  trail_ok tr (uf_find (m_find s1)) ∧ same_width (uf_find (m_find s1)) (m_bits s1) ∧
  m_bits s1 = m_bits s ∧ m_var2enode s1 = m_var2enode s ∧
  m_var2enode_lim s1 = m_var2enode_lim s ∧ m_scopes s1 = m_scopes s ∧
  m_trail_stack s1 = m_trail_stack s.
Proof.
  intros H Htr Hw. destruct t as [bv|bv| |r1]; simpl in H.
  - injection H as <-. destruct Htr as [_ Htr]. done.
  - destruct (m_bool_var2atom s !! bv) as [[[|occ occs]|]|]; try done.
    injection H as <-. destruct Htr as [_ Htr]. done.
  - injection H as <-. destruct Htr as [_ [[p' Hp'] Htr]]. simpl.
    split; [done|]. split; [|done].
    rewrite Hp' in Hw |- *. rewrite removelast_last. by apply same_width_pop_back.
  - destruct Htr as [Hok [(r2 & H1 & Hne & H2) Htr]].
    apply static_unmerge_eh in H.
    apply static_part_fields in H as (_ & He' & Hl' & Hf' & Hb' & _ & Ht' & Hs' & _).
    rewrite Hf', Hb', He', Hl', Ht', Hs'. simpl.
    split; [done|]. split; [|done]. by eapply same_width_cut.
Qed.

Lemma undo_trail_stack_width fuel c s s1 :
  undo_trail_stack fuel c s = Some s1 → c ≤ length (m_trail_stack s) →
  trail_ok (m_trail_stack s) (uf_find (m_find s)) →
  same_width (uf_find (m_find s)) (m_bits s) →
  m_trail_stack s1 = drop c (m_trail_stack s) ∧
  trail_ok (m_trail_stack s1) (uf_find (m_find s1)) ∧
  same_width (uf_find (m_find s1)) (m_bits s1) ∧
  m_bits s1 = m_bits s ∧ m_var2enode s1 = m_var2enode s ∧
  m_var2enode_lim s1 = m_var2enode_lim s ∧ m_scopes s1 = m_scopes s.
Proof.
  revert s. induction c as [|c IH]; intros s H Hc Htr Hw; simpl in H.
  - injection H as <-. by rewrite drop_0.
  - revert H Hc Htr. destruct (m_trail_stack s) as [|t tr] eqn:Et; intros H Hc Htr;
      [simpl in Hc; lia|].
    destruct (undo fuel t s) as [su|] eqn:Eu; [|done]. simpl in H.
    destruct (undo_width _ _ _ _ _ Eu Htr Hw) as (Htr' & Hw' & Hb & He & Hl & Hs & Ht).
    apply IH in H as (Ht1 & Htr1 & Hw1 & Hb1 & He1 & Hl1 & Hs1).
    + simpl in *. rewrite Ht1, Ht, Et, Hb1, He1, Hl1, Hs1. simpl. rewrite drop_0.
      split; [done|]. split; [by rewrite Ht1, Ht, Et in Htr1|]. by rewrite Hb1 in Hw1.
    + simpl. rewrite Ht, Et. simpl in *. rewrite drop_0. lia.
    + simpl. rewrite Ht, Et. simpl. by rewrite drop_0.
    + done.
Qed.

Lemma width_state_pop fuel n s s' :
  width_state s → 0 < n → n ≤ length (m_scopes s) →
  pop_scope_eh fuel n s = Some s' → width_state s'.
Proof.
  intros (Hp & Hbits & Htr & Hw & Hlen & Hmark & Hmono) Hn Hle.
  unfold pop_scope_eh, trail_stack_pop_scope, get_old_num_vars.
  destruct (lookup_lt_is_Some_2 (m_scopes s) (length (m_scopes s) - n)) as [m Hm]; [lia|].
  destruct (lookup_lt_is_Some_2 (m_var2enode_lim s) (length (m_scopes s) - n)) as [nn Hnn];
    [lia|].
  destruct (Hmark _ m nn Hm Hnn) as [Hmle Hcount].
  rewrite (list_lookup_total_correct _ _ _ Hm).
  destruct (undo_trail_stack fuel _ s) as [su|] eqn:E; [|done]. simpl.
  apply undo_trail_stack_width in E as (Ht1 & Htr1 & Hw1 & Hb1 & He1 & Hl1 & Hs1);
    [|lia|done|done].
  intros [= <-]. unfold width_state, get_num_vars in *. simpl.
  rewrite Hl1, He1, Hb1, Hs1, <- Hlen, (list_lookup_total_correct _ _ _ Hnn).
  pose proof (trail_ok_length _ _ Htr) as Hc.
  pose proof (trail_ok_length _ _ Htr1) as Hc1. rewrite Ht1, Hcount in Hc1.
  pose proof (count_vars_drop_le (length (m_trail_stack s) - m) (m_trail_stack s)) as Hd.
  rewrite Hcount in Hd.
  rewrite !length_take. split; [lia|]. split; [lia|]. split; [done|]. split.
  - intros v1 v2 r H1 H2.
    apply root_of_in_range in H1 as Hv1. apply root_of_in_range in H2 as Hv2.
    rewrite !lookup_total_take_lt by lia. rewrite Hb1 in Hw1. by eapply Hw1.
  - rewrite Ht1. split; [rewrite !length_take; lia|]. split.
    + intros j mj nj Hj Hnj.
      apply lookup_take_Some in Hj as [Hj Hjk]. apply lookup_take_Some in Hnj as [Hnj _].
      destruct (Hmark j mj nj Hj Hnj) as [Hjle Hjcount].
      assert (mj ≤ m) as Hjm by (apply (Hmono j (length (m_scopes s) - n)); [lia|done..]).
      rewrite length_drop. split; [lia|].
      rewrite drop_drop.
      replace (length (m_trail_stack s) - m +
               (length (m_trail_stack s) - (length (m_trail_stack s) - m) - mj))
        with (length (m_trail_stack s) - mj) by lia.
      done.
    + intros j j' mj mj' Hjj Hj Hj'.
      apply lookup_take_Some in Hj as [Hj _]. apply lookup_take_Some in Hj' as [Hj' _].
      exact (Hmono j j' mj mj' Hjj Hj Hj').
Qed.

(** What a pop keeps of the bit arrays and of the enodes. *)
Lemma pop_scope_eh_fields fuel n s s' :
  width_state s → 0 < n → n ≤ length (m_scopes s) →
  pop_scope_eh fuel n s = Some s' →
  ∃ k, m_bits s' = take k (m_bits s) ∧ m_var2enode s' = take k (m_var2enode s).
Proof.
  intros (Hp & Hbits & Htr & Hw & Hlen & Hmark & Hmono) Hn Hle.
  unfold pop_scope_eh, trail_stack_pop_scope, get_old_num_vars.
  destruct (lookup_lt_is_Some_2 (m_scopes s) (length (m_scopes s) - n)) as [m Hm]; [lia|].
  destruct (lookup_lt_is_Some_2 (m_var2enode_lim s) (length (m_scopes s) - n)) as [nn Hnn];
    [lia|].
  destruct (Hmark _ m nn Hm Hnn) as [Hmle Hcount].
  rewrite (list_lookup_total_correct _ _ _ Hm).
  destruct (undo_trail_stack fuel _ s) as [su|] eqn:E; [|done]. simpl.
  apply undo_trail_stack_width in E as (Ht1 & Htr1 & Hw1 & Hb1 & He1 & Hl1 & Hs1);
    [|lia|done|done].
  intros [= <-]. simpl. rewrite Hl1, He1, Hb1, <- Hlen, (list_lookup_total_correct _ _ _ Hnn).
  by exists nn.
Qed.

Lemma sized_pop fuel n s s' :
  width_state s → sized [] s → 0 < n → n ≤ length (m_scopes s) →
  pop_scope_eh fuel n s = Some s' → sized [] s'.
Proof.
  intros Hw [Hlen _] Hn Hle H.
  destruct (pop_scope_eh_fields _ _ _ _ Hw Hn Hle H) as (k & Hb & He).
  destruct Hw as (_ & Hbits & _).
  split; [|by intros v Hv%elem_of_nil].
  intros v Hv _. unfold get_num_vars, get_bv_size in *. rewrite He, Hb in *.
  rewrite length_take in Hv. rewrite !lookup_total_take_lt by lia.
  apply Hlen; [lia|]. apply not_elem_of_nil.
Qed.

Lemma width_sized_mark s P :
  width_state s → sized P s →
  width_state (mark_approximated s) ∧ sized P (mark_approximated s).
Proof.
  intros Hw Hs. unfold mark_approximated. by destruct (m_approximates_large_bvs s).
Qed.

Lemma width_sized_run P s : run P s → width_state s ∧ sized P s.
Proof.
  induction 1 as [|P s n _ [Hw Hs]|P s bs n _ [Hw Hs]|P s bs n owner attached _ [Hw Hs]
                 |P s bv v idx _ [Hw Hs]|P s val sz n _ [Hw Hs] Hsz
                 |P s v l s' _ [Hw Hs] Hv Ha|P s v _ [Hw Hs]|P s v _ [Hw Hs] Hv Hlen
                 |P s o fuel v1 v2 s' _ [Hw Hs] H1 H2 HP1 HP2 Hsort He
                 |P s fuel bv b s' _ [Hw Hs] Ha|P s v1 v2 _ [Hw Hs]|P s _ [Hw Hs]
                 |s fuel n s' _ [Hw Hs] Hn Hle Hp|P s f _ [Hw Hs]].
  - split; [apply width_state_empty|]. split; [|by intros v Hv%elem_of_nil].
    intros v Hv. unfold get_num_vars in Hv. simpl in Hv. lia.
  - split; [by apply width_state_mk_var|by apply sized_mk_var].
  - by apply width_sized_get_var.
  - unfold apply_sort_cnstr. destruct attached; [done|].
    rewrite approximate_term_spec. destruct (bool_decide _).
    + by apply width_sized_mark.
    + by apply (width_sized_get_var P bs n s).
  - split.
    + by eapply (width_state_atoms s _ [mk_atom_trail bv]); try done; repeat constructor.
    + by eapply sized_fields.
  - unfold internalize_num.
    pose proof (width_state_mk_var n s Hw) as Hw1.
    pose proof (sized_mk_var P n s Hw Hs) as Hs1.
    assert (m_bits (mk_var n s) !!! get_num_vars s = []) as Hnil.
    { unfold get_num_vars. simpl. destruct Hw as (_ & Hbits & _).
      unfold get_num_vars in Hbits. rewrite <- Hbits.
      by rewrite lookup_total_app_r, Nat.sub_diag. }
    assert (e_bv_size (m_var2enode (mk_var n s) !!! get_num_vars s) = Some sz) as Hsort.
    { unfold get_num_vars. simpl. by rewrite lookup_total_app_r, Nat.sub_diag. }
    set (v := get_num_vars s) in *. remember (mk_var n s) as s1 eqn:Es1.
    assert (v ∈ v :: P) as HvP by (apply elem_of_cons; by left).
    destruct (proj2 Hs1 v HvP) as [Hv Hun].
    pose proof (internalize_num_loop_bits (num2bits val sz) v 0 s1) as Hst. cbv zeta in Hst.
    set (s2 := internalize_num_loop (num2bits val sz) v 0 s1) in *.
    apply static_part_fields in Hst as (_ & He' & Hl' & Hf' & Hb' & _ & Ht' & Hs' & _).
    simpl in He', Hl', Hf', Hb', Ht', Hs'.
    assert (width_state s2 ∧ sized P s2) as [Hw2 Hs2].
    { split.
      - by eapply (width_state_bits s1 s2 v _ []).
      - apply (sized_drop _ _ v); [|by eapply sized_set_bits].
        change (get_bv_size s2 v) with (default 0 (e_bv_size (m_var2enode s2 !!! v))).
        unfold theory_var in *. rewrite He', Hb', Hnil, Hsort.
        destruct Hw1 as (_ & Hb1 & _).
        rewrite list_lookup_total_insert_eq by (by rewrite Hb1). simpl.
        unfold num2bits. by rewrite !length_fmap, length_seq. }
    split; [eapply width_state_static|eapply sized_static];
      (apply static_fixed_var_eh || done).
  - split; [by eapply width_state_add_bit; [|apply Hs|]|].
    apply add_bit_fields in Ha as (He' & Hl' & Hf' & Hb' & _ & _).
    by eapply sized_set_bits.
  - split; [eapply width_state_static|eapply sized_static];
      (apply static_find_wpos || done).
  - split; [done|]. by apply sized_done.
  - exact (width_sized_new_eq P o fuel v1 v2 s s' Hw Hs H1 H2 HP1 HP2 Hsort He).
  - apply static_assign_eh in Ha.
    split; [by eapply width_state_static|by eapply sized_static].
  - split; [eapply width_state_static|eapply sized_static];
      (apply static_new_diseq_eh || done).
  - split; [by apply width_state_push|]. by eapply sized_fields.
  - split; [by eapply width_state_pop|by eapply sized_pop].
  - split; [done|]. by eapply sized_fields.
Qed.


Lemma width_run_3_run o : run [] (width_run_3 o).
Proof.
  assert (run [] width_run_1) as H1 by apply run_get_var, run_init.
  assert (run [] width_run_2) as H2.
  { pose proof (run_mk_enode [] width_run_1 two_bits H1) as Ha.
    assert (1 ∈ [1]) as Hin by (apply list_elem_of_singleton; reflexivity).
    destruct (add_bit 1 (Literal 3 false) (mk_var two_bits width_run_1)) as [sb|] eqn:Eb;
      [|vm_compute in Eb; discriminate].
    pose proof (run_add_bit _ _ 1 _ sb Ha Hin Eb) as Hb.
    destruct (add_bit 1 (Literal 4 false) sb) as [sc|] eqn:Ec;
      [|vm_compute in Eb; injection Eb as <-; vm_compute in Ec; discriminate].
    pose proof (run_add_bit _ _ 1 _ sc Hb Hin Ec) as Hc.
    assert (width_run_2 = sc) as ->.
    { unfold width_run_2. rewrite Eb. simpl. by rewrite Ec. }
    apply (run_done [1] sc 1 Hc Hin).
    vm_compute in Eb. injection Eb as <-. vm_compute in Ec. injection Ec as <-.
    reflexivity. }
  apply (run_new_eq [] (push_scope_eh width_run_2) o 10 0 1).
  - by apply run_push.
  - vm_compute. lia.
  - vm_compute. lia.
  - apply not_elem_of_nil.
  - apply not_elem_of_nil.
  - reflexivity.
  - by destruct o; vm_compute.
Qed.

(** ** Agreement along the rings after a callback *)

Lemma iter_period {A} (f : A → A) n m x : Nat.iter n f x = x → Nat.iter (m * n) f x = x.
Proof.
  intros H. induction m as [|m IH]; [done|].
  replace (S m * n) with (m * n + n) by lia. by rewrite Nat.iter_add, H.
Qed.

Lemma iter_mod {A} (f : A → A) n a x :
  n ≠ 0 → Nat.iter n f x = x → Nat.iter a f x = Nat.iter (a mod n) f x.
Proof.
  intros Hn H.
  replace (Nat.iter a f x) with (Nat.iter (a mod n + (a / n) * n) f x).
  - by rewrite Nat.iter_add, iter_period.
  - f_equal. pose proof (Nat.div_mod_eq a n). lia.
Qed.

Lemma ring_refl s v : ring s v v.
Proof. by exists 0. Qed.

Lemma ring_trans s v w u : ring s v w → ring s w u → ring s v u.
Proof. intros [a ->] [b ->]. exists (b + a). by rewrite Nat.iter_add. Qed.

Lemma ring_next s v : ring s v (next s v).
Proof. by exists 1. Qed.

Section rings.
Context (K F : nat) (s : theory_bv) (Hok : tables_ok K F s).

Lemma ring_in_range v w : v < get_num_vars s → ring s v w → w < get_num_vars s.
Proof.
  destruct Hok as (_ & _ & _ & _ & Hcyc & _).
  intros Hv [k ->]. induction k as [|k IH]; [done|]. simpl. by apply Hcyc.
Qed.

Lemma ring_sym v w : v < get_num_vars s → ring s v w → ring s w v.
Proof.
  destruct Hok as (_ & _ & _ & _ & Hcyc & _).
  intros Hv [a ->]. destruct (Hcyc v Hv) as [_ (k & _ & Hk)].
  exists (S a * S k - a). rewrite <- Nat.iter_add.
  replace (S a * S k - a + a) with (S a * S k) by nia.
  symmetry. by apply iter_period.
Qed.

Lemma ring_search (P : theory_var → Prop) `{!∀ w, Decision (P w)} u :
  u < get_num_vars s → (∀ w, ring s u w → ¬ P w) ∨ (∃ w, ring s u w ∧ P w).
Proof.
  destruct Hok as (_ & _ & _ & _ & Hcyc & _).
  intros Hu. destruct (Hcyc u Hu) as [_ (k & _ & Hk)].
  assert (∀ m, (∀ a, a < m → ¬ P (Nat.iter a (next s) u)) ∨
               (∃ a, P (Nat.iter a (next s) u))) as Hsearch.
  { induction m as [|m [IH|IH]].
    - left. intros a Ha. lia.
    - destruct (decide (P (Nat.iter m (next s) u))) as [Hp|Hp].
      + right. by exists m.
      + left. intros a Ha. destruct (decide (a = m)) as [->|]; [done|]. apply IH. lia.
    - by right. }
  destruct (Hsearch (S k)) as [Hnone|[a Ha]].
  - left. intros w [a ->]. rewrite (iter_mod _ (S k)) by done.
    apply Hnone. apply Nat.mod_upper_bound. lia.
  - right. exists (Nat.iter a (next s) u). split; [by exists a|done].
Qed.

End rings.

Lemma ring_static s s' v w : static_part s' = static_part s → ring s' v w ↔ ring s v w.
Proof.
  intros H. apply static_part_fields in H as (_ & _ & _ & Hf & _).
  unfold ring, next. by rewrite Hf.
Qed.

Lemma num_vars_static s s' : static_part s' = static_part s → get_num_vars s' = get_num_vars s.
Proof.
  intros H. apply static_part_fields in H as (_ & He & _). unfold get_num_vars. by rewrite He.
Qed.

Lemma tables_ok_static K F s s' :
  static_part s' = static_part s → tables_ok K F s → tables_ok K F s'.
Proof.
  intros Hst (H1 & H2 & H3 & H4 & H5 & H6).
  split; [by eapply propagation_ready_static|].
  pose proof (static_part_fields _ _ Hst) as (_ & He & _ & Hf & Hb & Ha & _).
  unfold ring, get_num_vars, bit_at, next, find in *. rewrite He, Hf, Hb, Ha. done.
Qed.

Lemma find_agree f1 f2 s v r1 r2 :
  find f1 s v = Some r1 → find f2 s v = Some r2 → r1 = r2.
Proof.
  unfold find. intros H1 H2.
  destruct (decide (f1 ≤ f2)) as [Hle|Hle].
  - apply (uf_find_root_mono _ f2) in H1; [congruence|done].
  - apply (uf_find_root_mono _ f1) in H2; [congruence|lia].
Qed.

Lemma push_occs_spec fuel v2 idx occs s s' :
  push_occs fuel false v2 idx occs s = Some s' →
  ∃ pushed, s' = upd_prop_queue (λ q, q ++ pushed) s ∧
            (∀ p, p ∈ pushed → p ∈ occs) ∧
            ∀ cv cidx, (cv, cidx) ∈ occs →
              (cv, cidx) ∈ pushed ∨
              (cidx = idx ∧ ∃ r, find fuel s cv = Some r ∧ find fuel s v2 = Some r).
Proof.
  revert s s'. induction occs as [|[cv cidx] occs IH]; intros s s' H; simpl in H.
  - injection H as <-. exists []. split; [|split].
    + destruct s. unfold upd_prop_queue. simpl. by rewrite app_nil_r.
    + done.
    + intros cv cidx Hin. by apply elem_of_nil in Hin.
  - destruct (find fuel s cv) as [r1|] eqn:E1; [|done]. simpl in H.
    destruct (find fuel s v2) as [r2|] eqn:E2; [|done]. simpl in H.
    destruct (bool_decide (r1 ≠ r2) || bool_decide (cidx ≠ idx)) eqn:Eb.
    + apply IH in H as (pushed & Hs' & Hsub & Hall).
      exists ((cv, cidx) :: pushed). split; [|split].
      * rewrite Hs'. destruct s. unfold upd_prop_queue. simpl. by rewrite <- app_assoc.
      * intros p [->|Hp]%elem_of_cons; [constructor|]. constructor. by apply Hsub.
      * intros cv' cidx' [Heq|Hin]%elem_of_cons.
        -- injection Heq as -> ->. left. constructor.
        -- destruct (Hall cv' cidx' Hin) as [Hp|[-> (r & Hr1 & Hr2)]]; [left; by constructor|].
           right. split; [done|]. exists r. split; [exact Hr1|].
           change (find fuel s v2 = Some r) in Hr2. by rewrite E2 in Hr2.
    + apply IH in H as (pushed & Hs' & Hsub & Hall).
      exists pushed. split; [done|]. split.
      * intros p Hp. constructor. by apply Hsub.
      * intros cv' cidx' [Heq|Hin]%elem_of_cons.
        -- injection Heq as -> ->. right.
           apply orb_false_iff in Eb as [Eb1 Eb2].
           apply bool_decide_eq_false in Eb1, Eb2.
           apply dec_stable in Eb1, Eb2. subst. split; [done|]. by exists r2.
        -- destruct (Hall cv' cidx' Hin) as [Hp|[-> (r & Hr1 & Hr2)]]; [by left|].
           right. split; [done|]. exists r. split; [exact Hr1|]. by rewrite E2 in Hr2.
Qed.

Lemma assign_bit_pushed fuel c v1 v2 idx a s s' :
  assign_bit fuel c v1 v2 idx a false s = Some s' → c ≠ false_literal →
  ∃ occs pushed,
    m_bool_var2atom s !! lit_var c = Some (bit_atom occs) ∧
    m_prop_queue s' = m_prop_queue s ++ pushed ∧
    (∀ p, p ∈ pushed → p ∈ occs) ∧
    ∀ cv cidx, (cv, cidx) ∈ occs →
      (cv, cidx) ∈ pushed ∨
      (cidx = idx ∧ ∃ r, find fuel s cv = Some r ∧ find fuel s v2 = Some r).
Proof.
  unfold assign_bit. intros H Hc. rewrite decide_False in H by done.
  set (s1 := upd_ctx (assign c (bit_eq_justification v1 v2 c a)) s) in *.
  set (s2 := if decide (m_wpos s1 !!! v2 = idx) then find_wpos v2 s1 else s1) in *.
  assert (static_part s2 = static_part s) as Hst.
  { unfold s2. destruct (decide _); rewrite ?static_find_wpos;
      apply static_upd_ctx, ctx_static_assign. }
  assert (m_prop_queue s2 = m_prop_queue s) as Hq.
  { unfold s2. destruct (decide _); by rewrite ?queue_find_wpos. }
  pose proof (static_part_fields _ _ Hst) as (_ & _ & _ & Hf & _ & Ha & _).
  rewrite Ha in H.
  destruct (m_bool_var2atom s !! lit_var c) as [[occs|]|]; [|done..].
  apply push_occs_spec in H as (pushed & -> & Hsub & Hall).
  exists occs, pushed. split; [done|]. split; [by simpl; rewrite Hq|]. split; [done|].
  intros cv cidx Hin. destruct (Hall cv cidx Hin) as [|[-> (r & Hr1 & Hr2)]]; [by left|].
  right. split; [done|]. exists r. unfold find in *. by rewrite <- Hf.
Qed.

Lemma assign_bit_frame fuel c v1 v2 idx a eqc s s' l :
  assign_bit fuel c v1 v2 idx a eqc s = Some s' → lit_var l ≠ lit_var c →
  get_assignment (ctx s') l = get_assignment (ctx s) l.
Proof.
  intros H Hl. apply dyn_assign_bit in H. unfold dyn in H. injection H as Hasg _.
  assert (m_assignment (ctx s') !! lit_var l = m_assignment (ctx s) !! lit_var l) as Heq.
  { rewrite Hasg. destruct (decide (c = false_literal)).
    - by rewrite assignment_set_conflict.
    - unfold assign. destruct (get_assignment (ctx s) c); simpl;
        rewrite ?assignment_set_conflict, ?lookup_insert_ne; done. }
  unfold get_assignment. by rewrite Heq.
Qed.

Lemma queue_assigned_assign_bit fuel c v1 v2 idx a s s' :
  assign_bit fuel c v1 v2 idx a false s = Some s' →
  queue_assigned s → queue_assigned s'.
Proof.
  intros H Hq.
  pose proof (static_assign_bit _ _ _ _ _ _ _ _ _ H) as Hst.
  pose proof (grows_assign_bit _ _ _ _ _ _ _ _ _ H) as Hg.
  destruct (decide (c = false_literal)) as [Hc|Hc].
  - apply (queue_assigned_weaken s); try done.
    unfold assign_bit in H. rewrite decide_True in H by done. by injection H as <-.
  - destruct (assign_bit_pushed _ _ _ _ _ _ _ _ H Hc) as (occs & pushed & Ha & Hqs & Hsub & _).
    intros w j Hin. rewrite Hqs in Hin. apply elem_of_app in Hin as [Hin|Hin].
    + destruct (Hq w j Hin) as (bv & occs' & Hat & Ho & Hn).
      apply static_part_fields in Hst as (_ & _ & _ & _ & _ & Hat' & _).
      exists bv, occs'. rewrite Hat'. split; [done|]. split; [done|].
      destruct Hg as [Hsub' _].
      destruct (m_assignment (ctx s) !! bv) as [x|] eqn:E; [|done].
      by rewrite (lookup_weaken _ _ _ _ E Hsub').
    + apply static_part_fields in Hst as (_ & _ & _ & _ & _ & Hat' & _).
      exists (lit_var c), occs. rewrite Hat'. split; [done|]. split; [by apply Hsub|].
      apply dyn_assign_bit in H. unfold dyn in H. injection H as -> _.
      rewrite decide_False by done. apply assign_assigned.
Qed.

Lemma agree_at_frame s s' u idx :
  static_part s' = static_part s →
  (∀ w, ring s u w →
        get_assignment (ctx s') (bit_at s w idx) = get_assignment (ctx s) (bit_at s w idx)) →
  agree_at s u idx → agree_at s' u idx.
Proof.
  intros Hst Hsame Hag w Hw. apply (ring_static _ _ _ _ Hst) in Hw.
  rewrite !(bit_at_static _ _ _ _ Hst).
  rewrite (Hsame w Hw), (Hsame u (ring_refl s u)). by apply Hag.
Qed.

Lemma pending_ring_app s s' i u idx pushed :
  static_part s' = static_part s → m_prop_queue s' = m_prop_queue s ++ pushed →
  pending_ring s i u idx → pending_ring s' i u idx.
Proof.
  intros Hst Hq (j & w & Hj & Hl & Hr). exists j, w. split; [done|].
  split; [|by apply (ring_static _ _ _ _ Hst)]. rewrite Hq. by apply lookup_app_l_Some.
Qed.

(** One assignment made during the walk along the ring of [v]. *)
Lemma excused_static N s s' u idx :
  static_part s' = static_part s → excused N s u idx → excused N s' u idx.
Proof.
  intros Hst (w & Hw & Hin). exists w. split; [by apply (ring_static _ _ _ _ Hst)|].
  by rewrite (bit_at_static _ _ _ _ Hst).
Qed.

Lemma walk_inv_assign_bit K F N fuel i v idx0 v2 a s s1 val :
  tables_ok K F s → true_assigned s →
  v < get_num_vars s → ring s v v2 → S i ≤ length (m_prop_queue s) →
  val ≠ l_undef → get_assignment (ctx s) (bit_at s v2 idx0) ≠ val →
  assign_bit fuel (polarize val (bit_at s v2 idx0)) v v2 idx0 a false s = Some s1 →
  inconsistent (ctx s1) = false →
  walk_inv N i v idx0 s → walk_inv N i v idx0 s1.
Proof.
  intros Hok Htrue Hv Hv2 Hi Hval Hne Hs1 Hcons Hinv.
  pose proof (static_assign_bit _ _ _ _ _ _ _ _ _ Hs1) as Hst.
  set (c := polarize val (bit_at s v2 idx0)) in *.
  assert (c ≠ false_literal) as Hc.
  { intros Hf. rewrite Hf in Hs1. apply assign_bit_false_literal in Hs1. congruence. }
  assert (lit_var (bit_at s v2 idx0) ≠ true_bool_var) as Hx.
  { intros Hx. apply Hc. by eapply polarize_constant. }
  destruct (assign_bit_pushed _ _ _ _ _ _ _ _ Hs1 Hc) as (occs & pushed & Hat & Hq & _ & Hall).
  unfold c in Hat. rewrite polarize_var in Hat.
  pose proof Hok as (Hready & _ & Hcomplete & Hrange & _ & Hclass & _).
  destruct Hready as (_ & _ & Hfind).
  intros u idx Hu. rewrite (num_vars_static _ _ Hst) in Hu.
  destruct (Hinv u idx Hu) as [Hag|[Hp|[[-> Hcur]|Hex]]].
  - destruct (ring_search K F s Hok
                (λ w, lit_var (bit_at s w idx) = lit_var (bit_at s v2 idx0)) u Hu)
      as [Hnone|(w & Hw & Hvar)].
    + left. apply (agree_at_frame s); [done| |done].
      intros w Hw. eapply assign_bit_frame; [exact Hs1|].
      unfold c. rewrite polarize_var. by apply Hnone.
    + destruct (Hcomplete w idx) as (occs' & Hat' & Hin); [by rewrite Hvar|].
      rewrite Hvar, Hat in Hat'. injection Hat' as <-.
      destruct (Hall w idx Hin) as [Hpushed|[-> (r & Hr1 & Hr2)]].
      * right. left. apply list_elem_of_lookup in Hpushed as [j Hj].
        exists (length (m_prop_queue s) + j), w. split; [lia|].
        split; [|by apply (ring_static _ _ _ _ Hst)].
        rewrite Hq. rewrite lookup_app_r by apply Nat.le_add_r.
        by rewrite Nat.add_comm, Nat.add_sub.
      * right. right. left. split; [done|].
        assert (v2 < get_num_vars s) as Hv2r by exact (ring_in_range K F s Hok v v2 Hv Hv2).
        assert (w < get_num_vars s) as Hwr by exact (Hrange _ _ _ _ Hat Hin).
        assert (find F s w = Some r) as Hrw.
        { destruct (Hfind w) as [rw Hrw]. by rewrite (find_agree _ _ _ _ _ _ Hr1 Hrw). }
        assert (find F s v2 = Some r) as Hrv.
        { destruct (Hfind v2) as [rv Hrv]. by rewrite (find_agree _ _ _ _ _ _ Hr2 Hrv). }
        apply (ring_static _ _ _ _ Hst).
        eapply ring_trans; [exact Hv2|].
        eapply ring_trans; [exact (Hclass v2 w r Hv2r Hwr Hrv Hrw)|].
        exact (ring_sym K F s Hok u w Hu Hw).
  - right. left. by eapply pending_ring_app.
  - right. right. left. split; [done|]. by apply (ring_static _ _ _ _ Hst).
  - right. right. right. by eapply excused_static.
Qed.

(** The walk of [propagate_bits] along the ring of [v]: [v2] is [a] steps from
    [v], and the variables before it on the ring have the value [val] at bit
    [idx0]. *)
Lemma propagate_ring_agree K F N fuel i v idx0 bit val a v2 s r s' :
  tables_ok K F s → true_assigned s → v < get_num_vars s → val ≠ l_undef →
  1 ≤ a → v2 = Nat.iter a (next s) v →
  (∀ k, k < a → get_assignment (ctx s) (bit_at s (Nat.iter k (next s) v) idx0) = val) →
  S i ≤ length (m_prop_queue s) → queue_assigned s → walk_inv N i v idx0 s →
  propagate_ring fuel v idx0 bit val v2 s = Some (r, s') →
  queue_assigned s' ∧
  (r = true → inconsistent (ctx s') = true) ∧
  (r = false →
   walk_inv N i v idx0 s' ∧
   ∀ w, ring s v w → get_assignment (ctx s') (bit_at s w idx0) = val).
Proof.
  intros Hok Htrue Hv Hval.
  revert a v2 s Hok Htrue Hv.
  induction fuel as [|fuel IH]; intros a v2 s Hok Htrue Hv Ha Hv2 Hvis Hi Hqa Hinv H;
    simpl in H; [done|].
  destruct (decide (v2 = v)) as [Hback|Hgo].
  - injection H as <- <-. split; [done|]. split; [done|]. intros _. split; [done|].
    intros w [k ->]. rewrite (iter_mod _ a) by (lia || congruence).
    apply Hvis. apply Nat.mod_upper_bound. lia.
  - assert (ring s v v2) as Hring by (by exists a).
    destruct (decide (val ≠ get_assignment (ctx s) (bit_at s v2 idx0))) as [Hne|Heq].
    + destruct (assign_bit fuel _ v v2 idx0 _ false s) as [s1|] eqn:Hs1; [|done].
      simpl in H.
      pose proof (static_assign_bit _ _ _ _ _ _ _ _ _ Hs1) as Hst.
      pose proof (grows_assign_bit _ _ _ _ _ _ _ _ _ Hs1) as Hg.
      pose proof (queue_assigned_assign_bit _ _ _ _ _ _ _ _ Hs1 Hqa) as Hqa1.
      destruct (inconsistent (ctx s1)) eqn:Ei.
      * injection H as <- <-. split; [done|]. split; [done|]. done.
      * destruct (assign_bit_result _ _ _ _ _ _ _ _ _ _ Hval (not_eq_sym Hne) Hs1)
          as [Hinc|[_ Hnew]]; [congruence|].
        assert (next s1 = next s) as Hnext.
        { apply static_part_fields in Hst as (_ & _ & _ & Hf & _). unfold next. by rewrite Hf. }
        destruct (assign_bit_pushed _ _ _ _ _ _ _ _ Hs1) as (_ & pushed & _ & Hq & _).
        { intros Hf. rewrite Hf in Hs1. apply assign_bit_false_literal in Hs1. congruence. }
        assert (tables_ok K F s1) as Hok1 by (by eapply tables_ok_static).
        assert (true_assigned s1) as Htrue1 by (by eapply true_assigned_grows).
        assert (v < get_num_vars s1) as Hv1 by (by rewrite (num_vars_static _ _ Hst)).
        assert (next s1 v2 = Nat.iter (S a) (next s1) v) as Hv21.
        { rewrite Hnext, Hv2. done. }
        assert (∀ k, k < S a →
                  get_assignment (ctx s1) (bit_at s1 (Nat.iter k (next s1) v) idx0) = val)
          as Hvis1.
        { intros k Hk. rewrite Hnext, (bit_at_static _ _ _ _ Hst).
          destruct (decide (k = a)) as [->|Hka].
          - by rewrite <- Hv2.
          - rewrite (get_assignment_grows _ _ _ Hg); rewrite Hvis by lia; done. }
        assert (S i ≤ length (m_prop_queue s1)) as Hi1.
        { rewrite Hq, length_app. lia. }
        assert (walk_inv N i v idx0 s1) as Hinv1.
        { exact (walk_inv_assign_bit K F N fuel i v idx0 v2 _ s s1 val Hok Htrue Hv Hring Hi
                   Hval (not_eq_sym Hne) Hs1 Ei Hinv). }
        destruct (IH (S a) (next s1 v2) s1 Hok1 Htrue1 Hv1 ltac:(lia)
                    Hv21 Hvis1 Hi1 Hqa1 Hinv1 H) as (Hqa' & Ht & Hf).
        split; [done|]. split; [done|]. intros Hr. destruct (Hf Hr) as [Hw Hall].
        split; [done|]. intros w Hw'. rewrite <- (bit_at_static _ _ _ _ Hst).
        apply Hall. by apply (ring_static _ _ _ _ Hst).
    + apply dec_stable in Heq.
      assert (next s v2 = Nat.iter (S a) (next s) v) as Hv21 by (by rewrite Hv2).
      assert (∀ k, k < S a →
                get_assignment (ctx s) (bit_at s (Nat.iter k (next s) v) idx0) = val) as Hvis1.
      { intros k Hk. destruct (decide (k = a)) as [->|Hka]; [by rewrite <- Hv2|].
        apply Hvis. lia. }
      assert (1 ≤ S a) as Ha1 by lia.
      exact (IH (S a) (next s v2) s Hok Htrue Hv Ha1 Hv21 Hvis1 Hi Hqa Hinv H).
Qed.

Lemma agree_at_dyn s s' u idx :
  static_part s' = static_part s → dyn (ctx s') = dyn (ctx s) →
  agree_at s u idx → agree_at s' u idx.
Proof.
  intros Hst Hd. apply agree_at_frame; [done|]. intros w _.
  unfold dyn in Hd. injection Hd as Hasg _. unfold get_assignment. by rewrite Hasg.
Qed.

(** The loop of [propagate_bits] from entry [i] on. *)
Lemma propagate_loop_agree K F N fuel i s s' :
  tables_ok K F s → true_assigned s → queue_assigned s → loop_inv N i s →
  propagate_loop fuel i s = Some s' →
  inconsistent (ctx s') = true ∨ settled N s'.
Proof.
  revert i s. induction fuel as [|fuel IH]; intros i s Hok Htrue Hqa Hinv H; simpl in H;
    [done|].
  destruct (m_prop_queue s !! i) as [[v idx]|] eqn:E.
  - set (s1 := if decide (m_wpos s !!! v = idx) then find_wpos v s else s) in *.
    assert (static_part s1 = static_part s) as Hst1.
    { unfold s1. destruct (decide _); [apply static_find_wpos|done]. }
    assert (dyn (ctx s1) = dyn (ctx s)) as Hd1.
    { unfold s1. destruct (decide _); [apply dyn_find_wpos|done]. }
    assert (m_prop_queue s1 = m_prop_queue s) as Hq1.
    { unfold s1. destruct (decide _); [apply queue_find_wpos|done]. }
    pose proof (tables_ok_static _ _ _ _ Hst1 Hok) as Hok1.
    pose proof (true_assigned_grows _ _ (grows_dyn _ _ Hd1) Htrue) as Htrue1.
    pose proof (queue_assigned_weaken _ _ Hst1 (grows_dyn _ _ Hd1) Hq1 Hqa) as Hqa1.
    destruct (Hqa v idx) as (bv & occs & Hat & Hocc & Hasg).
    { apply list_elem_of_lookup. by exists i. }
    pose proof Hok as ((_ & H2 & _) & _ & _ & Hrange & _).
    destruct (H2 bv occs v idx Hat Hocc) as (Hvar & _).
    assert (v < get_num_vars s) as Hv by exact (Hrange _ _ _ _ Hat Hocc).
    assert (v < get_num_vars s1) as Hv1 by (by rewrite (num_vars_static _ _ Hst1)).
    assert (get_assignment (ctx s1) (bit_at s1 v idx) ≠ l_undef) as Hval.
    { apply assigned_not_undef. rewrite (bit_at_static _ _ _ _ Hst1), Hvar.
      unfold dyn in Hd1. injection Hd1 as -> _. done. }
    assert (S i ≤ length (m_prop_queue s1)) as Hi1.
    { rewrite Hq1. by eapply lookup_lt_Some. }
    assert (walk_inv N i v idx s1) as Hwalk.
    { intros u idx' Hu. rewrite (num_vars_static _ _ Hst1) in Hu.
      destruct (Hinv u idx' Hu) as [Hag|[(j & w & Hj & Hl & Hr)|Hex]].
      - left. by apply (agree_at_dyn s).
      - destruct (decide (j = i)) as [->|Hji].
        + rewrite E in Hl. injection Hl as <- <-. right. right. left. split; [done|].
          apply (ring_static _ _ _ _ Hst1). exact (ring_sym K F s Hok u v Hu Hr).
        + right. left. exists j, w. split; [lia|]. rewrite Hq1. split; [done|].
          by apply (ring_static _ _ _ _ Hst1).
      - right. right. right. by eapply excused_static. }
    destruct (propagate_ring fuel v idx _ _ (next s1 v) s1) as [[ret s2]|] eqn:Hring;
      [|done]. simpl in H.
    assert (∀ k, k < 1 →
              get_assignment (ctx s1) (bit_at s1 (Nat.iter k (next s1) v) idx) =
              get_assignment (ctx s1) (bit_at s1 v idx)) as Hvis.
    { intros k Hk. by replace k with 0 by lia. }
    destruct (propagate_ring_agree K F N fuel i v idx _ _ 1 (next s1 v) s1 ret s2
                Hok1 Htrue1 Hv1 Hval (Nat.le_refl 1) eq_refl Hvis Hi1 Hqa1 Hwalk Hring)
      as (Hqa2 & Hret & Hdone).
    destruct ret; [left; injection H as <-; by apply Hret|].
    destruct (Hdone eq_refl) as [Hwalk2 Hall].
    pose proof (static_propagate_ring _ _ _ _ _ _ _ _ _ Hring) as Hst2.
    pose proof (grows_propagate_ring _ _ _ _ _ _ _ _ _ Hring) as Hg2.
    apply (IH (S i) s2); try done.
    + by eapply tables_ok_static.
    + by eapply true_assigned_grows.
    + intros u idx' Hu. destruct (Hwalk2 u idx' Hu) as [Hag|[Hp|[[-> Hr]|Hex]]];
        [by left|by right; left| |by right; right]. left.
      assert (∀ w, ring s2 v w →
                get_assignment (ctx s2) (bit_at s2 w idx) =
                get_assignment (ctx s1) (bit_at s1 v idx)) as Hval2.
      { intros w Hw. rewrite (bit_at_static _ _ _ _ Hst2). apply Hall.
        by apply (ring_static _ _ _ _ Hst2). }
      intros w Hw. rewrite (Hval2 u Hr). apply Hval2. by eapply ring_trans.
  - injection H as <-. right. intros v idx Hv.
    destruct (Hinv v idx Hv) as [Hag|[(j & w & Hj & Hl & _)|Hex]]; [by left| |by right].
    apply lookup_ge_None in E. apply lookup_lt_Some in Hl. lia.
Qed.

(** *** [assign_eh] *)

Lemma excused_weaken (N N' : gset bool_var) s u idx :
  (∀ x, x ∈ N → x ∈ N') → excused N s u idx → excused N' s u idx.
Proof. intros Hsub (w & Hw & Hin). exists w. split; [done|]. by apply Hsub. Qed.

Lemma assign_eh_settles K F N fuel bv b s :
  tables_ok K F s → true_assigned s → settled N s → callback_ready (on_assign bv b) s →
  F + K + 2 + callback_work (on_assign bv b) s ≤ fuel →
  ∃ s', assign_eh fuel bv b s = Some s' ∧
        (inconsistent (ctx s') = true ∨ settled (N ∖ {[bv]}) s').
Proof.
  intros Hok Htrue Hset ([a Ha] & Hasg) Hfuel.
  pose proof Hok as (Hready & Hconst & Hcomplete & _).
  assert (bv ≠ true_bool_var) as Hbv by congruence.
  assert (∀ u idx w, ring s u w → lit_var (bit_at s w idx) ∈ N →
            lit_var (bit_at s w idx) ≠ bv → excused (N ∖ {[bv]}) s u idx) as Hother.
  { intros u idx w Hw Hin Hne. exists w. split; [done|]. set_solver. }
  unfold assign_eh, callback_work, occurrences in *. rewrite Ha in *. destruct a as [occs|].
  - set (sq := upd_prop_queue (λ _, occs) s).
    assert (queue_assigned sq) as Hqa.
    { intros w j Hin. exists bv, occs. split; [done|]. split; [done|]. simpl. congruence. }
    destruct (propagate_loop_total K F (length occs + pending s) fuel 0 sq) as [s' Hs'];
      try done; [simpl; unfold pending; simpl; fold (pending s); lia|].
    exists s'. split; [done|].
    apply (propagate_loop_agree K F (N ∖ {[bv]}) fuel 0 sq s'); try done.
    intros u idx Hu.
    destruct (Hset u idx Hu) as [Hag|(w & Hw & Hin)]; [by left|].
    destruct (decide (lit_var (bit_at s w idx) = bv)) as [Hvar|Hne].
    + right. left. destruct (Hcomplete w idx) as (occs' & Hat' & Hin'); [by rewrite Hvar|].
      rewrite Hvar, Ha in Hat'. injection Hat' as <-.
      apply list_elem_of_lookup in Hin' as [j Hj]. exists j, w. split; [lia|]. done.
    + right. right. by apply (Hother u idx w).
  - exists s. split; [done|]. right. intros u idx Hu.
    destruct (Hset u idx Hu) as [Hag|(w & Hw & Hin)]; [by left|]. right.
    apply (Hother u idx w); try done.
    intros Hvar. destruct (Hcomplete w idx) as (occs' & Hat' & _); [by rewrite Hvar|].
    rewrite Hvar, Ha in Hat'. done.
Qed.

(** *** Two cycles joined by a swap of successors *)

Lemma iter_comm {A} (f : A → A) a x : Nat.iter a f (f x) = f (Nat.iter a f x).
Proof. induction a as [|a IH]; [done|]. simpl. by rewrite IH. Qed.

(** The first return of [x] to itself. *)
Lemma first_return (f : nat → nat) x k :
  Nat.iter (S k) f x = x →
  ∃ p, p ≤ k ∧ Nat.iter (S p) f x = x ∧ ∀ j, 0 < j → j ≤ p → Nat.iter j f x ≠ x.
Proof.
  induction (lt_wf k) as [k _ IH]. intros Hk.
  assert (∀ m, (∀ j, 0 < j → j ≤ m → Nat.iter j f x ≠ x) ∨
               (∃ j, 0 < j ∧ j ≤ m ∧ Nat.iter j f x = x)) as Hsearch.
  { induction m as [|m [IHm|IHm]].
    - left. intros j ? ?. lia.
    - destruct (decide (Nat.iter (S m) f x = x)) as [Hm|Hm].
      + right. exists (S m). split; [lia|]. split; [lia|done].
      + left. intros j Hj Hle. destruct (decide (j = S m)) as [->|]; [done|]. apply IHm; lia.
    - right. destruct IHm as (j & ? & ? & ?). exists j. split; [done|]. split; [lia|done]. }
  destruct (Hsearch k) as [Hnone|(j & Hj & Hle & Hret)].
  - exists k. split; [done|]. split; [done|]. exact Hnone.
  - destruct j as [|j]; [lia|]. destruct (IH j) as (p & Hp & Hpk & Hmin); [lia|done|].
    exists p. split; [lia|]. split; [done|]. exact Hmin.
Qed.

Lemma orbit_refl f x : orbit f x x.
Proof. by exists 0. Qed.

Lemma orbit_trans f x y z : orbit f x y → orbit f y z → orbit f x z.
Proof. intros [a ->] [b ->]. exists (b + a). by rewrite Nat.iter_add. Qed.

Lemma orbit_step f x y : orbit f x y → orbit f x (f y).
Proof. intros [a ->]. by exists (S a). Qed.

Lemma orbit_sym f x y : (∃ k, Nat.iter (S k) f x = x) → orbit f x y → orbit f y x.
Proof.
  intros [k Hk] [a ->]. exists (S a * S k - a). rewrite <- Nat.iter_add.
  replace (S a * S k - a + a) with (S a * S k) by nia.
  symmetry. by apply iter_period.
Qed.

Lemma orbit_periodic f x y k :
  Nat.iter (S k) f x = x → orbit f x y → Nat.iter (S k) f y = y.
Proof.
  intros Hk [a ->]. rewrite <- Nat.iter_add, Nat.add_comm, Nat.iter_add. by rewrite Hk.
Qed.

Section cycles.

Context (f g : nat → nat) (ra rb n K : nat).
Context (Hne : ra ≠ rb) (Hga : g ra = f rb) (Hgb : g rb = f ra).
Context (Hg : ∀ x, x ≠ ra → x ≠ rb → g x = f x).
Context (Hper : ∀ u, u < n → f u < n ∧ ∃ k, k < K ∧ Nat.iter (S k) f u = u).
Context (Hra : ra < n) (Hrb : rb < n).
Context (Hsep_a : ¬ orbit f ra rb) (Hsep_b : ¬ orbit f rb ra).

Local Abbreviation joint := (joint f ra rb).

Lemma f_periodic u : u < n → ∃ k, Nat.iter (S k) f u = u.
Proof. intros Hu. destruct (Hper u Hu) as [_ (k & _ & Hk)]. by exists k. Qed.

Lemma orbit_f_range u w : u < n → orbit f u w → w < n.
Proof.
  intros Hu [k ->]. induction k as [|k IH]; [done|]. simpl. by apply Hper.
Qed.

Lemma joint_range u : joint u → u < n.
Proof.
  intros [H|H]; [exact (orbit_f_range ra u Hra H)|exact (orbit_f_range rb u Hrb H)].
Qed.

Lemma joint_g u : joint u → joint (g u).
Proof.
  intros Hu. destruct (decide (u = ra)) as [->|Hua].
  - rewrite Hga. right. apply orbit_step, orbit_refl.
  - destruct (decide (u = rb)) as [->|Hub].
    + rewrite Hgb. left. apply orbit_step, orbit_refl.
    + rewrite Hg by done. destruct Hu as [Hu|Hu]; [left|right]; by apply orbit_step.
Qed.

Lemma orbit_g_joint u w : joint u → orbit g u w → joint w.
Proof.
  intros Hu [k ->]. induction k as [|k IH]; [done|]. simpl. by apply joint_g.
Qed.

(** Off the two cycles nothing changes. *)
Lemma off_joint_iter u j : u < n → ¬ joint u → Nat.iter j g u = Nat.iter j f u.
Proof.
  intros Hu Hoff. induction j as [|j IH]; [done|]. simpl. rewrite IH.
  apply Hg.
  - intros Heq. apply Hoff. left. apply orbit_sym; [by apply f_periodic|].
    rewrite <- Heq. by exists j.
  - intros Heq. apply Hoff. right. apply orbit_sym; [by apply f_periodic|].
    rewrite <- Heq. by exists j.
Qed.

Lemma off_joint_orbit u w : u < n → ¬ joint u → orbit g u w ↔ orbit f u w.
Proof.
  intros Hu Hoff. split; intros [k ->]; exists k; by rewrite off_joint_iter.
Qed.

(** From [ra] the new successor runs through the cycle of [rb] and arrives
    at [rb]; and symmetrically. *)
Lemma cross_a pb :
  Nat.iter (S pb) f rb = rb → (∀ j, 0 < j → j ≤ pb → Nat.iter j f rb ≠ rb) →
  ∀ j, 1 ≤ j → j ≤ S pb → Nat.iter j g ra = Nat.iter j f rb.
Proof.
  intros Hpb Hmin j Hj. induction j as [|j IH]; [lia|]. intros Hle.
  destruct (decide (j = 0)) as [->|Hj0]; [by simpl|].
  simpl. rewrite IH by lia. apply Hg.
  - intros Heq. apply Hsep_b. rewrite <- Heq. by exists j.
  - apply Hmin; lia.
Qed.

Lemma cross_b pa :
  Nat.iter (S pa) f ra = ra → (∀ j, 0 < j → j ≤ pa → Nat.iter j f ra ≠ ra) →
  ∀ j, 1 ≤ j → j ≤ S pa → Nat.iter j g rb = Nat.iter j f ra.
Proof.
  intros Hpa Hmin j Hj. induction j as [|j IH]; [lia|]. intros Hle.
  destruct (decide (j = 0)) as [->|Hj0]; [by simpl|].
  simpl. rewrite IH by lia. apply Hg.
  - apply Hmin; lia.
  - intros Heq. apply Hsep_a. rewrite <- Heq. by exists j.
Qed.

Lemma joint_cycle :
  ∃ pa pb, pa < K ∧ pb < K ∧
    Nat.iter (S pb) g ra = rb ∧ Nat.iter (S pa) g rb = ra ∧
    (∀ j, 1 ≤ j → j ≤ S pb → Nat.iter j g ra = Nat.iter j f rb) ∧
    (∀ j, 1 ≤ j → j ≤ S pa → Nat.iter j g rb = Nat.iter j f ra) ∧
    Nat.iter (S pa) f ra = ra ∧ Nat.iter (S pb) f rb = rb.
Proof.
  destruct (Hper ra Hra) as [_ (ka & Hka & Hpa)].
  destruct (Hper rb Hrb) as [_ (kb & Hkb & Hpb)].
  destruct (first_return f ra ka Hpa) as (pa & Hpa_le & Hpa' & Hmin_a).
  destruct (first_return f rb kb Hpb) as (pb & Hpb_le & Hpb' & Hmin_b).
  exists pa, pb. split; [lia|]. split; [lia|].
  pose proof (cross_a pb Hpb' Hmin_b) as Ha. pose proof (cross_b pa Hpa' Hmin_a) as Hb.
  split_and!; try done.
  - rewrite Ha by lia. done.
  - rewrite Hb by lia. done.
Qed.

Lemma joint_orbit_g u : joint u → orbit g ra u.
Proof.
  destruct joint_cycle as (pa & pb & _ & _ & Hab & Hba & Ha & Hb & Hpa & Hpb).
  intros [[j ->]|[j ->]].
  - rewrite (iter_mod f (S pa)) by done.
    assert (j mod S pa < S pa) as Hlt by (apply Nat.mod_upper_bound; lia).
    destruct (decide (j mod S pa = 0)) as [->|Hj0]; [apply orbit_refl|].
    rewrite <- Hb by lia. rewrite <- Hab. rewrite <- Nat.iter_add. by eexists.
  - rewrite (iter_mod f (S pb)) by done.
    assert (j mod S pb < S pb) as Hlt by (apply Nat.mod_upper_bound; lia).
    destruct (decide (j mod S pb = 0)) as [->|Hj0].
    + simpl. rewrite <- Hab. by eexists.
    + rewrite <- Ha by lia. by eexists.
Qed.

Lemma g_periodic_ra : ∃ k, k < K + K ∧ Nat.iter (S k) g ra = ra.
Proof.
  destruct joint_cycle as (pa & pb & Hpa & Hpb & Hab & Hba & _).
  exists (pa + S pb). split; [lia|].
  replace (S (pa + S pb)) with (S pa + S pb) by lia.
  by rewrite Nat.iter_add, Hab, Hba.
Qed.

Lemma g_periodic u : u < n → g u < n ∧ ∃ k, k < K + K ∧ Nat.iter (S k) g u = u.
Proof.
  intros Hu. split.
  - destruct (decide (u = ra)) as [->|Hua]; [rewrite Hga; by apply Hper|].
    destruct (decide (u = rb)) as [->|Hub]; [rewrite Hgb; by apply Hper|].
    rewrite Hg by done. by apply Hper.
  - destruct (Hper u Hu) as [_ (k & Hk & Hku)].
    destruct g_periodic_ra as (kg & Hkg & Hg_ra).
    assert (joint u ∨ ¬ joint u) as [Hj|Hoff].
    { destruct (Hper ra Hra) as [_ (ka & _ & Hpa)].
      destruct (Hper rb Hrb) as [_ (kb & _ & Hpb)].
      assert (∀ x kx, Nat.iter (S kx) f x = x → orbit f x u ∨ ¬ orbit f x u) as Hdec.
      { intros x kx Hx.
        assert (∀ m, (∀ a, a < m → Nat.iter a f x ≠ u) ∨ (∃ a, Nat.iter a f x = u)) as Hs.
        { induction m as [|m [IH|IH]].
          - left. intros a Ha. lia.
          - destruct (decide (Nat.iter m f x = u)) as [Hm|Hm]; [right; by exists m|].
            left. intros a Ha. destruct (decide (a = m)) as [->|]; [done|]. apply IH. lia.
          - by right. }
        destruct (Hs (S kx)) as [Hnone|[a Ha]].
        - right. intros [a ->]. apply (Hnone (a mod S kx)).
          + apply Nat.mod_upper_bound. lia.
          + symmetry. by apply iter_mod.
        - left. by exists a. }
      destruct (Hdec ra ka Hpa) as [?|Hna]; [left; by left|].
      destruct (Hdec rb kb Hpb) as [?|Hnb]; [left; by right|].
      right. by intros [?|?]. }
    + exists kg. split; [done|]. eapply orbit_periodic; [exact Hg_ra|]. by apply joint_orbit_g.
    + exists k. split; [lia|]. by rewrite off_joint_iter.
Qed.

Lemma joint_orbit u w : joint u → orbit g u w ↔ joint w.
Proof.
  intros Hu. split; [by apply orbit_g_joint|]. intros Hw.
  eapply orbit_trans; [|by apply joint_orbit_g].
  apply orbit_sym; [|by apply joint_orbit_g].
  destruct g_periodic_ra as (k & _ & Hk). by exists k.
Qed.

End cycles.

(** *** The rings and the classes after a link *)

Lemma swap_entries_lookup ra rb (l : list nat) :
  ra ≠ rb → ra < length l → rb < length l →
  swap_entries ra rb l !!! ra = l !!! rb ∧ swap_entries ra rb l !!! rb = l !!! ra ∧
  ∀ x, x ≠ ra → x ≠ rb → swap_entries ra rb l !!! x = l !!! x.
Proof.
  intros Hne Ha Hb. unfold swap_entries. split_and!.
  - rewrite list_lookup_total_insert_ne by done. by rewrite list_lookup_total_insert_eq.
  - rewrite list_lookup_total_insert_eq; [done|]. by rewrite length_insert.
  - intros x Hxa Hxb. by rewrite !list_lookup_total_insert_ne.
Qed.

Lemma uf_find_root_S fuel uf r :
  uf_find_root (S fuel) uf r =
  if decide (uf_find uf !!! r = r) then Some r else uf_find_root fuel uf (uf_find uf !!! r).
Proof. done. Qed.

Lemma uf_find_root_link F uf uf' ra rb v r :
  (∀ x, x ≠ ra → uf_find uf' !!! x = uf_find uf !!! x) → uf_find uf' !!! ra = rb →
  uf_find uf !!! ra = ra → uf_find uf !!! rb = rb → ra ≠ rb →
  uf_find_root F uf v = Some r →
  uf_find_root (S F) uf' v = Some (if decide (r = ra) then rb else r).
Proof.
  intros Hother Hnew Hra Hrb Hne. revert v. induction F as [|F IH]; intros v H; [done|].
  rewrite uf_find_root_S in H. rewrite uf_find_root_S.
  destruct (decide (v = ra)) as [->|Hv].
  - rewrite Hra, decide_True in H by done. injection H as <-.
    rewrite Hnew. rewrite (decide_False (P := rb = ra)) by done.
    rewrite (decide_True (P := ra = ra)) by done.
    rewrite uf_find_root_S, Hother by done. by rewrite Hrb, decide_True.
  - rewrite Hother by done.
    destruct (decide (uf_find uf !!! v = v)) as [Hroot|Hstep].
    + injection H as <-. by rewrite decide_False.
    + by apply IH.
Qed.

Lemma find_link F s ra rb v r :
  uf_find (m_find s) !!! ra = ra → uf_find (m_find s) !!! rb = rb → ra ≠ rb →
  ra < length (uf_find (m_find s)) →
  find F s v = Some r →
  find (S F) (uf_link ra rb s) v = Some (if decide (r = ra) then rb else r).
Proof.
  intros Hra Hrb Hne Hlt. unfold find. apply uf_find_root_link; try done.
  - intros x Hx. unfold uf_link. simpl. by rewrite list_lookup_total_insert_ne.
  - unfold uf_link. simpl. by rewrite list_lookup_total_insert_eq.
Qed.

Section link.

Context (K F : nat) (s : theory_bv) (ra rb : theory_var).
Context (Hok : tables_ok K F s).
Context (Hroot_a : uf_find (m_find s) !!! ra = ra) (Hroot_b : uf_find (m_find s) !!! rb = rb).
Context (Hne : ra ≠ rb).

Local Abbreviation sl := (uf_link ra rb s).
Local Abbreviation on_joint := (joint (next s) ra rb).

Lemma link_roots_range : ra < get_num_vars s ∧ rb < get_num_vars s.
Proof.
  destruct Hok as (_ & _ & _ & _ & _ & _ & _ & Hlf & _). rewrite <- Hlf.
  by apply roots_in_range.
Qed.

Lemma link_find_root r : uf_find (m_find s) !!! r = r → r < get_num_vars s → find F s r = Some r.
Proof.
  intros Hr Hlt. destruct Hok as ((_ & _ & Hfind) & _).
  destruct (Hfind r) as [r' Hr']. rewrite Hr'. f_equal.
  unfold find in Hr'. destruct F as [|F']; [done|]. simpl in Hr'.
  rewrite decide_True in Hr' by done. by injection Hr'.
Qed.

Lemma link_separate : ¬ ring s ra rb ∧ ¬ ring s rb ra.
Proof.
  destruct link_roots_range as [Ha Hb].
  pose proof (link_find_root ra Hroot_a Ha) as Hfa.
  pose proof (link_find_root rb Hroot_b Hb) as Hfb.
  destruct Hok as (_ & _ & _ & _ & _ & _ & Hring & _). split; intros Hr.
  - pose proof (Hring ra rb ra Ha Hr Hfa). congruence.
  - pose proof (Hring rb ra rb Hb Hr Hfb). congruence.
Qed.

Lemma link_next :
  next sl ra = next s rb ∧ next sl rb = next s ra ∧
  ∀ x, x ≠ ra → x ≠ rb → next sl x = next s x.
Proof.
  destruct link_roots_range as [Ha Hb].
  destruct Hok as (_ & _ & _ & _ & _ & _ & _ & _ & Hln).
  unfold next, uf_link. simpl. apply swap_entries_lookup; [done|by rewrite Hln..].
Qed.

Lemma link_num_vars : get_num_vars sl = get_num_vars s.
Proof. done. Qed.

Lemma on_joint_find u :
  u < get_num_vars s → on_joint u ↔ find F s u = Some ra ∨ find F s u = Some rb.
Proof.
  intros Hu. destruct link_roots_range as [Ha Hb].
  pose proof (link_find_root ra Hroot_a Ha) as Hfa.
  pose proof (link_find_root rb Hroot_b Hb) as Hfb.
  destruct Hok as (_ & _ & _ & _ & _ & Hclass & Hring & _). split.
  - intros [Hr|Hr]; [left; exact (Hring ra u ra Ha Hr Hfa)|right; exact (Hring rb u rb Hb Hr Hfb)].
  - intros [Hf|Hf]; [left|right].
    + exact (Hclass ra u ra Ha Hu Hfa Hf).
    + exact (Hclass rb u rb Hb Hu Hfb Hf).
Qed.

Lemma on_joint_dec u : u < get_num_vars s → on_joint u ∨ ¬ on_joint u.
Proof.
  intros Hu. destruct Hok as ((_ & _ & Hfind) & _). destruct (Hfind u) as [r Hr].
  destruct (decide (r = ra)) as [->|Ha]; [left; apply on_joint_find; auto|].
  destruct (decide (r = rb)) as [->|Hb]; [left; apply on_joint_find; auto|].
  right. intros Hj. apply on_joint_find in Hj as [Hj|Hj]; congruence.
Qed.

Lemma link_ring_joint u w : u < get_num_vars s → on_joint u → ring sl u w ↔ on_joint w.
Proof.
  intros Hu Hj. destruct link_roots_range as [Ha Hb].
  destruct link_separate as [Hsa Hsb]. destruct link_next as (Hga & Hgb & Hg).
  destruct Hok as (_ & _ & _ & _ & Hcyc & _).
  exact (joint_orbit (next s) (next sl) ra rb (get_num_vars s) K Hne Hga Hgb Hg Hcyc Ha Hb
           Hsa Hsb u w Hj).
Qed.

Lemma link_ring_off u w : u < get_num_vars s → ¬ on_joint u → ring sl u w ↔ ring s u w.
Proof.
  intros Hu Hj. destruct link_next as (Hga & Hgb & Hg).
  destruct Hok as (_ & _ & _ & _ & Hcyc & _).
  exact (off_joint_orbit (next s) (next sl) ra rb (get_num_vars s) K Hg Hcyc u w Hu Hj).
Qed.

Lemma link_ring_cases u w :
  u < get_num_vars s → ring sl u w →
  (on_joint u ∧ on_joint w) ∨ (¬ on_joint u ∧ ring s u w).
Proof.
  intros Hu Hr. destruct (on_joint_dec u Hu) as [Hj|Hj].
  - left. split; [done|]. by apply (link_ring_joint u w Hu Hj).
  - right. split; [done|]. by apply (link_ring_off u w Hu Hj).
Qed.

Lemma tables_ok_link : tables_ok (K + K) (S F) sl.
Proof.
  destruct link_roots_range as [Ha Hb].
  destruct link_separate as [Hsa Hsb]. destruct link_next as (Hga & Hgb & Hg).
  pose proof Hok as ((Hatoms & Hoccs & Hfind) & Hconst & Hcomplete & Hrange & Hcyc & Hclass &
                     Hring & Hlf & Hln).
  assert (∀ u, u < get_num_vars s →
            next sl u < get_num_vars s ∧ ∃ k, k < K + K ∧ Nat.iter (S k) (next sl) u = u)
    as Hcyc'.
  { exact (g_periodic (next s) (next sl) ra rb (get_num_vars s) K Hne Hga Hgb Hg Hcyc Ha Hb
             Hsa Hsb). }
  assert (∀ v r, find F s v = Some r →
            find (S F) sl v = Some (if decide (r = ra) then rb else r)) as Hfl.
  { intros v r. apply find_link; try done. by rewrite Hlf. }
  assert (∀ v r', find (S F) sl v = Some r' →
            ∃ r, find F s v = Some r ∧ r' = if decide (r = ra) then rb else r) as Hfl'.
  { intros v r' Hr'. destruct (Hfind v) as [r Hr]. exists r. split; [done|].
    rewrite (Hfl v r Hr) in Hr'. by injection Hr'. }
  split_and!.
  - split_and!.
    + exact Hatoms.
    + intros bv occs w j Hat Hin. destruct (Hoccs bv occs w j Hat Hin) as [Hvar _].
      split; [done|]. apply Hcyc'. by eapply Hrange.
    + intros v. destruct (Hfind v) as [r Hr]. rewrite (Hfl v r Hr). by eexists.
  - exact Hconst.
  - exact Hcomplete.
  - exact Hrange.
  - exact Hcyc'.
  - intros u w r' Hu Hw Hfu Hfw.
    destruct (Hfl' u r' Hfu) as (ru & Hru & Eu). destruct (Hfl' w r' Hfw) as (rw & Hrw & Ew).
    destruct (on_joint_dec u Hu) as [Hj|Hj].
    + apply (link_ring_joint u w Hu Hj). apply (on_joint_find w Hw).
      apply (on_joint_find u Hu) in Hj.
      destruct Hj as [Hj|Hj]; rewrite Hj in Hru; injection Hru as <-.
      * rewrite decide_True in Eu by done. subst r'.
        destruct (decide (rw = ra)) as [->|]; [by left|]. right. congruence.
      * rewrite decide_False in Eu by done. subst r'.
        destruct (decide (rw = ra)) as [->|]; [by left|]. right. congruence.
    + apply (link_ring_off u w Hu Hj). apply (Hclass u w ru Hu Hw Hru).
      assert (ru ≠ ra ∧ ru ≠ rb) as [Hna Hnb].
      { split; intros ->; apply Hj, (on_joint_find u Hu); auto. }
      rewrite decide_False in Eu by done. subst r'.
      destruct (decide (rw = ra)) as [->|]; congruence.
  - intros u w r' Hu Hr Hfu.
    destruct (Hfl' u r' Hfu) as (ru & Hru & Eu).
    destruct (link_ring_cases u w Hu Hr) as [[Hju Hjw]|[Hju Hrs]].
    + assert (w < get_num_vars s) as Hw.
      { exact (joint_range (next s) ra rb (get_num_vars s) K Hcyc Ha Hb w Hjw). }
      apply (on_joint_find u Hu) in Hju. apply (on_joint_find w Hw) in Hjw.
      assert (r' = rb) as ->.
      { destruct Hju as [Hju|Hju]; rewrite Hju in Hru; injection Hru as <-.
        - by rewrite decide_True in Eu.
        - by rewrite decide_False in Eu. }
      destruct Hjw as [Hjw|Hjw]; rewrite (Hfl w _ Hjw).
      * by rewrite decide_True.
      * by rewrite decide_False.
    + rewrite (Hfl w ru (Hring u w ru Hu Hrs Hru)). by rewrite Eu.
  - transitivity (length (uf_find (m_find s))); [apply length_insert|exact Hlf].
  - transitivity (length (uf_next (m_find s))); [|exact Hln].
    transitivity (length (<[ra := uf_next (m_find s) !!! rb]> (uf_next (m_find s))));
      apply length_insert.
Qed.

End link.

(** *** The loop of [merge_eh] *)

Lemma push_occs_all fuel v2 idx occs s :
  push_occs fuel true v2 idx occs s = Some (upd_prop_queue (λ q, q ++ occs) s).
Proof.
  revert s. induction occs as [|[cv cidx] occs IH]; intros s; simpl.
  - f_equal. destruct s. unfold upd_prop_queue. simpl. by rewrite app_nil_r.
  - rewrite IH. f_equal. destruct s. unfold upd_prop_queue. simpl. by rewrite <- app_assoc.
Qed.

Lemma assign_bit_pushed_all fuel c v1 v2 idx a s s' :
  assign_bit fuel c v1 v2 idx a true s = Some s' → c ≠ false_literal →
  ∃ occs, m_bool_var2atom s !! lit_var c = Some (bit_atom occs) ∧
          m_prop_queue s' = m_prop_queue s ++ occs.
Proof.
  unfold assign_bit. intros H Hc. rewrite decide_False in H by done.
  set (s1 := upd_ctx (assign c (bit_eq_justification v1 v2 c a)) s) in *.
  set (s2 := if decide (m_wpos s1 !!! v2 = idx) then find_wpos v2 s1 else s1) in *.
  assert (static_part s2 = static_part s) as Hst.
  { unfold s2. destruct (decide _); rewrite ?static_find_wpos;
      apply static_upd_ctx, ctx_static_assign. }
  assert (m_prop_queue s2 = m_prop_queue s) as Hq.
  { unfold s2. destruct (decide _); by rewrite ?queue_find_wpos. }
  pose proof (static_part_fields _ _ Hst) as (_ & _ & _ & Hf & _ & Ha & _).
  rewrite Ha in H.
  destruct (m_bool_var2atom s !! lit_var c) as [[occs|]|]; [|done..].
  rewrite push_occs_all in H. injection H as <-.
  exists occs. split; [done|]. simpl. by rewrite Hq.
Qed.

Lemma queue_assigned_assign_bit_all fuel c v1 v2 idx a s s' :
  assign_bit fuel c v1 v2 idx a true s = Some s' →
  queue_assigned s → queue_assigned s'.
Proof.
  intros H Hq.
  pose proof (static_assign_bit _ _ _ _ _ _ _ _ _ H) as Hst.
  pose proof (grows_assign_bit _ _ _ _ _ _ _ _ _ H) as Hg.
  destruct (decide (c = false_literal)) as [Hc|Hc].
  - apply (queue_assigned_weaken s); try done.
    unfold assign_bit in H. rewrite decide_True in H by done. by injection H as <-.
  - destruct (assign_bit_pushed_all _ _ _ _ _ _ _ _ H Hc) as (occs & Ha & Hqs).
    apply static_part_fields in Hst as (_ & _ & _ & _ & _ & Hat' & _).
    intros w j Hin. rewrite Hqs in Hin. apply elem_of_app in Hin as [Hin|Hin].
    + destruct (Hq w j Hin) as (bv & occs' & Hat & Ho & Hn).
      exists bv, occs'. rewrite Hat'. split; [done|]. split; [done|].
      destruct Hg as [Hsub' _].
      destruct (m_assignment (ctx s) !! bv) as [x|] eqn:E; [|done].
      by rewrite (lookup_weaken _ _ _ _ E Hsub').
    + exists (lit_var c), occs. rewrite Hat'. split; [done|]. split; [done|].
      apply dyn_assign_bit in H. unfold dyn in H. injection H as -> _.
      rewrite decide_False by done. apply assign_assigned.
Qed.

Lemma two_valued_frame s s' v1 v2 u idx :
  static_part s' = static_part s →
  (∀ w, ring s u w →
        get_assignment (ctx s') (bit_at s w idx) = get_assignment (ctx s) (bit_at s w idx)) →
  two_valued s v1 v2 u idx → two_valued s' v1 v2 u idx.
Proof.
  intros Hst Hsame (H1 & H2 & Hall).
  split; [by apply (ring_static _ _ _ _ Hst)|]. split; [by apply (ring_static _ _ _ _ Hst)|].
  intros w Hw. apply (ring_static _ _ _ _ Hst) in Hw. unfold bit_value in *.
  rewrite !(bit_at_static _ _ _ _ Hst). rewrite (Hsame w Hw), (Hsame v1 H1), (Hsame v2 H2).
  by apply Hall.
Qed.

(** One assignment made by the loop of [merge_eh]: every occurrence of the
    assigned variable enters the queue. *)
Lemma merge_inv_assign_bit K F N fuel v1 v2 va vb idx0 a s s1 val :
  tables_ok K F s → true_assigned s →
  val ≠ l_undef → get_assignment (ctx s) (bit_at s vb idx0) ≠ val →
  assign_bit fuel (polarize val (bit_at s vb idx0)) va vb idx0 a true s = Some s1 →
  inconsistent (ctx s1) = false →
  merge_inv N v1 v2 s → merge_inv N v1 v2 s1.
Proof.
  intros Hok Htrue Hval Hne Hs1 Hcons Hinv.
  pose proof (static_assign_bit _ _ _ _ _ _ _ _ _ Hs1) as Hst.
  set (c := polarize val (bit_at s vb idx0)) in *.
  assert (c ≠ false_literal) as Hc.
  { intros Hf. rewrite Hf in Hs1. apply assign_bit_false_literal in Hs1. congruence. }
  assert (lit_var (bit_at s vb idx0) ≠ true_bool_var) as Hx.
  { intros Hx. apply Hc. by eapply polarize_constant. }
  destruct (assign_bit_pushed_all _ _ _ _ _ _ _ _ Hs1 Hc) as (occs & Hat & Hq).
  unfold c in Hat. rewrite polarize_var in Hat.
  pose proof Hok as (_ & _ & Hcomplete & _).
  intros u idx Hu. rewrite (num_vars_static _ _ Hst) in Hu.
  destruct (ring_search K F s Hok
              (λ w, lit_var (bit_at s w idx) = lit_var (bit_at s vb idx0)) u Hu)
    as [Hnone|(w & Hw & Hvar)].
  - assert (∀ w, ring s u w →
              get_assignment (ctx s1) (bit_at s w idx) = get_assignment (ctx s) (bit_at s w idx))
      as Hsame.
    { intros w Hw. eapply assign_bit_frame; [exact Hs1|].
      unfold c. rewrite polarize_var. by apply Hnone. }
    destruct (Hinv u idx Hu) as [Hag|[Hp|[Hex|Htwo]]].
    + left. by apply (agree_at_frame s).
    + right. left. by eapply pending_ring_app.
    + right. right. left. by eapply excused_static.
    + right. right. right. by apply (two_valued_frame s).
  - right. left. destruct (Hcomplete w idx) as (occs' & Hat' & Hin); [by rewrite Hvar|].
    rewrite Hvar, Hat in Hat'. injection Hat' as <-.
    apply list_elem_of_lookup in Hin as [j Hj].
    exists (length (m_prop_queue s) + j), w. split; [lia|].
    split; [|by apply (ring_static _ _ _ _ Hst)].
    rewrite Hq. rewrite lookup_app_r by apply Nat.le_add_r.
    by rewrite Nat.add_comm, Nat.add_sub.
Qed.

Lemma merge_pass_inv K F N fuel v1 v2 idxs changed s r :
  tables_ok K F s → true_assigned s → queue_assigned s → merge_inv N v1 v2 s →
  merge_pass fuel v1 v2 idxs changed s = Some r →
  match r with
  | pass_done _ s' =>
      static_part s' = static_part s ∧ grows s s' ∧ queue_assigned s' ∧ merge_inv N v1 v2 s'
  | pass_returned s' => inconsistent (ctx s') = true
  end.
Proof.
  revert changed s. induction idxs as [|idx idxs IH]; intros changed s Hok Htrue Hqa Hinv H;
    simpl in H.
  - injection H as <-. split_and!; (done || apply grows_refl).
  - destruct (decide (_ = _)) as [Heq|Hne]; [by eapply IH|].
    destruct (if decide _ then _ else _) as [s1|] eqn:E; [|done]. simpl in H.
    destruct (merge_step_grows _ _ _ _ _ _ E) as [Hst Hg].
    destruct (inconsistent (ctx s1)) eqn:Ei; [by injection H as <-|].
    destruct (decide (_ ∧ _)); [done|].
    assert (queue_assigned s1 ∧ merge_inv N v1 v2 s1) as [Hqa1 Hinv1].
    { destruct (decide (get_assignment (ctx s) (bit_at s v1 idx) ≠ l_undef)) as [H1|H1].
      - split; [by eapply queue_assigned_assign_bit_all|].
        eapply (merge_inv_assign_bit K F N fuel v1 v2 v1 v2 idx); try done;
          by apply not_eq_sym.
      - apply dec_stable in H1.
        destruct (decide (get_assignment (ctx s) (bit_at s v2 idx) ≠ l_undef)) as [H2|H2].
        + split; [by eapply queue_assigned_assign_bit_all|].
          by eapply (merge_inv_assign_bit K F N fuel v1 v2 v2 v1 idx).
        + apply dec_stable in H2. congruence. }
    specialize (IH true s1). destruct r as [ch s'|s'].
    + destruct IH as (Hst' & Hg' & Hqa' & Hinv'); try done.
      * by eapply tables_ok_static.
      * by eapply true_assigned_grows.
      * split_and!; try done; [congruence|by eapply grows_trans].
    + apply IH; try done; [by eapply tables_ok_static|by eapply true_assigned_grows].
Qed.

(** A pass that changes nothing has found the two variables equal at every
    index. *)
Lemma merge_pass_unchanged fuel v1 v2 idxs changed s s' :
  merge_pass fuel v1 v2 idxs changed s = Some (pass_done false s') →
  s' = s ∧ ∀ idx, idx ∈ idxs → bit_value s v1 idx = bit_value s v2 idx.
Proof.
  revert changed s. induction idxs as [|idx idxs IH]; intros changed s H; simpl in H.
  - injection H as -> ->. split; [done|]. intros idx Hin. by apply elem_of_nil in Hin.
  - destruct (decide (_ = _)) as [Heq|Hne].
    + apply IH in H as [-> Hall]. split; [done|].
      intros idx' [->|Hin]%elem_of_cons; [done|]. by apply Hall.
    + destruct (if decide _ then _ else _) as [s1|] eqn:E; [|done]. simpl in H.
      destruct (inconsistent (ctx s1)); [done|].
      destruct (decide (_ ∧ _)); [done|].
      assert (∀ idxs ch s0 s0', merge_pass fuel v1 v2 idxs ch s0 = Some (pass_done false s0') →
                ch = false) as Hch.
      { clear. induction idxs as [|i idxs IH]; intros ch s0 s0' H; simpl in H.
        - by injection H as -> _.
        - destruct (decide (_ = _)); [by eapply IH|].
          destruct (if decide _ then _ else _) as [s1|]; [|done]. simpl in H.
          destruct (inconsistent (ctx s1)); [done|].
          destruct (decide (_ ∧ _)); [done|]. by apply IH in H. }
      by apply Hch in H.
Qed.

Lemma merge_loop_inv K F N fuel v1 v2 sz s returned s' :
  tables_ok K F s → true_assigned s → queue_assigned s → merge_inv N v1 v2 s →
  merge_loop fuel v1 v2 sz s = Some (returned, s') →
  if returned then inconsistent (ctx s') = true
  else static_part s' = static_part s ∧ grows s s' ∧ queue_assigned s' ∧
       merge_inv N v1 v2 s' ∧ ∀ idx, idx < sz → bit_value s' v1 idx = bit_value s' v2 idx.
Proof.
  revert s. induction fuel as [|fuel IH]; intros s Hok Htrue Hqa Hinv H; simpl in H; [done|].
  destruct (merge_pass _ _ _ _ _ _) as [r|] eqn:E; [|done]. simpl in H.
  pose proof (merge_pass_inv K F N _ _ _ _ _ _ _ Hok Htrue Hqa Hinv E) as Hpass.
  destruct r as [changed s1|s1].
  - destruct Hpass as (Hst1 & Hg1 & Hqa1 & Hinv1). destruct changed.
    + specialize (IH s1). destruct returned.
      * apply IH; try done; [by eapply tables_ok_static|by eapply true_assigned_grows].
      * destruct IH as (Hst' & Hg' & Hqa' & Hinv' & Heq); try done;
          [by eapply tables_ok_static|by eapply true_assigned_grows|].
        split_and!; try done; [congruence|by eapply grows_trans].
    + injection H as <- <-. apply merge_pass_unchanged in E as [-> Hall].
      split_and!; try done. intros idx Hidx. apply Hall, elem_of_seq. lia.
  - injection H as <- <-. done.
Qed.

(** *** [merge_eh] *)

Lemma cons_ne {A} (x : A) (l : list A) : x :: l ≠ l.
Proof. intros H. apply (f_equal length) in H. simpl in H. lia. Qed.

Lemma merge_zero_one_bits_conflict r1 r2 s :
  (merge_zero_one_bits r1 r2 s).1 = false →
  dyn (ctx (merge_zero_one_bits r1 r2 s).2) = dyn (ctx s) ∧
  m_th_axioms (ctx (merge_zero_one_bits r1 r2 s).2) ≠ m_th_axioms (ctx s).
Proof.
  unfold merge_zero_one_bits. destruct (bool_decide _); [done|].
  destruct (merge_zero_one_bits_loop _ _ _) as [bits1' [[[v1 v2] idx]|]]; simpl; [|done].
  intros _. destruct (m_relevancy _); simpl; split; try done; apply cons_ne.
Qed.

Lemma bit_value_out_of_range s v1 v2 idx :
  length (m_bits s !!! v1) = length (m_bits s !!! v2) → length (m_bits s !!! v1) ≤ idx →
  bit_value s v1 idx = bit_value s v2 idx.
Proof.
  intros Hlen Hidx.
  assert (length (m_bits s !!! v2) ≤ idx) as Hidx2 by (by rewrite <- Hlen).
  assert (∀ l : list literal, length l ≤ idx → l !!! idx = inhabitant) as Hdef.
  { intros l Hl. by rewrite list_lookup_total_alt, lookup_ge_None_2. }
  unfold bit_value, bit_at. by rewrite (Hdef _ Hidx), (Hdef _ Hidx2).
Qed.

Lemma bit_value_grows s s' v idx :
  static_part s' = static_part s → grows s s' → bit_value s v idx ≠ l_undef →
  bit_value s' v idx = bit_value s v idx.
Proof.
  intros Hst Hg Hne. unfold bit_value in *. rewrite (bit_at_static _ _ _ _ Hst).
  by apply get_assignment_grows.
Qed.

Lemma merge_eh_settles K F N fuel r1 r2 v1 v2 s s' :
  tables_ok K F s → true_assigned s →
  length (m_bits s !!! v1) = length (m_bits s !!! v2) →
  (∀ u idx, u < get_num_vars s →
     agree_at s u idx ∨ excused N s u idx ∨ two_valued s v1 v2 u idx) →
  merge_eh fuel r1 r2 v1 v2 s = Some s' →
  static_part s' = static_part s ∧ grows s s' ∧
  (callback_conflict s s' ∨
   (settled N s' ∧ (merge_zero_one_bits r1 r2 s).1 = true ∧ inconsistent (ctx s') = false ∧
    ∃ sm, static_part sm = static_part s ∧ grows s sm ∧ grows sm s' ∧
          ∀ idx, bit_value sm v1 idx = bit_value sm v2 idx)).
Proof.
  intros Hok Htrue Hlen Hpre H.
  pose proof (static_merge_eh _ _ _ _ _ _ _ H) as Hst'. split; [done|].
  unfold merge_eh in H.
  pose proof (merge_zero_one_bits_ok r1 r2 s) as Hz.
  pose proof (merge_zero_one_bits_conflict r1 r2 s) as Hzc.
  destruct (merge_zero_one_bits r1 r2 s) as [ok s1]. simpl in *.
  destruct ok; simpl in H.
  - destruct (Hz eq_refl) as [Hst Hctx]. clear Hz Hzc.
    set (s2 := upd_prop_queue (λ _, []) s1) in *.
    assert (static_part s2 = static_part s) as Hst2 by done.
    assert (dyn (ctx s2) = dyn (ctx s)) as Hd2 by (simpl; by rewrite Hctx).
    assert (∀ l, get_assignment (ctx s2) l = get_assignment (ctx s) l) as Hval2.
    { intros l. simpl. by rewrite Hctx. }
    pose proof (tables_ok_static _ _ _ _ Hst2 Hok) as Hok2.
    pose proof (true_assigned_grows _ _ (grows_dyn _ _ Hd2) Htrue) as Htrue2.
    assert (queue_assigned s2) as Hqa2 by (intros w j Hin; by apply elem_of_nil in Hin).
    assert (merge_inv N v1 v2 s2) as Hinv2.
    { intros u idx Hu. rewrite (num_vars_static _ _ Hst2) in Hu.
      destruct (Hpre u idx Hu) as [Hag|[Hex|Htwo]].
      - left. by apply (agree_at_dyn s).
      - right. right. left. by eapply excused_static.
      - right. right. right. apply (two_valued_frame s); [done| |done]. intros w _. apply Hval2. }
    destruct (merge_loop _ _ _ _ _) as [[returned s3]|] eqn:E; [|done]. simpl in H.
    pose proof (merge_loop_inv K F N _ _ _ _ _ _ _ Hok2 Htrue2 Hqa2 Hinv2 E) as Hloop.
    pose proof (merge_loop_grows _ _ _ _ _ _ _ E) as Hg3.
    destruct returned.
    + injection H as <-. split; [eapply grows_trans; [by apply grows_dyn|done]|].
      left. by left.
    + destruct Hloop as (Hst3 & _ & Hqa3 & Hinv3 & Heq3).
      assert (static_part s3 = static_part s) as Hst3' by congruence.
      pose proof (tables_ok_static _ _ _ _ Hst3 Hok2) as Hok3.
      pose proof (true_assigned_grows _ _ Hg3 Htrue2) as Htrue3.
      assert (∀ idx, bit_value s3 v1 idx = bit_value s3 v2 idx) as Hall.
      { intros idx.
        destruct (decide (idx < length (m_bits s2 !!! v1))) as [Hlt|Hge]; [by apply Heq3|].
        apply static_part_fields in Hst3' as (_ & _ & _ & _ & Hb3 & _).
        apply static_part_fields in Hst2 as (_ & _ & _ & _ & Hb2 & _).
        apply bit_value_out_of_range; rewrite Hb3; [done|]. rewrite <- Hb2. lia. }
      assert (loop_inv N 0 s3) as Hloop3.
      { intros u idx Hu. destruct (Hinv3 u idx Hu) as [Hag|[Hp|[Hex|(H1 & H2 & Htwo)]]];
          [by left|by right; left|by right; right|]. left.
        assert (∀ w, ring s3 u w → bit_value s3 w idx = bit_value s3 v1 idx) as Hone.
        { intros w Hw. destruct (Htwo w Hw) as [?|Hv2]; [done|]. by rewrite Hv2, Hall. }
        intros w Hw. change (bit_value s3 w idx = bit_value s3 u idx).
        rewrite (Hone w Hw). symmetry. apply Hone, ring_refl. }
      unfold propagate_bits in H.
      pose proof (grows_propagate_loop _ _ _ _ H) as Hg'.
      split; [eapply grows_trans; [by apply grows_dyn|]; by eapply grows_trans|].
      destruct (inconsistent (ctx s')) eqn:Ei; [left; by left|].
      destruct (propagate_loop_agree K F N fuel 0 s3 s' Hok3 Htrue3 Hqa3 Hloop3 H) as [Hi|Hset];
        [congruence|].
      right. split; [done|]. split; [done|]. split; [done|]. exists s3. split_and!; try done.
      eapply grows_trans; [by apply grows_dyn|done].
  - injection H as <-. destruct (Hzc eq_refl) as [Hd Hax].
    split; [by apply grows_dyn|]. left. by right.
Qed.

(** *** [new_eq_eh] *)

Lemma tables_ok_mono K F K' F' s : K ≤ K' → F ≤ F' → tables_ok K F s → tables_ok K' F' s.
Proof.
  intros HK HF ((Hatoms & Hoccs & Hfind) & Hconst & Hcomplete & Hrange & Hcyc & Hclass &
                Hring & Hlf & Hln).
  assert (∀ v r, find F' s v = Some r → find F s v = Some r) as Hback.
  { intros v r Hr. destruct (Hfind v) as [r0 Hr0]. by rewrite (find_agree _ _ _ _ _ _ Hr Hr0). }
  split_and!; try done.
  - split_and!; try done.
    + intros bv occs w j Hat Hin. destruct (Hoccs bv occs w j Hat Hin) as (Hvar & k & Hk & Hper).
      split; [done|]. exists k. split; [lia|done].
    + intros v. by eapply find_total_mono.
  - intros u Hu. destruct (Hcyc u Hu) as (Hn & k & Hk & Hper). split; [done|].
    exists k. split; [lia|done].
  - intros u w r Hu Hw H1 H2. apply (Hclass u w r Hu Hw); by apply Hback.
  - intros u w r Hu Hr H1. destruct (Hfind w) as [rw Hrw].
    pose proof (Hring u w r Hu Hr (Hback _ _ H1)) as Hw.
    unfold find in *. by apply (uf_find_root_mono F).
Qed.

Lemma get_assignment_undef c l : get_assignment c l = l_undef ↔ m_assignment c !! lit_var l = None.
Proof.
  unfold get_assignment. destruct (m_assignment c !! lit_var l) as [b|]; [|done].
  split; [|done]. by destruct (xorb b (lit_sign l)).
Qed.

Section new_eq.

Context (K F : nat) (N : gset bool_var) (s : theory_bv) (ra rb va vb : theory_var).
Context (Hok : tables_ok K F s).
Context (Hroot_a : uf_find (m_find s) !!! ra = ra) (Hroot_b : uf_find (m_find s) !!! rb = rb).
Context (Hne : ra ≠ rb).
Context (Hva : va < get_num_vars s) (Hvb : vb < get_num_vars s).
Context (Hfa : find F s va = Some ra) (Hfb : find F s vb = Some rb).

Local Abbreviation sl := (uf_link ra rb s).
Local Abbreviation on_joint := (joint (next s) ra rb).

Lemma new_eq_joint_a : on_joint va.
Proof. apply (on_joint_find K F s ra rb Hok Hroot_a Hroot_b Hne va Hva). by left. Qed.

Lemma new_eq_joint_b : on_joint vb.
Proof. apply (on_joint_find K F s ra rb Hok Hroot_a Hroot_b Hne vb Hvb). by right. Qed.

(** A variable of the joint ring was on the ring of [va] or of [vb]. *)
Lemma new_eq_joint_split w : on_joint w → ring s va w ∨ ring s vb w.
Proof.
  destruct (link_roots_range K F s ra rb Hok Hroot_a Hroot_b Hne) as [Ha Hb].
  pose proof (link_find_root K F s Hok ra Hroot_a Ha) as Hra.
  pose proof (link_find_root K F s Hok rb Hroot_b Hb) as Hrb.
  destruct Hok as (_ & _ & _ & _ & _ & Hclass & _).
  intros [Hw|Hw]; [left|right].
  - eapply ring_trans; [|exact Hw]. exact (Hclass va ra ra Hva Ha Hfa Hra).
  - eapply ring_trans; [|exact Hw]. exact (Hclass vb rb rb Hvb Hb Hfb Hrb).
Qed.

Lemma new_eq_split_joint w : ring s va w ∨ ring s vb w → on_joint w.
Proof.
  destruct Hok as (_ & _ & _ & _ & _ & _ & Hring & _).
  intros [Hw|Hw].
  - assert (w < get_num_vars s) as Hwn by exact (ring_in_range K F s Hok va w Hva Hw).
    apply (on_joint_find K F s ra rb Hok Hroot_a Hroot_b Hne w Hwn). left.
    exact (Hring va w ra Hva Hw Hfa).
  - assert (w < get_num_vars s) as Hwn by exact (ring_in_range K F s Hok vb w Hvb Hw).
    apply (on_joint_find K F s ra rb Hok Hroot_a Hroot_b Hne w Hwn). right.
    exact (Hring vb w rb Hvb Hw Hfb).
Qed.

Lemma agree_at_link_off u idx :
  u < get_num_vars s → ¬ on_joint u → agree_at s u idx → agree_at sl u idx.
Proof.
  intros Hu Hoff Hag w Hw.
  apply (link_ring_off K F s ra rb Hok Hroot_a Hroot_b Hne u w Hu Hoff) in Hw.
  by apply Hag.
Qed.

Lemma excused_link N' u idx : u < get_num_vars s → excused N' s u idx → excused N' sl u idx.
Proof.
  intros Hu (w & Hw & Hin). exists w. split; [|done].
  destruct (on_joint_dec K F s ra rb Hok Hroot_a Hroot_b Hne u Hu) as [Hj|Hoff].
  - apply (link_ring_joint K F s ra rb Hok Hroot_a Hroot_b Hne u w Hu Hj).
    apply (link_ring_joint K F s ra rb Hok Hroot_a Hroot_b Hne u u Hu Hj) in Hj as Hju.
    destruct (on_joint_find K F s ra rb Hok Hroot_a Hroot_b Hne u Hu) as [Hfind _].
    assert (w < get_num_vars s) as Hwn by exact (ring_in_range K F s Hok u w Hu Hw).
    apply (on_joint_find K F s ra rb Hok Hroot_a Hroot_b Hne w Hwn).
    destruct Hok as (_ & _ & _ & _ & _ & _ & Hring & _).
    destruct (Hfind Hj) as [Hr|Hr]; [left|right]; exact (Hring u w _ Hu Hw Hr).
  - by apply (link_ring_off K F s ra rb Hok Hroot_a Hroot_b Hne u w Hu Hoff).
Qed.

(** Before [merge_eh] runs on the linked classes. *)
Lemma link_pre u idx :
  settled N s → u < get_num_vars s →
  agree_at sl u idx ∨ excused N sl u idx ∨ two_valued sl va vb u idx.
Proof.
  intros Hset Hu.
  destruct (on_joint_dec K F s ra rb Hok Hroot_a Hroot_b Hne u Hu) as [Hj|Hoff].
  - destruct (Hset va idx Hva) as [Haa|Hex].
    2: { right. left. destruct Hex as (w & Hw & Hin). exists w. split; [|done].
         apply (link_ring_joint K F s ra rb Hok Hroot_a Hroot_b Hne u w Hu Hj).
         apply new_eq_split_joint. by left. }
    destruct (Hset vb idx Hvb) as [Hab|Hex].
    2: { right. left. destruct Hex as (w & Hw & Hin). exists w. split; [|done].
         apply (link_ring_joint K F s ra rb Hok Hroot_a Hroot_b Hne u w Hu Hj).
         apply new_eq_split_joint. by right. }
    right. right. split_and!.
    + apply (link_ring_joint K F s ra rb Hok Hroot_a Hroot_b Hne u va Hu Hj), new_eq_joint_a.
    + apply (link_ring_joint K F s ra rb Hok Hroot_a Hroot_b Hne u vb Hu Hj), new_eq_joint_b.
    + intros w Hw.
      apply (link_ring_joint K F s ra rb Hok Hroot_a Hroot_b Hne u w Hu Hj) in Hw.
      destruct (new_eq_joint_split w Hw) as [Hwa|Hwb]; [left; by apply Haa|right; by apply Hab].
  - destruct (Hset u idx Hu) as [Hag|Hex].
    + left. by apply agree_at_link_off.
    + right. left. by apply excused_link.
Qed.

(** After the classes are linked, [merge_eh] having run on the separate
    classes: [sm] is the state at the end of its loop, and [s0] the state in
    which it was called. *)
Lemma link_post s0 sm :
  settled N s → static_part sm = static_part s → grows s0 sm → grows sm s →
  (∀ idx, bit_value sm va idx = bit_value sm vb idx) →
  settled (N ∪ (dom (m_assignment (ctx s)) ∖ dom (m_assignment (ctx s0)))) sl.
Proof.
  intros Hset Hstm Hg0 Hgm Heq u idx Hu. change (get_num_vars sl) with (get_num_vars s) in Hu.
  assert (∀ x, x ∈ N →
            x ∈ N ∪ (dom (m_assignment (ctx s)) ∖ dom (m_assignment (ctx s0)))) as Hsub
    by set_solver.
  destruct (on_joint_dec K F s ra rb Hok Hroot_a Hroot_b Hne u Hu) as [Hj|Hoff].
  - assert (∀ w, ring s va w ∨ ring s vb w → ring sl u w) as Hin.
    { intros w Hw. apply (link_ring_joint K F s ra rb Hok Hroot_a Hroot_b Hne u w Hu Hj).
      by apply new_eq_split_joint. }
    destruct (Hset va idx Hva) as [Haa|Hex].
    2: { right. destruct Hex as (w & Hw & Hx). exists w. split; [apply Hin; by left|].
         by apply Hsub. }
    destruct (Hset vb idx Hvb) as [Hab|Hex].
    2: { right. destruct Hex as (w & Hw & Hx). exists w. split; [apply Hin; by right|].
         by apply Hsub. }
    destruct (decide (bit_value s va idx = bit_value s vb idx)) as [Hsame|Hdiff].
    + left. assert (∀ w, ring sl u w → bit_value s w idx = bit_value s va idx) as Hone.
      { intros w Hw.
        apply (link_ring_joint K F s ra rb Hok Hroot_a Hroot_b Hne u w Hu Hj) in Hw.
        destruct (new_eq_joint_split w Hw) as [Hwa|Hwb]; [by apply Haa|].
        rewrite Hsame. by apply Hab. }
      intros w Hw. change (bit_value s w idx = bit_value s u idx).
      rewrite (Hone w Hw). symmetry. apply Hone, ring_refl.
    + right.
      assert (bit_value sm va idx = l_undef) as Hundef.
      { destruct (decide (bit_value sm va idx = l_undef)) as [|Hdef]; [done|]. exfalso.
        apply Hdiff.
        assert (bit_value sm vb idx ≠ l_undef) as Hdef' by (by rewrite <- Heq).
        rewrite (bit_value_grows sm s va idx), (bit_value_grows sm s vb idx); try done. }
      assert (∀ v, bit_value sm v idx = l_undef → bit_value s v idx ≠ l_undef →
                lit_var (bit_at s v idx) ∈
                  dom (m_assignment (ctx s)) ∖ dom (m_assignment (ctx s0))) as Hnew.
      { intros v Hm Hs. apply elem_of_difference. split.
        - apply elem_of_dom. unfold bit_value in Hs.
          destruct (m_assignment (ctx s) !! lit_var (bit_at s v idx)) eqn:E; [done|].
          exfalso. apply Hs. by apply get_assignment_undef.
        - intros Hd0. apply elem_of_dom in Hd0 as [b Hb].
          unfold bit_value in Hm. apply get_assignment_undef in Hm.
          rewrite (bit_at_static _ _ _ _ Hstm) in Hm.
          destruct Hg0 as [Hsub0 _]. by rewrite (lookup_weaken _ _ _ _ Hb Hsub0) in Hm. }
      destruct (decide (bit_value s va idx = l_undef)) as [Ha|Ha].
      * exists vb. split; [apply Hin; right; apply ring_refl|].
        apply elem_of_union_r, Hnew; [by rewrite <- Heq|]. congruence.
      * exists va. split; [apply Hin; left; apply ring_refl|].
        by apply elem_of_union_r, Hnew.
  - destruct (Hset u idx Hu) as [Hag|Hex].
    + left. by apply agree_at_link_off.
    + right. apply excused_link; [done|]. by eapply excused_weaken.
Qed.

End new_eq.

Lemma two_valued_swap s v1 v2 u idx : two_valued s v1 v2 u idx → two_valued s v2 v1 u idx.
Proof. intros (H1 & H2 & Hall). split_and!; try done. intros w Hw. destruct (Hall w Hw); auto. Qed.

Lemma one_assigned_swap s v1 v2 i b : one_assigned s v1 v2 i b → one_assigned s v2 v1 i b.
Proof. unfold one_assigned. tauto. Qed.

Lemma callback_conflict_ctx s s1 s' :
  ctx s' = ctx s1 → callback_conflict s s1 → callback_conflict s s'.
Proof. unfold callback_conflict. by intros ->. Qed.

(** The two roots are known: [ra], the root of [va], becomes a child of
    [rb], the root of [vb]. *)
Lemma merge_roots_settles K F N o fuel ra rb va vb v1 v2 s :
  tables_ok K F s → true_assigned s → settled N s →
  uf_find (m_find s) !!! ra = ra → uf_find (m_find s) !!! rb = rb → ra ≠ rb →
  va < get_num_vars s → vb < get_num_vars s →
  find F s va = Some ra → find F s vb = Some rb →
  (va = v1 ∧ vb = v2) ∨ (va = v2 ∧ vb = v1) →
  length (m_bits s !!! v1) = length (m_bits s !!! v2) →
  S F + (K + K) + 3 + pending s + undef_count s v2 v1 (length (m_bits s !!! v2)) ≤ fuel →
  ∃ s', match o with
        | merge_eh_then_link => s1 ← merge_eh fuel rb ra v2 v1 s; Some (uf_link ra rb s1)
        | link_then_merge_eh => merge_eh fuel rb ra v2 v1 (uf_link ra rb s)
        end = Some s' ∧
        tables_ok (K + K) (S F) s' ∧ true_assigned s' ∧
        (callback_conflict s s' ∨
         (settled (pending_after (on_new_eq o v1 v2) N s s') s' ∧
          callback_carried N (on_new_eq o v1 v2) s s')).
Proof.
  intros Hok Htrue Hset Hra Hrb Hne Hva Hvb Hfa Hfb Hvs Hlen Hfuel.
  assert (v1 < get_num_vars s ∧ v2 < get_num_vars s) as [Hv1 Hv2].
  { destruct Hvs as [[<- <-]|[<- <-]]; done. }
  assert (∀ i, ¬ excused N s v1 i → ¬ excused N s v2 i →
               ¬ excused N s va i ∧ ¬ excused N s vb i) as Hnex.
  { intros i H1 H2. destruct Hvs as [[-> ->]|[-> ->]]; done. }
  assert (∀ w, ring s v1 w ∨ ring s v2 w → ring s va w ∨ ring s vb w) as Hrings.
  { intros w Hw. destruct Hvs as [[-> ->]|[-> ->]]; tauto. }
  destruct o.
  - (* merge_eh, then the link *)
    destruct (merge_eh_total K F fuel rb ra v2 v1 s) as [s1 Hs1];
      [by destruct Hok|done|clear -Hfuel; unfold theory_var in *; lia|].
    rewrite Hs1. simpl. eexists. split; [done|].
    destruct (merge_eh_settles K F N fuel rb ra v2 v1 s s1 Hok Htrue (eq_sym Hlen))
      as (Hst1 & Hg1 & Hres); [|done|].
    { intros u idx Hu. destruct (Hset u idx Hu); auto. }
    pose proof (tables_ok_static _ _ _ _ Hst1 Hok) as Hok1.
    pose proof (static_part_fields _ _ Hst1) as (_ & _ & _ & Hf1 & Hb1 & _).
    assert (get_num_vars s1 = get_num_vars s) as Hn1 by (by apply num_vars_static).
    split; [|split].
    + apply tables_ok_link; try done; by rewrite Hf1.
    + by apply (true_assigned_grows s).
    + destruct Hres as [Hc|(Hset1 & Hz & Hi & sm & Hstm & Hgm & Hgm1 & Heq)];
        [left; by apply (callback_conflict_ctx s s1)|]. right. split.
      * assert (uf_find (m_find s1) !!! ra = ra) as Hra1 by (by rewrite Hf1).
        assert (uf_find (m_find s1) !!! rb = rb) as Hrb1 by (by rewrite Hf1).
        assert (va < get_num_vars s1) as Hva1 by (by rewrite Hn1).
        assert (vb < get_num_vars s1) as Hvb1 by (by rewrite Hn1).
        assert (find F s1 va = Some ra) as Hfa1 by (unfold find in *; by rewrite Hf1).
        assert (find F s1 vb = Some rb) as Hfb1 by (unfold find in *; by rewrite Hf1).
        assert (static_part sm = static_part s1) as Hstm1 by congruence.
        assert (∀ idx, bit_value sm va idx = bit_value sm vb idx) as Heq'.
        { intros idx. destruct Hvs as [[-> ->]|[-> ->]]; [symmetry|]; apply Heq. }
        exact (link_post K F N s1 ra rb va vb Hok1 Hra1 Hrb1 Hne Hva1 Hvb1 Hfa1 Hfb1 s sm
                 Hset1 Hstm1 Hgm Hgm1 Heq').
      * intros i b w Hb Hi' Hone Hn1' Hn2' Hw.
        destruct (merge_eh_partial fuel rb ra v2 v1 s s1 i b Hb) as [[Hc|Hc]|[Hbv2 Hbv1]];
          [change (i < length (m_bits s !!! v2)); clear -Hi' Hlen; unfold theory_var in *; lia
          |by apply one_assigned_swap|done|congruence|congruence|].
        assert (∀ v, v < get_num_vars s → ¬ excused N s v i → ∀ w, ring s v w →
                  bit_value s1 w i = bit_value s1 v i) as Hagree.
        { intros v Hv Hnv w' Hw'. rewrite <- Hn1 in Hv.
          destruct (Hset1 v i Hv) as [Hag|Hex].
          - apply Hag. by apply (ring_static _ _ _ _ Hst1).
          - exfalso. apply Hnv. destruct Hex as (x & Hx & Hin). exists x.
            split; [by apply (ring_static _ _ _ _ Hst1)|].
            by rewrite <- (bit_at_static _ _ _ _ Hst1). }
        change (bit_value s1 w i = b).
        destruct Hw as [Hw|Hw]; [rewrite (Hagree v1 Hv1 Hn1' w Hw)|
                                 rewrite (Hagree v2 Hv2 Hn2' w Hw)]; done.
  - (* the link, then merge_eh *)
    pose proof (tables_ok_link K F s ra rb Hok Hra Hrb Hne) as Hokl.
    destruct (merge_eh_total (K + K) (S F) fuel rb ra v2 v1 (uf_link ra rb s)) as [s' Hs'];
      [by destruct Hokl|done| |].
    { change (pending (uf_link ra rb s)) with (pending s).
      change (undef_count (uf_link ra rb s) v2 v1 (length (m_bits (uf_link ra rb s) !!! v2)))
        with (undef_count s v2 v1 (length (m_bits s !!! v2))).
      clear -Hfuel. unfold theory_var in *. lia. }
    rewrite Hs'. eexists. split; [done|].
    destruct (merge_eh_settles (K + K) (S F) N fuel rb ra v2 v1 (uf_link ra rb s) s' Hokl Htrue
                (eq_sym Hlen)) as (Hst' & Hg' & Hres); [|done|].
    { intros u idx Hu.
      destruct (link_pre K F N s ra rb va vb Hok Hra Hrb Hne Hva Hvb Hfa Hfb u idx Hset Hu)
        as [?|[?|Htwo]]; auto.
      right. right. destruct Hvs as [[-> ->]|[-> ->]]; [by apply two_valued_swap|done]. }
    split; [by eapply tables_ok_static|]. split; [by apply (true_assigned_grows _ _ Hg')|].
    destruct Hres as [Hc|(Hset' & Hz & Hi & _)]; [by left|]. right. split; [done|].
    intros i b w Hb Hi' Hone Hn1' Hn2' Hw.
    destruct (merge_eh_partial fuel rb ra v2 v1 (uf_link ra rb s) s' i b Hb)
      as [[Hc|Hc]|[Hbv2 Hbv1]];
      [change (i < length (m_bits s !!! v2)); clear -Hi' Hlen; unfold theory_var in *; lia
          |by apply one_assigned_swap|done|congruence|congruence|].
    destruct (Hnex i Hn1' Hn2') as [Hna Hnb].
    pose proof (new_eq_joint_a K F s ra rb va Hok Hra Hrb Hne Hva Hfa) as Hja.
    pose proof (new_eq_joint_b K F s ra rb vb Hok Hra Hrb Hne Hvb Hfb) as Hjb.
    assert (joint (next s) ra rb v1) as Hj1 by (destruct Hvs as [[<- <-]|[<- <-]]; done).
    assert (get_num_vars s' = get_num_vars s) as Hn' by (by apply num_vars_static in Hst').
    assert (agree_at s' v1 i) as Hag.
    { destruct (Hset' v1 i) as [Hag|(x & Hx & Hin)]; [by rewrite Hn'|done|]. exfalso.
      apply (ring_static _ _ _ _ Hst') in Hx.
      apply (link_ring_joint K F s ra rb Hok Hra Hrb Hne v1 x Hv1 Hj1) in Hx.
      rewrite (bit_at_static _ _ _ _ Hst') in Hin.
      destruct (new_eq_joint_split K F s ra rb va vb Hok Hra Hrb Hne Hva Hvb Hfa Hfb x Hx)
        as [Hxa|Hxb]; [apply Hna|apply Hnb]; by exists x. }
    change (get_assignment (ctx s') (bit_at s' w i) = b). rewrite Hag; [exact Hbv1|].
    apply (ring_static _ _ _ _ Hst').
    apply (link_ring_joint K F s ra rb Hok Hra Hrb Hne v1 w Hv1 Hj1).
    apply (new_eq_split_joint K F s ra rb va vb Hok Hra Hrb Hne Hva Hvb Hfa Hfb).
    by apply Hrings.
Qed.

Lemma new_eq_eh_settles K F N o fuel v1 v2 s :
  tables_ok K F s → true_assigned s → settled N s →
  callback_ready (on_new_eq o v1 v2) s →
  S F + (K + K) + 2 + callback_work (on_new_eq o v1 v2) s ≤ fuel →
  ∃ s', new_eq_eh o fuel v1 v2 s = Some s' ∧
        tables_ok (K + K) (S F) s' ∧ true_assigned s' ∧
        (callback_conflict s s' ∨
         (settled (pending_after (on_new_eq o v1 v2) N s s') s' ∧
          callback_carried N (on_new_eq o v1 v2) s s')).
Proof.
  intros Hok Htrue Hset (Hv1 & Hv2 & Hlen) Hfuel. simpl in Hfuel.
  pose proof Hok as ((_ & _ & Hfind) & _ & _ & _ & _ & Hclass & _).
  destruct (Hfind v1) as [r1 Hr1]. destruct (Hfind v2) as [r2 Hr2].
  assert (find fuel s v1 = Some r1) as Hr1' by (apply (uf_find_root_mono F); [done|lia]).
  assert (find fuel s v2 = Some r2) as Hr2' by (apply (uf_find_root_mono F); [done|lia]).
  unfold new_eq_eh, uf_merge. rewrite Hr1', Hr2'. simpl.
  case_decide as Hne.
  - subst r1. exists s. split; [done|]. split; [apply (tables_ok_mono K F); [lia|lia|done]|].
    split; [done|]. right. split.
    + intros u idx Hu. destruct (Hset u idx Hu) as [?|Hex]; [by left|]. right.
      eapply excused_weaken; [|exact Hex]. intros x Hx. destruct o; set_solver.
    + intros i b w Hb Hi Hone Hn1 Hn2 Hw.
      pose proof (Hclass v1 v2 r2 Hv1 Hv2 Hr1 Hr2) as H12.
      destruct (Hset v1 i Hv1) as [Hag|?]; [|done].
      assert (ring s v1 w) as Hw1 by (destruct Hw; [done|by eapply ring_trans]).
      change (get_assignment (ctx s) (bit_at s w i) = b). rewrite (Hag w Hw1).
      destruct Hone as [?|Hb2]; [done|]. by rewrite <- (Hag v2 H12).
  - apply uf_find_root_is_root in Hr1' as Hroot1. apply uf_find_root_is_root in Hr2' as Hroot2.
    case_decide as Hsize.
    + apply (merge_roots_settles K F N o fuel r2 r1 v2 v1 v1 v2 s); try done;
        [auto|clear -Hfuel; unfold theory_var in *; lia].
    + apply (merge_roots_settles K F N o fuel r1 r2 v1 v2 v1 v2 s); try done;
        [auto|clear -Hfuel; unfold theory_var in *; lia].
Qed.

(** From rings to classes. *)
Lemma settled_classes K F N s : tables_ok K F s → settled N s → classes_settled F N s.
Proof.
  intros (_ & _ & _ & _ & _ & Hclass & _) Hset v1 v2 r i Hv1 Hv2 H1 H2.
  destruct (Hset v1 i Hv1) as [Hag|?]; [|by right]. left. symmetry.
  apply (Hag v2). by eapply Hclass.
Qed.

Lemma grows_assign_eh fuel v is_true s s' : assign_eh fuel v is_true s = Some s' → grows s s'.
Proof.
  unfold assign_eh, propagate_bits.
  destruct (m_bool_var2atom s !! v) as [[occs|]|]; [| |done]; intros H.
  - apply grows_propagate_loop in H. by apply (grows_trans _ _ _ (grows_dyn _ _ eq_refl)).
  - simplify_eq. apply grows_refl.
Qed.

(** With no notification to come, the bits agree along every ring. *)
Lemma settled_empty s : settled ∅ s ↔ rings_agree s.
Proof.
  split.
  - intros H v idx Hv. destruct (H v idx Hv) as [?|(w & _ & Hin)]; [done|set_solver].
  - intros H v idx Hv. left. by apply H.
Qed.

Lemma merge_example_ok : tables_ok 1 2 merge_example.
Proof.
  assert (m_bool_var2atom merge_example =
          <[1 := bit_atom [(0, 0)]]> (<[2 := bit_atom [(1, 0)]]> ∅)) as Hm.
  { apply map_eq. intros [|[|[|i]]]; try done. }
  assert (∀ bv occs w j, m_bool_var2atom merge_example !! bv = Some (bit_atom occs) →
            (w, j) ∈ occs →
            w < 2 ∧ lit_var (bit_at merge_example w j) = bv ∧
            Nat.iter 1 (next merge_example) w = w) as Hoccs.
  { intros bv occs w j Hbv Hin. rewrite Hm in Hbv.
    repeat (apply lookup_insert_Some in Hbv as [[<- Hbv]|[_ Hbv]];
            [injection Hbv as <-;
             repeat (apply elem_of_cons in Hin as [Hin|Hin];
                     [injection Hin as -> ->; split; [lia|]; split; by vm_compute|]);
             by apply elem_of_nil in Hin|]).
    by rewrite lookup_empty in Hbv. }
  split; [split; [|split]|split_and!].
  - intros w j. destruct w as [|[|w]], j as [|j]; vm_compute; try done; eauto.
  - intros bv occs w j Hbv Hin. destruct (Hoccs bv occs w j Hbv Hin) as (_ & ? & ?).
    split; [done|]. exists 0. split; [lia|done].
  - intros v. destruct v as [|[|v]]; vm_compute; eauto.
  - by vm_compute.
  - intros w j Hne.
    destruct w as [|[|w]], j as [|j];
      try (exfalso; apply Hne; vm_compute; reflexivity).
    + exists [(0, 0)]. split; [by vm_compute|]. set_solver.
    + exists [(1, 0)]. split; [by vm_compute|]. set_solver.
  - intros bv occs w j Hbv Hin. by destruct (Hoccs bv occs w j Hbv Hin) as (? & _).
  - intros u Hu. change (get_num_vars merge_example) with 2 in *.
    destruct u as [|[|u]]; [| |lia]; (split; [vm_compute; lia|exists 0; by vm_compute]).
  - intros u w r Hu Hw H1 H2. change (get_num_vars merge_example) with 2 in *.
    destruct u as [|[|u]]; [| |lia]; (destruct w as [|[|w]]; [| |lia]);
      vm_compute in H1, H2; try congruence; by exists 0.
  - intros u w r Hu [k ->] H1. change (get_num_vars merge_example) with 2 in *.
    assert (Nat.iter k (next merge_example) u = u) as ->; [|done].
    induction k as [|k IH]; [done|]. simpl. rewrite IH.
    destruct u as [|[|u]]; [done|done|lia].
  - done.
  - done.
Qed.

Lemma merge_example_settled : settled ∅ merge_example.
Proof.
  apply settled_empty. intros v idx Hv w [k ->].
  change (get_num_vars merge_example) with 2 in *.
  assert (Nat.iter k (next merge_example) v = v) as ->; [|done].
  induction k as [|k IH]; [done|]. simpl. rewrite IH.
  destruct v as [|[|v]]; [done|done|lia].
Qed.




(** Why the order matters for what is still to come.  In [chain_example],
    merging [x] and [y] assigns bit 0 of [y], which is also bit 1 of [a] in
    the class of [x].  When [merge_eh] runs before the link, propagation
    walks the class of [a] without [y]: bit 1 of [x] becomes true, bit 1 of
    [y] stays unassigned, and the boolean variable of bit 1 of [x] is one of
    those assigned during the merge.  When the link comes first, bit 1 of
    [y] is assigned too. *)
Lemma merge_order_example :
  (∃ s', new_eq_eh merge_eh_then_link 10 0 1 chain_example = Some s' ∧
         inconsistent (ctx s') = false ∧
         bit_value s' 0 1 = l_true ∧ bit_value s' 1 1 = l_undef ∧
         lit_var (bit_at s' 0 1) ∈
           dom (m_assignment (ctx s')) ∖ dom (m_assignment (ctx chain_example))) ∧
  (∃ s', new_eq_eh link_then_merge_eh 10 0 1 chain_example = Some s' ∧
         inconsistent (ctx s') = false ∧
         bit_value s' 0 1 = l_true ∧ bit_value s' 1 1 = l_true).
Proof.
  split.
  - eexists. split; [by vm_compute|]. split; [by vm_compute|].
    split; [by vm_compute|]. split; [by vm_compute|].
    apply elem_of_difference. split.
    + apply elem_of_dom. vm_compute. by eexists.
    + rewrite elem_of_dom. vm_compute. by intros [? ?].
  - eexists. split; [by vm_compute|]. split; [by vm_compute|]. split; by vm_compute.
Qed.
